(** * calibre.ebooks.docx.tables: table styles and table assembly

    A shallow embedding of [src/calibre/ebooks/docx/tables.py] and the
    properties of its readers, style records, cascade and assembler.

    Conventions of the embedding:
    - a Python call that can raise is a function into [result]; a
      [try ... except (E1, E2)] is [try_except];
    - an instance of a style class is its attribute dictionary
      ([obj]); [setattr]/[getattr] are insert and lookup, a missing
      attribute raises [AttributeError];
    - lxml elements have identity: source (docx) elements carry an
      identifier, elements of the output tree live in a store. *)

From Stdlib Require Import ZArith String Ascii List Lia.
From Stdlib Require Import Floats.SpecFloat.
From stdpp Require Import base option list gmap strings fin_maps fin_sets.

Local Open Scope string_scope.
Local Open Scope Z_scope.
Set Warnings "-clear-no-such-hyp".

(** ** Exceptions and the result monad *)

Inductive exn :=
  | TypeError | ValueError | KeyError | AttributeError
  | OverflowError | ZeroDivisionError.

#[global] Instance exn_eq_dec : EqDecision exn.
Proof. solve_decision. Defined.

Inductive result (A : Type) :=
  | Ok (a : A)
  | Raise (e : exn).
Arguments Ok {A} a.
Arguments Raise {A} e.

#[global] Instance result_ret : MRet result := fun A a => Ok a.
#[global] Instance result_bind : MBind result := fun A B f m =>
  match m with Ok a => f a | Raise e => Raise e end.
#[global] Instance result_fmap : FMap result := fun A B f m =>
  match m with Ok a => Ok (f a) | Raise e => Raise e end.

(** [try: m except handled: h] *)
Definition try_except {A} (m : result A) (handled : list exn) (h : result A) : result A :=
  match m with
  | Ok a => Ok a
  | Raise e => if bool_decide (e ∈ handled) then h else Raise e
  end.

(** [for x in xs: acc = body(acc, x)], stopping at the first exception. *)
Fixpoint for_each {A S} (xs : list A) (body : S -> A -> result S) (s : S) : result S :=
  match xs with
  | [] => Ok s
  | x :: xs' => s' ← body s x; for_each xs' body s'
  end.

(** ** Property values

    [Inherit] is the singleton [block_styles.inherit]; the code tests it
    by identity ([is inherit]). [VRef] stands for any other object held in
    a property (the [overrides] dictionary of a named style). *)

Inductive value :=
  | Inherit
  | VStr (s : string)
  | VInt (z : Z)
  | VPair (rule : string) (val : option string)
  | VRef (r : nat).

#[global] Instance value_eq_dec : EqDecision value.
Proof. solve_decision. Defined.

Definition is_inherit (v : value) : bool :=
  match v with Inherit => true | _ => false end.

(** An instance of a style class: its [__dict__]. *)
Abbreviation obj := (gmap string value).

Definition setattr (o : obj) (name : string) (v : value) : obj := <[name := v]> o.

Definition getattr (o : obj) (name : string) : result value :=
  match o !! name with
  | Some v => Ok v
  | None => Raise AttributeError
  end.

(** [template % arg] for a template holding one [%s]. *)
Fixpoint percent_s (template arg : string) : string :=
  match template with
  | String "%" (String "s" rest) => arg ++ rest
  | String c rest => String c (percent_s rest arg)
  | EmptyString => EmptyString
  end.

(** ** Names imported from modules outside this file

    [names.namespaces] gives the URI of the [w:] prefix and
    [block_styles.border_props] the templates of the per-edge border
    properties; both are constants of modules that are not part of the
    sources, and nothing below depends on their values. *)

Class Imports := {
  w_uri : string;
  border_props : list string;
}.

Definition border_edges : list string :=
  ["left"; "top"; "right"; "bottom"; "insideH"; "insideV"].

(** ** Builtins: [int], true division and [%.3g]

    An attribute value is UTF-8 text, as libxml2 holds it. lxml hands an
    all-ASCII value over as a byte string and any other value as a
    unicode object.

    [int] reads a byte string as: optional surrounding white space, an
    optional sign, then at least one digit of the base (for base 16 an
    optional [0x] prefix). It reads a unicode object through the decimal
    codec first ([PyUnicode_EncodeDecimal]): white space becomes a
    space, a decimal digit of any script its ASCII digit, another
    character below U+0100 stays as it is, and any other character is
    refused with [UnicodeEncodeError], which is a [ValueError].

    The character tables are those of Unicode 5.2.0, the database of
    Python 2.7, over code points (a UCS-4 build). *)

Definition is_space (c : ascii) : bool :=
  let n := nat_of_ascii c in
  (Nat.eqb n 32 || (Nat.leb 9 n && Nat.leb n 13))%bool.

Fixpoint lstrip (s : string) : string :=
  match s with
  | String c rest => if is_space c then lstrip rest else s
  | EmptyString => EmptyString
  end.

Fixpoint rev_string (s acc : string) : string :=
  match s with
  | String c rest => rev_string rest (String c acc)
  | EmptyString => acc
  end.

Definition strip (s : string) : string :=
  rev_string (lstrip (rev_string (lstrip s) "")) "".

Definition digit_of (base : Z) (c : ascii) : option Z :=
  let n := Z.of_nat (nat_of_ascii c) in
  let d := if (48 <=? n) && (n <=? 57) then Some (n - 48)
           else if (97 <=? n) && (n <=? 122) then Some (n - 87)
           else if (65 <=? n) && (n <=? 90) then Some (n - 55)
           else None in
  match d with
  | Some k => if k <? base then Some k else None
  | None => None
  end.

Fixpoint digits_value (base acc : Z) (s : string) : option Z :=
  match s with
  | EmptyString => Some acc
  | String c rest =>
      match digit_of base c with
      | Some d => digits_value base (acc * base + d) rest
      | None => None
      end
  end.

Definition strip_0x (base : Z) (s : string) : string :=
  if base =? 16 then
    match s with
    | String "0" (String "x" rest) | String "0" (String "X" rest) => rest
    | _ => s
    end
  else s.

(** [int] of a byte string. *)
Definition PyInt_FromString (base : Z) (s : string) : result Z :=
  let s := strip s in
  let '(neg, s) := match s with
                   | String "-" rest => (true, rest)
                   | String "+" rest => (false, rest)
                   | _ => (false, s)
                   end in
  match strip_0x base s with
  | EmptyString => Raise ValueError
  | body => match digits_value base 0 body with
            | Some n => Ok (if neg : bool then - n else n)
            | None => Raise ValueError
            end
  end.

Definition byte_of (c : ascii) : Z := Z.of_nat (nat_of_ascii c).

Definition is_ascii (s : string) : bool :=
  forallb (fun c => byte_of c <? 128) (list_ascii_of_string s).

Definition continuation (c : ascii) : option Z :=
  let n := byte_of c in
  if (128 <=? n) && (n <? 192) then Some (n - 128) else None.

(** The code points of UTF-8 text ([None] for bytes that are not
    UTF-8, which libxml2 does not hold). *)
Fixpoint utf8_decode (s : string) : option (list Z) :=
  match s with
  | EmptyString => Some []
  | String c rest =>
      let n := byte_of c in
      if n <? 128 then cons n <$> utf8_decode rest
      else if n <? 194 then None
      else if n <? 224 then
        match rest with
        | String c1 rest =>
            match continuation c1 with
            | Some a => cons ((n - 192) * 64 + a) <$> utf8_decode rest
            | None => None
            end
        | _ => None
        end
      else if n <? 240 then
        match rest with
        | String c1 (String c2 rest) =>
            match continuation c1, continuation c2 with
            | Some a, Some b =>
                let cp := ((n - 224) * 64 + a) * 64 + b in
                if cp <? 0x800 then None else cons cp <$> utf8_decode rest
            | _, _ => None
            end
        | _ => None
        end
      else if n <? 245 then
        match rest with
        | String c1 (String c2 (String c3 rest)) =>
            match continuation c1, continuation c2, continuation c3 with
            | Some a, Some b, Some c =>
                let cp := (((n - 240) * 64 + a) * 64 + b) * 64 + c in
                if (cp <? 0x10000) || (0x10FFFF <? cp) then None
                else cons cp <$> utf8_decode rest
            | _, _, _ => None
            end
        | _ => None
        end
      else None
  end.

(** [Py_UNICODE_ISSPACE] *)
Definition unicode_isspace (cp : Z) : bool :=
  bool_decide (cp ∈ [0x09; 0x0A; 0x0B; 0x0C; 0x0D; 0x1C; 0x1D; 0x1E; 0x1F; 0x20;
                     0x85; 0xA0; 0x1680; 0x180E; 0x2028; 0x2029; 0x202F; 0x205F;
                     0x3000])
  || ((0x2000 <=? cp) && (cp <=? 0x200A)).

(** The digit zero of every script that has decimal digits; the digits
    one to nine follow it. *)
Definition decimal_zeros : list Z :=
  [0x30; 0x660; 0x6F0; 0x7C0; 0x966; 0x9E6; 0xA66; 0xAE6; 0xB66; 0xBE6; 0xC66;
   0xCE6; 0xD66; 0xE50; 0xED0; 0xF20; 0x1040; 0x1090; 0x17E0; 0x1810; 0x1946;
   0x19D0; 0x1A80; 0x1A90; 0x1B50; 0x1BB0; 0x1C40; 0x1C50; 0xA620; 0xA8D0;
   0xA900; 0xA9D0; 0xAA50; 0xABF0; 0xFF10; 0x104A0; 0x1D7CE; 0x1D7D8; 0x1D7E2;
   0x1D7EC; 0x1D7F6].

(** [Py_UNICODE_TODECIMAL]; U+19DA is a second digit one of New Tai
    Lue. *)
Definition unicode_todecimal (cp : Z) : option Z :=
  if cp =? 0x19DA then Some 1
  else (fun zero => cp - zero)
         <$> find (fun zero => (zero <=? cp) && (cp <=? zero + 9)) decimal_zeros.

Definition encode_decimal_char (cp : Z) : option ascii :=
  if unicode_isspace cp then Some " "%char
  else match unicode_todecimal cp with
       | Some k => Some (ascii_of_nat (Z.to_nat (48 + k)))
       | None => if (0 <? cp) && (cp <? 256)
                 then Some (ascii_of_nat (Z.to_nat cp)) else None
       end.

Definition PyUnicode_EncodeDecimal (s : string) : option string :=
  cps ← utf8_decode s;
  string_of_list_ascii <$> mapM encode_decimal_char cps.

(** [int] of an attribute value. *)
Definition int_of_string (base : Z) (s : string) : result Z :=
  if is_ascii s then PyInt_FromString base s
  else match PyUnicode_EncodeDecimal s with
       | Some s => PyInt_FromString base s
       | None => Raise ValueError
       end.

(** [int(x)] and [int(x, 16)] where [x] is the result of [get]:
    [None] raises [TypeError], a malformed string [ValueError]. *)
Definition int (x : option string) : result Z :=
  match x with
  | None => Raise TypeError
  | Some s => int_of_string 10 s
  end.

Definition int16 (x : option string) : result Z :=
  match x with
  | None => Raise TypeError
  | Some s => int_of_string 16 s
  end.

(** [a / b] under [from __future__ import division]: the binary64 number
    nearest to the quotient (ties to even); a quotient beyond the range
    of a float raises [OverflowError]. *)
Definition true_div (a b : Z) : result spec_float :=
  match b, a with
  | 0, _ => Raise ZeroDivisionError
  | _, 0 => Ok (S754_zero (b <? 0))
  | _, _ =>
      match SFdiv 53 1024 (S754_finite (a <? 0) (Z.to_pos (Z.abs a)) 0)
                          (S754_finite (b <? 0) (Z.to_pos (Z.abs b)) 0) with
      | S754_infinity _ => Raise OverflowError
      | f => Ok f
      end
  end.

Arguments true_div : simpl never.

Definition digit_char (d : Z) : ascii := ascii_of_nat (48 + Z.to_nat d).

Fixpoint decimal_go (fuel : nat) (n : Z) (acc : string) : string :=
  match fuel with
  | O => acc
  | S fuel' =>
      let acc' := String (digit_char (n mod 10)) acc in
      if n / 10 =? 0 then acc' else decimal_go fuel' (n / 10) acc'
  end.

(** Decimal digits of a non-negative integer. *)
Definition decimal (n : Z) : string :=
  decimal_go (S (Z.to_nat (Z.log2 n))) n "".

Fixpoint strip_zeros_rev (s : string) : string :=
  match s with
  | String "0" rest => strip_zeros_rev rest
  | _ => s
  end.

Definition strip_trailing_zeros (s : string) : string :=
  rev_string (strip_zeros_rev (rev_string s "")) "".

Fixpoint zeros (n : nat) : string :=
  match n with O => "" | S n' => String "0" (zeros n') end.

Definition round_half_even (num den : Z) : Z :=
  let q := num / den in
  let r := num mod den in
  match 2 * r ?= den with
  | Lt => q
  | Gt => q + 1
  | Eq => if Z.even q then q else q + 1
  end.

Fixpoint string_take (n : nat) (s : string) : string :=
  match n, s with
  | S n', String c rest => String c (string_take n' rest)
  | _, _ => ""
  end.

Fixpoint string_drop (n : nat) (s : string) : string :=
  match n, s with
  | S n', String c rest => string_drop n' rest
  | _, _ => s
  end.

(** The digits and decimal exponent of [num/den] rounded to [P]
    significant digits: [(q, X)] with [10^(P-1) <= q < 10^P] and the
    rounded value [q * 10^(X-P+1)]. *)
Definition round_sig (P num den : Z) : Z * Z :=
  let K := Z.of_nat (String.length (decimal den)) in
  let X := Z.of_nat (String.length (decimal (num * 10 ^ K / den))) - 1 - K in
  let sh := P - 1 - X in
  let q := if 0 <=? sh then round_half_even (num * 10 ^ sh) den
           else round_half_even num (den * 10 ^ (- sh)) in
  if q =? 10 ^ P then (10 ^ (P - 1), X + 1) else (q, X).

(** ['%.Pg' % x] for [P >= 1]. *)
Definition format_g (P : Z) (x : spec_float) : string :=
  match x with
  | S754_nan => "nan"
  | S754_infinity s => if s then "-inf" else "inf"
  | S754_zero s => if s then "-0" else "0"
  | S754_finite s m e =>
      let '(num, den) := if 0 <=? e then (Z.pos m * 2 ^ e, 1) else (Z.pos m, 2 ^ (- e)) in
      let '(q, X) := round_sig P num den in
      let digits := strip_trailing_zeros (decimal q) in
      let body :=
        if (X <? -4) || (P <=? X) then
          let mant := match digits with
                      | String d EmptyString => String d EmptyString
                      | String d rest => String d (String "." rest)
                      | EmptyString => EmptyString
                      end in
          let ex := decimal (Z.abs X) in
          mant ++ "e" ++ (if X <? 0 then "-" else "+")
               ++ (if Z.abs X <? 10 then "0" else "") ++ ex
        else if 0 <=? X then
          let n := Z.to_nat (X + 1) in
          let ipart := string_take n digits ++ zeros (n - String.length digits) in
          match string_drop n digits with
          | EmptyString => ipart
          | frac => ipart ++ "." ++ frac
          end
        else "0." ++ zeros (Z.to_nat (- X - 1)) ++ digits in
      (if s then "-" else "") ++ body
  end.

Arguments format_g : simpl never.

(** ** Source (docx) elements

    An lxml element of the parsed document: identity, Clark-notation tag,
    attributes and children in document order. *)

#[warnings="-register-all"]
Inductive xnode := XNode {
  x_id : nat;
  x_tag : string;
  x_attrib : gmap string string;
  x_children : list xnode;
}.

Fixpoint is_prefix (p s : string) : bool :=
  match p, s with
  | EmptyString, _ => true
  | String a p', String b s' => if Ascii.eqb a b then is_prefix p' s' else false
  | String _ _, EmptyString => false
  end.

(** [s.endswith(suffix)] *)
Definition endswith (s suffix : string) : bool :=
  is_prefix (rev_string suffix "") (rev_string s "").

Inductive xpath :=
  | Child (name : string)                       (* ./w:name *)
  | ChildWithAttr (name attr : string).         (* ./w:name[@w:attr] *)

Section names.
Context {imports : Imports}.

(** Modelled from the spec: the helpers of [calibre.ebooks.docx.names]
    ([get], [XPath]), which the spec takes as the given tree-query
    capability: attribute lookup by qualified name and selection of the
    children with a qualified name, in document order. A prefixed name
    [w:x] stands for the Clark name in the namespace of [w:]. *)
Definition expand (qname : string) : string :=
  match qname with
  | String "w" (String ":" name) => "{" ++ w_uri ++ "}" ++ name
  | _ => qname
  end.

Definition get (x : xnode) (attr : string) : option string :=
  x_attrib x !! expand attr.

Definition get_default (x : xnode) (attr : string) (d : string) : string :=
  default d (get x attr).

Definition XPath (e : xpath) (parent : xnode) : list xnode :=
  match e with
  | Child name =>
      filter (fun c => x_tag c = expand name) (x_children parent)
  | ChildWithAttr name attr =>
      filter (fun c => x_tag c = expand name ∧ is_Some (get c attr))
             (x_children parent)
  end.

End names.

Arguments XPath : simpl never.
Arguments get : simpl never.
Arguments int : simpl never.
Arguments int16 : simpl never.

(** ** Read from XML *)

Fixpoint lower (s : string) : string :=
  match s with
  | String c rest =>
      let n := nat_of_ascii c in
      String (if (Nat.leb 65 n && Nat.leb n 90)%bool then ascii_of_nat (n + 32) else c)
             (lower rest)
  | EmptyString => EmptyString
  end.

(** The frame of a running function, as far as [locals()] shows it: the
    local variables themselves ([f_fast]) and the dictionary that
    [locals()] returns ([f_locals]). Every call of [locals()] first
    copies the current value of each local variable into that one
    dictionary and then returns it; storing into the dictionary does not
    assign the variable. *)
Record frame := {
  f_fast : gmap string value;
  f_locals : gmap string value;
}.

Definition locals (fr : frame) : frame :=
  {| f_fast := f_fast fr; f_locals := f_fast fr ∪ f_locals fr |}.

(** [locals()[x] = v] *)
Definition locals_setitem (fr : frame) (x : string) (v : value) : frame :=
  let fr' := locals fr in
  {| f_fast := f_fast fr'; f_locals := <[x := v]> (f_locals fr') |}.

(** [locals()[x]] *)
Definition locals_getitem (fr : frame) (x : string) : result value * frame :=
  let fr' := locals fr in
  (match f_locals fr' !! x with Some v => Ok v | None => Raise KeyError end, fr').

Section readers.
Context {imports : Imports}.

Definition _read_width (elem : xnode) : result value :=
  w ← try_except (int (get elem "w:w")) [TypeError; ValueError] (Ok 0);
  let typ := get_default elem "w:type" "auto" in
  if String.eqb typ "nil" then Ok (VStr "0")
  else if String.eqb typ "auto" then Ok (VStr "auto")
  else if String.eqb typ "dxa" then
    q ← true_div w 20; Ok (VStr (format_g 3 q ++ "pt"))
  else if String.eqb typ "pct" then
    q ← true_div w 50; Ok (VStr (format_g 3 q ++ "%"))
  else Ok Inherit.

(** The shape shared by the single-value width readers:
    [ans = inherit; for n in XPath(e)(parent): ans = _read_width(n);
     setattr(dest, prop, ans)]. *)
Definition read_width_as (e : xpath) (prop : string)
    (parent : xnode) (dest : obj) : result obj :=
  ans ← for_each (XPath e parent) (fun _ n => _read_width n) Inherit;
  Ok (setattr dest prop ans).

Definition read_width := read_width_as (Child "w:tblW") "width".
Definition read_cell_width := read_width_as (Child "w:tcW") "width".
Definition read_spacing := read_width_as (Child "w:tblCellSpacing") "spacing".
Definition read_indent := read_width_as (Child "w:tblInd") "indent".

Definition edges : list string := ["left"; "top"; "right"; "bottom"].

(** The initial values of the four local variables of [read_padding]:
    [left = top = bottom = right = inherit]. *)
Definition fast0 : gmap string value :=
  {[ "left" := Inherit; "top" := Inherit; "bottom" := Inherit; "right" := Inherit ]}.

(** [locals()[x] = _read_width(edge)] *)
Definition read_edge (x : string) (fr : frame) (edge : xnode) : result frame :=
  v ← _read_width edge;
  Ok (locals_setitem fr x v).

(** [setattr(dest, 'cell_padding_%s' % x, locals()[x])] *)
Definition set_padding (st : frame * obj) (x : string) : result (frame * obj) :=
  let '(fr, dest) := st in
  let '(v, fr') := locals_getitem fr x in
  v ← v;
  Ok (fr', setattr dest (percent_s "cell_padding_%s" x) v).

Definition read_padding (parent : xnode) (dest : obj) : result obj :=
  let name := if endswith (x_tag parent) "}tblPr" then "tblCellMar" else "tcMar" in
  let fr0 := {| f_fast := fast0; f_locals := ∅ |} in
  fr ← for_each (XPath (Child (percent_s "w:%s" name)) parent) (fun fr mar =>
         for_each edges (fun fr x =>
           for_each (XPath (Child (percent_s "w:%s" x)) mar) (read_edge x) fr) fr) fr0;
  snd <$> for_each edges set_padding (fr, dest).

(** The body of the loop of [read_justification] over the [w:jc]
    nodes, on the pair of local variables [(left, right)]. *)
Definition jc_step (acc : value * value) (jc : xnode) : value * value :=
  let '(mleft, mright) := acc in
  match get jc "w:val" with
  | None | Some "" => (mleft, mright)                     (* continue *)
  | Some val =>
      if String.eqb val "left" then (mleft, VStr "auto")
      else if String.eqb val "right" then (VStr "auto", mright)
      else if String.eqb val "center" then (VStr "auto", VStr "auto")
      else (mleft, mright)
  end.

Definition read_justification (parent : xnode) (dest : obj) : result obj :=
  let '(mleft, mright) :=
    foldl jc_step (Inherit, Inherit) (XPath (ChildWithAttr "w:jc" "w:val") parent) in
  Ok (setattr (setattr dest "margin_left" mleft) "margin_right" mright).

Definition read_height (parent : xnode) (dest : obj) : result obj :=
  let ans :=
    foldl (fun ans rh =>
      let rule := get_default rh "w:hRule" "auto" in
      if bool_decide (rule ∈ ["auto"; "atLeast"; "exact"])
      then VPair rule (get rh "w:val") else ans)
      Inherit (XPath (Child "w:trHeight") parent) in
  Ok (setattr dest "height" ans).

Definition read_vertical_align (parent : xnode) (dest : obj) : result obj :=
  let ans :=
    foldl (fun _ va =>
      match get va "w:val" with
      | Some "center" => VStr "middle"
      | Some "top" => VStr "top"
      | Some "bottom" => VStr "bottom"
      | _ => VStr "middle"
      end) Inherit (XPath (Child "w:vAlign") parent) in
  Ok (setattr dest "vertical_align" ans).

Definition read_col_span (parent : xnode) (dest : obj) : result obj :=
  ans ← for_each (XPath (Child "w:gridSpan") parent) (fun ans gs =>
          try_except (VInt <$> int (get gs "w:val"))
                     [TypeError; ValueError] (Ok ans)) Inherit;
  Ok (setattr dest "col_span" ans).

Definition read_merge (parent : xnode) (dest : obj) : result obj :=
  for_each ["hMerge"; "vMerge"] (fun dest x =>
    let ans := foldl (fun _ m => VStr (get_default m "w:val" "continue"))
                     Inherit (XPath (Child (percent_s "w:%s" x)) parent) in
    Ok (setattr dest x ans)) dest.

Definition read_band_size (parent : xnode) (dest : obj) : result obj :=
  for_each ["Col"; "Row"] (fun dest x =>
    ans ← for_each (XPath (Child (percent_s "w:tblStyle%sBandSize" x)) parent)
            (fun ans y =>
               try_except (VInt <$> int (get y "w:val"))
                          [TypeError; ValueError] (Ok ans)) (VInt 1);
    Ok (setattr dest (percent_s "%s_band_size" (lower x)) ans)) dest.

Definition read_look (parent : xnode) (dest : obj) : result obj :=
  ans ← for_each (XPath (Child "w:tblLook") parent) (fun ans x =>
          try_except (VInt <$> int16 (get x "w:val"))
                     [ValueError; TypeError] (Ok ans)) (VInt 0);
  Ok (setattr dest "look" ans).

End readers.

(** ** Style records *)

Module RowStyle.

Definition all_properties : list string :=
  ["height"; "cantSplit"; "hidden"; "spacing"].

(** [RowStyle.__init__(self, tcPr=None)]: with no node every declared
    property is set to [inherit]; with a node the body is [pass]. *)
Definition __init__ (tcPr : option xnode) : obj :=
  match tcPr with
  | None => foldl (fun self p => setattr self p Inherit) ∅ all_properties
  | Some _ => ∅
  end.

End RowStyle.

Module TableStyle.
Section with_imports.
Context {imports : Imports}.

Definition all_properties : list string :=
["width"; "cell_padding_left"; "cell_padding_right"; "cell_padding_top";
 "cell_padding_bottom"; "margin_left"; "margin_right"; "background_color";
 "spacing"; "indent"; "overrides"; "col_band_size"; "row_band_size"; "look"]
++ flat_map (fun edge => map (fun k => percent_s k edge) border_props) border_edges.

(** [TableStyle.__init__(self, tblPr=None)], the branch without a node. *)
Definition __init__none : obj :=
foldl (fun self p => setattr self p Inherit) ∅ all_properties.

(** [update(self, other)]: the body of the loop, then the loop. *)
Definition update_body (other : obj) (self : obj) (prop : string) : result obj :=
nval ← getattr other prop;
if negb (is_inherit nval) then Ok (setattr self prop nval) else Ok self.

Definition update (self other : obj) : result obj :=
for_each all_properties (update_body other) self.

(** [resolve_based_on(self, parent)] *)
Definition resolve_body (parent : obj) (self : obj) (p : string) : result obj :=
val ← getattr self p;
if is_inherit val then
  pv ← getattr parent p; Ok (setattr self p pv)
else Ok self.

Definition resolve_based_on (self parent : obj) : result obj :=
for_each all_properties (resolve_body parent) self.

End with_imports.
End TableStyle.

(** ** The output tree (lxml)

    Elements of the tree under construction are mutable and shared, so
    they live in a store keyed by identity. An element records its tag,
    text, tail, parent and children; the operations below are lxml's. *)

Module Lxml.

Record element := {
  e_tag : string;
  e_text : option string;
  e_tail : option string;
  e_parent : option nat;
  e_children : list nat;
}.

Abbreviation tree := (gmap nat element).

Definition set_parent (p : option nat) (e : element) : element :=
  {| e_tag := e_tag e; e_text := e_text e; e_tail := e_tail e;
     e_parent := p; e_children := e_children e |}.

Definition set_children (f : list nat -> list nat) (e : element) : element :=
  {| e_tag := e_tag e; e_text := e_text e; e_tail := e_tail e;
     e_parent := e_parent e; e_children := f (e_children e) |}.

Definition set_tail (s : string) (e : element) : element :=
  {| e_tag := e_tag e; e_text := e_text e; e_tail := Some s;
     e_parent := e_parent e; e_children := e_children e |}.

(** [list(n)]: the children of [n]. *)
Definition children (d : tree) (n : nat) : list nat :=
  match d !! n with Some e => e_children e | None => [] end.

(** [n.getparent()] *)
Definition getparent (d : tree) (n : nat) : option nat :=
  d !! n ≫= e_parent.

Definition tag (d : tree) (n : nat) : option string := e_tag <$> d !! n.

(** The element maker ([TABLE(text)], [TR(text)], [TD()]): a new
    element without parent. *)
Definition E (name : string) (text : option string) (d : tree) : nat * tree :=
  let n := fresh (dom d) in
  (n, <[n := {| e_tag := name; e_text := text; e_tail := None;
                e_parent := None; e_children := [] |}]> d).

(** [parent.index(child)] *)
Fixpoint list_index (c : nat) (l : list nat) : option nat :=
  match l with
  | [] => None
  | x :: l' => if decide (x = c) then Some O else S <$> list_index c l'
  end.

Definition index (d : tree) (parent child : nat) : result nat :=
  match list_index child (children d parent) with
  | Some i => Ok i
  | None => Raise ValueError
  end.

(** Unlink [c] from its current parent, if any. *)
Definition detach (d : tree) (c : nat) : tree :=
  match getparent d c with
  | None => d
  | Some p =>
      alter (set_children (filter (fun x => x ≠ c))) p
            (alter (set_parent None) c d)
  end.

(** [parent.insert(idx, c)] *)
Definition insert (d : tree) (parent idx c : nat) : tree :=
  let d := detach d c in
  alter (set_children (fun l => (take idx l ++ c :: drop idx l)%list)) parent
        (alter (set_parent (Some parent)) c d).

Fixpoint is_ancestor_or_same (fuel : nat) (d : tree) (a n : nat) : bool :=
  if decide (a = n) then true
  else match fuel with
       | O => true
       | S fuel' =>
           match getparent d n with
           | None => false
           | Some p => is_ancestor_or_same fuel' d a p
           end
       end.

(** [parent.append(c)]: moves [c] (with its subtree and tail) to the
    end of [parent]; appending an element to itself or to one of its
    descendants is refused. *)
Definition append (d : tree) (parent c : nat) : result tree :=
  if is_ancestor_or_same (size d) d c parent then Raise ValueError
  else
    let d := detach d c in
    Ok (alter (set_children (fun l => (l ++ [c])%list)) parent
              (alter (set_parent (Some parent)) c d)).

(** [if len(n): n[-1].tail = s] *)
Definition set_last_tail (d : tree) (n : nat) (s : string) : tree :=
  match last (children d n) with
  | Some c => alter (set_tail s) c d
  | None => d
  end.

End Lxml.

(** ** Tables: registration and assembly *)

Definition nl : string := String "010" EmptyString.
Definition tab : string := String "009" EmptyString.

Module Tables.
Import Lxml.

(** [self.tables] is an [OrderedDict] from table element to its list of
    blocks and [self.current_table] a second reference to one of these
    lists: the lists live in [heap], the dictionary and the cursor hold
    references. Keys are lxml elements, compared by identity. *)
Record t := {
  tables : list (xnode * nat);
  current_table : option nat;
  heap : gmap nat (list xnode);
}.

Definition __init__ : t :=
  {| tables := []; current_table := None; heap := ∅ |}.

(** [OrderedDict.__setitem__]: a known key keeps its place. *)
Fixpoint od_setitem (k : xnode) (r : nat) (od : list (xnode * nat)) : list (xnode * nat) :=
  match od with
  | [] => [(k, r)]
  | (k', r') :: od' =>
      if decide (x_id k' = x_id k) then (k', r) :: od'
      else (k', r') :: od_setitem k r od'
  end.

Definition register (self : t) (tbl : xnode) : t :=
  let r := fresh (dom (heap self)) in
  {| tables := od_setitem tbl r (tables self);
     current_table := Some r;
     heap := <[r := []]> (heap self) |}.

Definition add (self : t) (p : xnode) : result t :=
  match current_table self with
  | None => Raise AttributeError
  | Some r =>
      Ok {| tables := tables self;
            current_table := current_table self;
            heap := alter (fun l => (l ++ [p])%list) r (heap self) |}
  end.

(** [self.tables.iteritems()] *)
Definition iteritems (self : t) : list (xnode * list xnode) :=
  map (fun '(k, r) => (k, default [] (heap self !! r))) (tables self).

(** [self.tables[tbl]], as the reference held and as the list it
    denotes. *)
Fixpoint od_lookup (id : nat) (od : list (xnode * nat)) : option nat :=
  match od with
  | [] => None
  | (k, r) :: od' => if decide (x_id k = id) then Some r else od_lookup id od'
  end.

Definition blocks_of (self : t) (tbl : xnode) : option (list xnode) :=
  od_lookup (x_id tbl) (tables self) ≫= fun r => heap self !! r.

(** The registered tables, in iteration order. *)
Definition keys (self : t) : list nat := map (fun kr => x_id kr.1) (tables self).

(** The calls of the registration phase, and a run of them on a new
    [Tables()]. *)
Inductive call :=
  | Register (tbl : xnode)
  | Add (p : xnode).

Definition step (self : t) (c : call) : result t :=
  match c with
  | Register tbl => Ok (register self tbl)
  | Add p => add self p
  end.

Definition run (cs : list call) : result t := for_each cs step __init__.

(** The table of the last [register] call. *)
Definition last_registered (cs : list call) : option xnode :=
  foldl (fun acc c => match c with Register tbl => Some tbl | Add _ => acc end)
        None cs.

(** [rmap = {v:k for k, v in object_map.iteritems()}]; [object_map] is
    given by its items in iteration order. *)
Definition make_rmap (object_map : list (nat * xnode)) : gmap nat nat :=
  foldl (fun rmap '(k, v) => <[x_id v := k]> rmap) ∅ object_map.

Definition getitem (rmap : gmap nat nat) (x : xnode) : result nat :=
  match rmap !! x_id x with
  | Some b => Ok b
  | None => Raise KeyError
  end.

Section with_imports.
Context {imports : Imports}.

(** Lines 232-235: the new table element, put in front of the first
  block. *)
Definition insert_table (rmap : gmap nat nat) (first : xnode) (d : tree)
  : result (nat * tree) :=
b ← getitem rmap first;
let parent := getparent d b in
let '(table, d) := E "table" (Some (nl ++ tab ++ tab)) d in
match parent with
| None => Raise AttributeError
| Some parent =>
    b ← getitem rmap first;
    idx ← index d parent b;
    Ok (table, insert d parent idx table)
end.

(** Lines 241-246 *)
Definition add_cell (rmap : gmap nat nat) (tr : nat) (d : tree) (tc : xnode)
  : result tree :=
let '(td, d) := E "td" None d in
let d := alter (set_tail (nl ++ tab ++ tab ++ tab)) td d in
d ← append d tr td;
for_each (XPath (Child "w:p") tc) (fun d p =>
  block ← getitem rmap p;
  append d td block) d.

(** Lines 237-248 *)
Definition add_row (rmap : gmap nat nat) (table : nat) (d : tree) (row : xnode)
  : result tree :=
let '(tr, d) := E "tr" (Some (nl ++ tab ++ tab ++ tab)) d in
let d := alter (set_tail (nl ++ tab ++ tab)) tr d in
d ← append d table tr;
d ← for_each (XPath (Child "w:tc") row) (add_cell rmap tr) d;
Ok (set_last_tail d tr (nl ++ tab ++ tab)).

(** The body of the loop over the registered tables. *)
Definition assemble (rmap : gmap nat nat) (d : tree)
  (item : xnode * list xnode) : result tree :=
let '(tbl, blocks) := item in
match blocks with
| [] => Ok d                                            (* continue *)
| first :: _ =>
    '(table, d) ← insert_table rmap first d;
    d ← for_each (XPath (Child "w:tr") tbl) (add_row rmap table) d;
    Ok (set_last_tail d table (nl ++ tab))
end.

Definition apply_markup (self : t) (object_map : list (nat * xnode)) (d : tree)
  : result tree :=
let rmap := make_rmap object_map in
for_each (iteritems self) (assemble rmap) d.

End with_imports.
End Tables.

(** ** Specification of registration

    What every state reached by a run of calls satisfies: the lists of
    different tables are different objects, every list exists, and the
    cursor is the list of the table registered last. *)
Record reachable_inv (cs : list Tables.call) (self : Tables.t) : Prop := {
  inv_refs : NoDup (map snd (Tables.tables self));
  inv_heap : ∀ r, r ∈ map snd (Tables.tables self) -> is_Some (Tables.heap self !! r);
  inv_cursor :
    Tables.current_table self =
      Tables.last_registered cs ≫= fun tbl =>
        Tables.od_lookup (x_id tbl) (Tables.tables self);
  inv_cursor_registered :
    ∀ tbl, Tables.last_registered cs = Some tbl ->
           is_Some (Tables.od_lookup (x_id tbl) (Tables.tables self));
}.

(** ** Specification of assembly

    [old] is the set of elements of the tree before assembly; the blocks
    are among them. *)

Section assembly_predicates.
Import Lxml.

(** Every old element that has a parent hangs under an old element or
    under a cell container. *)
Record assembly_inv (old : gset nat) (d : tree) : Prop := {
  inv_old : old ⊆ dom d;
  inv_parents : ∀ n q, n ∈ old -> getparent d n = Some q ->
                       q ∈ old ∨ tag d q = Some "td";
}.

(** [d'] comes from [d] by steps of assembly that add children only to
    old elements, to cell containers, to elements of [X] and to
    elements made on the way. *)
Record extends (old X : gset nat) (d d' : tree) : Prop := {
  ext_dom : dom d ⊆ dom d';
  ext_tag : ∀ n, n ∈ dom d -> tag d' n = tag d n;
  ext_parent : ∀ n, n ∈ dom d -> n ∉ old -> getparent d' n = getparent d n;
  ext_children : ∀ n, n ∈ dom d -> n ∉ old -> tag d n ≠ Some "td" -> n ∉ X ->
                      children d' n = children d n;
}.

(** The element [tr] of [d] is a row container of the table [t] and
    holds the cell containers [tds]. *)
Definition row_of (d : tree) (t tr : nat) (tds : list nat) : Prop :=
  tag d tr = Some "tr" ∧ getparent d tr = Some t ∧ children d tr = tds ∧
  Forall (fun td => tag d td = Some "td" ∧ getparent d td = Some tr) tds.

(** The element [t] of [d] is a table of the row containers [trs], the
    i-th of which holds the cell containers [tdss !! i]. *)
Definition table_of (d : tree) (t : nat) (trs : list nat) (tdss : list (list nat)) : Prop :=
  tag d t = Some "table" ∧ children d t = trs ∧ Forall2 (row_of d t) trs tdss.

(** The row and cell containers in the order they are made. *)
Definition created (trs : list nat) (tdss : list (list nat)) : list nat :=
  concat (zip_with cons trs tdss).

End assembly_predicates.

(** [a] is [n] or an ancestor of [n]. *)
Inductive ancestor_or_same (d : Lxml.tree) (a : nat) : nat -> Prop :=
  | anc_refl : ancestor_or_same d a a
  | anc_up n p :
      Lxml.getparent d n = Some p -> ancestor_or_same d a p ->
      ancestor_or_same d a n.

(** A walk up the parent links, starting at [n]. *)
Inductive up_path (d : Lxml.tree) : nat -> list nat -> Prop :=
  | up_one n : up_path d n [n]
  | up_step n p l :
      Lxml.getparent d n = Some p -> up_path d p l -> up_path d n (n :: l).

(** The parent links of [d] form a forest over the elements of [d]. *)
Record forest (d : Lxml.tree) : Prop := {
  forest_closed : ∀ n p, Lxml.getparent d n = Some p -> p ∈ dom d;
  forest_acyclic : ∀ n p, Lxml.getparent d n = Some p -> ¬ ancestor_or_same d n p;
}.

(** The blocks (the elements [rmap] points to) of a converted document:
    each is listed among the children of its parent and none lies inside
    another. *)
Record blocks_ok (rmap : gmap nat nat) (d : Lxml.tree) : Prop := {
  blocks_listed : ∀ k b, rmap !! k = Some b ->
                    ∃ p, Lxml.getparent d b = Some p ∧ b ∈ Lxml.children d p;
  blocks_apart : ∀ k b k' b', rmap !! k = Some b -> rmap !! k' = Some b' ->
                   ancestor_or_same d b b' -> b = b';
}.

(** No block is [x] or above [x]. *)
Definition no_block_above (rmap : gmap nat nat) (d : Lxml.tree) (x : nat) : Prop :=
  ∀ k b, rmap !! k = Some b -> ¬ ancestor_or_same d b x.

(** Every paragraph that [apply_markup] looks up for the item has a
    block. *)
Definition item_mapped `{Imports} (rmap : gmap nat nat) (item : xnode * list xnode) : Prop :=
  match item.2 with
  | [] => True
  | first :: _ =>
      is_Some (rmap !! x_id first) ∧
      Forall (fun row =>
        Forall (fun tc =>
          Forall (fun p => is_Some (rmap !! x_id p)) (XPath (Child "w:p") tc))
          (XPath (Child "w:tc") row))
        (XPath (Child "w:tr") item.1)
  end.

(** What fixes the place of a table and what [apply_markup] reads. *)
Section place_predicates.
Context {imports : Imports}.
Import Lxml.

(** The children of every element are elements of the tree. *)
Definition children_closed (d : tree) : Prop :=
  ∀ n c, c ∈ children d n -> c ∈ dom d.

(** Among the children of [q] in [d], the elements of [l] are those [q]
    still has of [l], in the order of [l]. *)
Definition in_order_of (l : list nat) (d : tree) (q : nat) : Prop :=
  filter (fun x => x ∈ l) (children d q) = filter (fun x => x ∈ children d q) l.

(** [t] is a child of [q] and stands among the elements of [l] as in
    [l]. *)
Definition placed (l : list nat) (t q : nat) (d : tree) : Prop :=
  t ∈ children d q ∧ in_order_of l d q.

(** The paragraphs [apply_markup] looks up for an item: the first
    block and the [w:p] children of the cells. *)
Definition looked_up (item : xnode * list xnode) : list xnode :=
  match item.2 with
  | [] => []
  | first :: _ =>
      first :: (XPath (Child "w:tr") item.1 ≫= fun row =>
                XPath (Child "w:tc") row ≫= fun tc =>
                XPath (Child "w:p") tc)
  end.

(** The part of [rmap] that [apply_markup] reads. *)
Definition rmap_read (rmap : gmap nat nat) (items : list (xnode * list xnode))
  : gmap nat nat :=
  filter (fun kb => kb.1 ∈ x_id <$> (items ≫= looked_up)) rmap.

End place_predicates.

(** ** Concrete data for the examples *)

(** The values the two imported constants have in calibre. *)
#[global] Instance ooxml : Imports := {|
  w_uri := "http://schemas.openxmlformats.org/wordprocessingml/2006/main";
  border_props := ["padding_%s"; "border_%s_width"; "border_%s_style"; "border_%s_color"];
|}.

(** An element in the [w:] namespace, with attributes in that namespace. *)
Definition w_elem `{Imports} (id : nat) (name : string)
    (attrs : list (string * string)) (kids : list xnode) : xnode :=
  {| x_id := id; x_tag := expand ("w:" ++ name);
     x_attrib := list_to_map (map (fun '(k, v) => (expand ("w:" ++ k), v)) attrs);
     x_children := kids |}.

(** Two table styles: a base level that sets the width, and a later level
    that only sets the left margin. *)
Definition style_base : obj :=
  setattr TableStyle.__init__none "width" (VStr "50%").
Definition style_later : obj :=
  setattr TableStyle.__init__none "margin_left" (VStr "auto").

(** A fully resolved parent: every property has a concrete value. *)
Definition style_resolved : obj :=
  foldl (fun self p => setattr self p (VStr "0")) ∅ TableStyle.all_properties.

(** Width nodes: 5000 fiftieths of a percent; a magnitude of 10^400
    twentieths of a point; a [dxa] width without magnitude. *)
Definition width_full : xnode :=
  w_elem 1 "tblW" [("w", "5000"); ("type", "pct")] [].
Definition width_huge : xnode :=
  w_elem 1 "tblW" [("w", String "1" (zeros 400)); ("type", "dxa")] [].

(** The float 100.0, that is 5000/50. *)
Definition float_100 : spec_float := S754_finite false 7036874417766400 (-46).

(** A table property container whose cell margins give a left padding of
    100 twentieths of a point. *)
Definition margin_left_edge : xnode :=
  w_elem 3 "left" [("w", "100"); ("type", "dxa")] [].
Definition padded_tblPr : xnode :=
  w_elem 1 "tblPr" [] [w_elem 2 "tblCellMar" [] [margin_left_edge]].

(** Justification and numeric attributes. *)
Definition centered_tblPr : xnode :=
  w_elem 1 "tblPr" [] [w_elem 2 "jc" [("val", "center")] []].

(** A table [tbl_a] of two rows, the first of two cells and the second
    of one cell holding two paragraphs, and a table [tbl_b] that
    contributes no block. *)
Definition par (id : nat) : xnode := w_elem id "p" [] [].
Definition tbl_a : xnode :=
  w_elem 1 "tbl" []
    [w_elem 2 "tblPr" [] [];
     w_elem 3 "tr" [] [w_elem 5 "tc" [] [par 10]; w_elem 6 "tc" [] [par 11]];
     w_elem 4 "tr" [] [w_elem 7 "tc" [] [par 12; par 13]]].
Definition tbl_b : xnode :=
  w_elem 20 "tbl" [] [w_elem 21 "tr" [] [w_elem 22 "tc" [] []]].

(** The converted document: a body (element 0) whose children are the
    converted blocks; blocks 110 to 113 come from the paragraphs 10 to 13
    of [tbl_a]. *)
Definition html_block (parent : nat) : Lxml.element :=
  {| Lxml.e_tag := "p"; Lxml.e_text := None; Lxml.e_tail := None;
     Lxml.e_parent := Some parent; Lxml.e_children := [] |}.
Definition body_tree : Lxml.tree :=
  list_to_map
    [(0, {| Lxml.e_tag := "body"; Lxml.e_text := None; Lxml.e_tail := None;
            Lxml.e_parent := None;
            Lxml.e_children := [100; 110; 111; 112; 113; 120] |});
     (100, html_block 0); (110, html_block 0); (111, html_block 0);
     (112, html_block 0); (113, html_block 0); (120, html_block 0)]%nat.
Definition example_object_map : list (nat * xnode) :=
  [(110, par 10); (111, par 11); (112, par 12); (113, par 13)]%nat.

Definition state_after (cs : list Tables.call) : Tables.t :=
  match Tables.run cs with Ok self => self | Raise _ => Tables.__init__ end.

Definition example_calls : list Tables.call :=
  [Tables.Register tbl_a; Tables.Add (par 10); Tables.Add (par 11);
   Tables.Add (par 12); Tables.Add (par 13); Tables.Register tbl_b].

(** Registration with a table registered twice. *)
Definition repeated_calls : list Tables.call :=
  [Tables.Register tbl_a; Tables.Add (par 10); Tables.Register tbl_b;
   Tables.Add (par 11); Tables.Register tbl_a].

(** ** Specification of the contents of the cells *)

Section contents_predicates.
Context {imports : Imports}.
Import Lxml.

(** The blocks of the paragraphs of the cell [tc], in document order:
    what [apply_markup] moves into its cell container. *)
Definition cell_blocks (rmap : gmap nat nat) (tc : xnode) : list nat :=
  omap (fun p => rmap !! x_id p) (XPath (Child "w:p") tc).

Definition row_blocks (rmap : gmap nat nat) (row : xnode) : list nat :=
  XPath (Child "w:tc") row ≫= cell_blocks rmap.

Definition table_blocks (rmap : gmap nat nat) (tbl : xnode) : list nat :=
  XPath (Child "w:tr") tbl ≫= row_blocks rmap.

(** The blocks moved in the turn of a registered table, and the block in
    front of which its table element is put. *)
Definition moved (rmap : gmap nat nat) (item : xnode * list xnode) : list nat :=
  match item.2 with
  | [] => []
  | _ :: _ => table_blocks rmap item.1
  end.

Definition anchor (rmap : gmap nat nat) (item : xnode * list xnode) : option nat :=
  match item.2 with
  | [] => None
  | first :: _ => rmap !! x_id first
  end.

Definition footprint (rmap : gmap nat nat) (item : xnode * list xnode) : list nat :=
  (option_list (anchor rmap item) ++ moved rmap item)%list.

(** Whatever hangs under an element made by assembly is listed among
    the children of that element. *)
Definition listed_under_new (old : gset nat) (d : tree) : Prop :=
  ∀ n q, q ∉ old -> getparent d n = Some q -> n ∈ children d q.

(** From [d] to [d'] a cell container keeps its children when none of
    them is among the blocks [bs]. *)
Definition keeps_cells (old : gset nat) (bs : list nat) (d d' : tree) : Prop :=
  ∀ x, x ∈ dom d -> x ∉ old -> tag d x = Some "td" ->
       (∀ b, b ∈ bs -> b ∉ children d x) -> children d' x = children d x.

End contents_predicates.

(** ** Specification of what assembly keeps and makes *)

Section kept_predicates.
Context {imports : Imports}.
Import Lxml.

(** What assembly leaves of the elements of the document [d0]: each is
    still there with its tag, text and tail, and each that is not a
    block still has its parent. *)
Definition undisturbed (rmap : gmap nat nat) (d0 d : tree) : Prop :=
  ∀ n e, d0 !! n = Some e ->
    ∃ e', d !! n = Some e' ∧ e_tag e' = e_tag e ∧ e_text e' = e_text e ∧
          e_tail e' = e_tail e ∧
          ((∀ k, rmap !! k ≠ Some n) -> e_parent e' = e_parent e).

(** The number of elements made in the turn of a registered table: none
    when it has no block, else the table element, a row container for
    each [w:tr] and a cell container for each [w:tc] of each row. *)
Definition containers (item : xnode * list xnode) : nat :=
  match item.2 with
  | [] => 0
  | _ :: _ =>
      S (sum_list_with (fun row => S (length (XPath (Child "w:tc") row)))
                       (XPath (Child "w:tr") item.1))
  end.

End kept_predicates.

(** ** Specification of the white space of the table *)

Section tails_predicates.
Import Lxml.

(** [n.text] and [n.tail] *)
Definition text_of (d : tree) (n : nat) : option string := d !! n ≫= e_text.
Definition tail_of (d : tree) (n : nat) : option string := d !! n ≫= e_tail.

(** From [d] to [d'] the elements of [K] keep their text and tail. *)
Definition settled (K : gset nat) (d d' : tree) : Prop :=
  ∀ n, n ∈ K -> text_of d' n = text_of d n ∧ tail_of d' n = tail_of d n.

(** The siblings [ns] have the tail [inner], but for the last of them,
    which has the tail [final]. *)
Definition tails_of (d : tree) (ns : list nat) (inner final : string) : Prop :=
  ∀ i n, ns !! i = Some n ->
         tail_of d n = Some (if decide (S i = length ns) then final else inner).

(** The row container [tr] as [add_row] leaves it: its text, and its
    cell containers without text and with their tails. *)
Definition row_spaced (d : tree) (tr : nat) : Prop :=
  text_of d tr = Some (nl ++ tab ++ tab ++ tab) ∧
  tails_of d (children d tr) (nl ++ tab ++ tab ++ tab) (nl ++ tab ++ tab) ∧
  Forall (fun td => text_of d td = None) (children d tr).

End tails_predicates.

(** ** Further concrete data *)

(** A table style whose own record is empty: a row style built from a
    node. *)
Definition row_style_from_node : obj :=
  RowStyle.__init__ (Some (w_elem 1 "trPr" [] [])).

(** The base level with the later level applied. *)
Definition style_merged : obj :=
  setattr style_base "margin_left" (VStr "auto").

(** A container with two width nodes, two column-span nodes of which the
    second is malformed, and a row container with an accepted and a
    rejected height. *)
Definition two_widths_tblPr : xnode :=
  w_elem 1 "tblPr" []
    [width_full; w_elem 2 "tblW" [("w", "100"); ("type", "dxa")] []].
Definition two_spans_tcPr : xnode :=
  w_elem 1 "tcPr" []
    [w_elem 2 "gridSpan" [("val", "3")] []; w_elem 3 "gridSpan" [("val", "x")] []].
Definition two_heights_trPr : xnode :=
  w_elem 1 "trPr" []
    [w_elem 2 "trHeight" [("val", "240"); ("hRule", "exact")] [];
     w_elem 3 "trHeight" [("val", "480"); ("hRule", "sometimes")] []].

(** The tree [apply_markup] gives for [body_tree]. *)
Definition example_result : Lxml.tree :=
  match Tables.apply_markup (state_after example_calls) example_object_map body_tree with
  | Ok d => d
  | Raise _ => ∅
  end.

(** ** Styles built from nodes

    The readers and style classes imported from [block_styles] and
    [char_styles] and the test [names.is_tag] are not part of the
    sources: they are parameters, and nothing below depends on what they
    do. A reader is given the container and the destination and gives
    the destination back; a class is given its node and gives its
    instance. *)

Class Externals := {
  read_shd : xnode -> obj -> result obj;
  read_border : xnode -> obj -> list string -> string -> result obj;
  is_tag : xnode -> string -> bool;
  paragraph_style : Type;
  ParagraphStyle : xnode -> result paragraph_style;
  run_style : Type;
  RunStyle : xnode -> result run_style;
}.

(** What a reader writes does not depend on the destination. *)
Definition independent (f : xnode -> obj -> result obj) : Prop :=
  ∀ parent dest, f parent dest = (fun out => out ∪ dest) <$> f parent ∅.

Section readers_external.
Context {imports : Imports} {externals : Externals}.

Definition read_borders (parent : xnode) (dest : obj) : result obj :=
  let name := if endswith (x_tag parent) "}tblPr" then "tblBorders" else "tcBorders" in
  read_border parent dest border_edges name.

End readers_external.

Module CellStyle.
Section with_imports.
Context {imports : Imports} {externals : Externals}.

Definition all_properties : list string :=
["background_color"; "cell_padding_left"; "cell_padding_right"; "cell_padding_top";
 "cell_padding_bottom"; "width"; "vertical_align"; "col_span"; "vMerge"; "hMerge"]
++ flat_map (fun edge => map (fun k => percent_s k edge) border_props) border_edges.

(** The readers [globals()['read_%s' % x]] for [x] in [('borders',
    'shd', 'padding', 'cell_width', 'vertical_align', 'col_span',
    'merge')]. *)
Definition readers : list (xnode -> obj -> result obj) :=
[read_borders; read_shd; read_padding; read_cell_width; read_vertical_align;
 read_col_span; read_merge].

Definition __init__ (trPr : option xnode) : result obj :=
match trPr with
| None => Ok (foldl (fun self p => setattr self p Inherit) ∅ all_properties)
| Some trPr => for_each readers (fun self f => f trPr self) ∅
end.

End with_imports.
End CellStyle.

(** The values of the dictionary [orides] of a conditional region: a
    table style under ['table'], a row style under ['row'], the raw cell
    properties under ['cell'], a paragraph style under ['block'] and a
    run style under ['char']. *)
Inductive ovalue {externals : Externals} :=
  | OTable (style : obj)
  | ORow (style : obj)
  | OCell (tcPr : xnode)
  | OBlock (style : paragraph_style)
  | OChar (style : run_style).

(** [self.overrides] is a dictionary from the region type (the value of
    [w:type]) to the dictionary [orides]; the dictionaries are objects
    of a store, and the attribute holds a reference. *)
Abbreviation overrides := (gmap (option string) (gmap string ovalue)).
Abbreviation store := (gmap nat overrides).

Module TableStyleNode.
Section with_imports.
Context {imports : Imports} {externals : Externals}.

(** The readers [globals()['read_%s' % x]] for [x] in [('width',
    'padding', 'shd', 'justification', 'spacing', 'indent', 'borders',
    'band_size', 'look')]. *)
Definition readers : list (xnode -> obj -> result obj) :=
[read_width; read_padding; read_shd; read_justification; read_spacing;
 read_indent; read_borders; read_band_size; read_look].

(** [orides[key] = v], where [orides] is [self.overrides[otype]] and
    [self.overrides] the dictionary at [r]. *)
Definition orides_setitem (r : nat) (otype : option string) (key : string)
  (v : ovalue) (h : store) : store :=
alter (alter (insert key v) otype) r h.

(** Lines 190-201: the body of the loop over the conditional regions,
    given the constructor for the nested table styles. *)
Definition read_region (nested : xnode -> store -> result (obj * store))
  (r : nat) (h : store) (tblStylePr : xnode) : result store :=
let otype := get tblStylePr "w:type" in
let h := alter (insert otype ∅) r h in
h ← for_each (XPath (Child "w:tblPr") tblStylePr) (fun h tblPr =>
       '(s, h) ← nested tblPr h;
       Ok (orides_setitem r otype "table" (OTable s) h)) h;
h ← for_each (XPath (Child "w:trPr") tblStylePr) (fun h trPr =>
       Ok (orides_setitem r otype "row" (ORow (RowStyle.__init__ (Some trPr))) h)) h;
h ← for_each (XPath (Child "w:tcPr") tblStylePr) (fun h tcPr =>
       Ok (orides_setitem r otype "cell" (OCell tcPr) h)) h;
h ← for_each (XPath (Child "w:pPr") tblStylePr) (fun h pPr =>
       s ← ParagraphStyle pPr;
       Ok (orides_setitem r otype "block" (OBlock s) h)) h;
for_each (XPath (Child "w:rPr") tblStylePr) (fun h rPr =>
       s ← RunStyle rPr;
       Ok (orides_setitem r otype "char" (OChar s) h)) h.

(** [TableStyle.__init__(self, tblPr)] for a node [tblPr], lines
    182-201; [parent] is what [tblPr.getparent()] gives (a node without
    parent is not covered). The nested
    table styles are built for nodes under the children of [parent], so
    the definition is by recursion on [parent], with the loop over the
    conditional regions written out on the children of [parent]. *)
Fixpoint __init__node (parent : xnode) (tblPr : xnode) (h : store)
  {struct parent} : result (obj * store) :=
self ← for_each readers (fun self f => f tblPr self) (setattr ∅ "overrides" Inherit);
if is_tag parent "w:style" then
  let r := fresh (dom h) in
  let self := setattr self "overrides" (VRef r) in
  let h := <[r := ∅]> h in
  h ← (fix loop (cs : list xnode) (h : store) {struct cs} : result store :=
         match cs with
         | [] => Ok h
         | c :: cs' =>
             if decide (x_tag c = expand "w:tblStylePr" ∧ is_Some (get c "w:type"))
             then h ← read_region (__init__node c) r h c; loop cs' h
             else loop cs' h
         end) (x_children parent) h;
  Ok (self, h)
else Ok (self, h).

End with_imports.
End TableStyleNode.

(** ** Specification of the overrides of a named style *)

Section overrides_predicates.
Context {imports : Imports} {externals : Externals}.

(** From [h] to [h'] the dictionaries of the store are left alone. *)
Definition store_kept (h h' : store) : Prop :=
  ∀ r, r ∈ dom h -> h' !! r = h !! r.

(** The dictionary [orides] built for the conditional region [c]: a key
    is there exactly when [c] has a child of the kind, and it holds what
    the last such child gives. *)
Definition region_entry (c : xnode) (o : gmap string ovalue) : Prop :=
  match last (XPath (Child "w:tblPr") c) with
  | None => o !! "table" = None
  | Some tblPr => ∃ s h h', TableStyleNode.__init__node c tblPr h = Ok (s, h') ∧
                            o !! "table" = Some (OTable s)
  end ∧
  o !! "row" = (fun trPr => ORow (RowStyle.__init__ (Some trPr)))
                 <$> last (XPath (Child "w:trPr") c) ∧
  o !! "cell" = OCell <$> last (XPath (Child "w:tcPr") c) ∧
  match last (XPath (Child "w:pPr") c) with
  | None => o !! "block" = None
  | Some pPr => ∃ s, ParagraphStyle pPr = Ok s ∧ o !! "block" = Some (OBlock s)
  end ∧
  match last (XPath (Child "w:rPr") c) with
  | None => o !! "char" = None
  | Some rPr => ∃ s, RunStyle rPr = Ok s ∧ o !! "char" = Some (OChar s)
  end ∧
  ∀ k, k ∉ ["table"; "row"; "cell"; "block"; "char"] -> o !! k = None.

End overrides_predicates.

(** Stand-ins for the imported readers and classes, for the examples:
    readers that set nothing, classes whose instance is the node, and
    the comparison of the tag with a qualified name. *)
#[global] Instance plain_externals : Externals := {|
  read_shd := fun _ dest => Ok dest;
  read_border := fun _ dest _ _ => Ok dest;
  is_tag := fun x q => bool_decide (x_tag x = expand q);
  paragraph_style := xnode;
  ParagraphStyle := Ok;
  run_style := xnode;
  RunStyle := Ok;
|}.

(** A cell built from [two_spans_tcPr], and a named style with a table
    property container and two conditional regions of the same type:
    the first has row and cell properties, the second cell properties
    only. *)
Definition example_cell_style : obj :=
  match CellStyle.__init__ (Some two_spans_tcPr) with
  | Ok self => self
  | Raise _ => ∅
  end.

Definition style_tblPr : xnode := w_elem 2 "tblPr" [] [].
Definition first_row_again : xnode :=
  w_elem 6 "tblStylePr" [("type", "firstRow")] [w_elem 7 "tcPr" [] []].
Definition style_node : xnode :=
  w_elem 1 "style" []
    [style_tblPr;
     w_elem 3 "tblStylePr" [("type", "firstRow")]
       [w_elem 4 "trPr" [] []; w_elem 5 "tcPr" [] []];
     first_row_again].

Definition example_table_style : obj * store :=
  match TableStyleNode.__init__node style_node style_tblPr ∅ with
  | Ok r => r
  | Raise _ => (∅, ∅)
  end.

(** * Properties *)

(** Closed decidable facts, by evaluation. *)
Ltac by_compute := apply (bool_decide_unpack _); vm_compute; exact I.

(** ** The result monad and loops *)

Lemma bind_Ok {A B} (m : result A) (f : A -> result B) (b : B) :
  m ≫= f = Ok b ↔ ∃ a, m = Ok a ∧ f a = Ok b.
Proof.
  destruct m as [a|e]; simpl; split.
  - intros Hf. by exists a.
  - by intros (a' & [= <-] & Hf).
  - discriminate.
  - by intros (a' & [=] & _).
Qed.

Lemma for_each_app {A S} (xs ys : list A) (body : S -> A -> result S) (s : S) :
  for_each (xs ++ ys)%list body s = for_each xs body s ≫= for_each ys body.
Proof.
  revert s. induction xs as [|x xs IH]; intros s; simpl; [done|].
  destruct (body s x) as [s'|e]; simpl; [apply IH | done].
Qed.

(** A loop whose body never raises and keeps an invariant ends normally
    in a state that has the invariant. *)
Lemma for_each_total {A S} (I : S -> Prop) (xs : list A)
    (body : S -> A -> result S) (s : S) :
  I s ->
  (∀ s x, I s -> x ∈ xs -> ∃ s', body s x = Ok s' ∧ I s') ->
  ∃ s', for_each xs body s = Ok s' ∧ I s'.
Proof.
  revert s. induction xs as [|x xs IH]; intros s Hs Hbody; simpl.
  - by exists s.
  - destruct (Hbody s x Hs) as (s1 & -> & Hs1); [set_solver|]. simpl.
    apply IH; [done|]. intros s2 y Hs2 Hy. apply Hbody; [done | set_solver].
Qed.

(** ** The cascade: [update] and [resolve_based_on] *)

(** The loop [for p in props: setattr(self, p, inherit)] of the
    constructors. *)
Lemma init_loop_lookup (props : list string) (self : obj) (p : string) :
  foldl (fun self p => setattr self p Inherit) self props !! p
  = if bool_decide (p ∈ props) then Some Inherit else self !! p.
Proof.
  revert self. induction props as [|q props IH]; intros self; simpl; [done|].
  rewrite IH. unfold setattr. rewrite lookup_insert.
  destruct (decide (q = p)) as [->|Hne].
  - rewrite (bool_decide_true (p ∈ p :: props)) by set_solver.
    by case_bool_decide.
  - apply (f_equal (fun b : bool => if b then Some Inherit else self !! p)).
    apply bool_decide_ext. rewrite elem_of_cons. naive_solver.
Qed.

Section cascade.
Context {imports : Imports}.
Import TableStyle.

(** [TableStyle()] has every property, each inherited. *)
Lemma TableStyle_init_none (p : string) :
  p ∈ all_properties -> __init__none !! p = Some Inherit.
Proof.
  intros Hp. unfold __init__none. by rewrite init_loop_lookup, bool_decide_true.
Qed.

Lemma update_loop (props : list string) (self other : obj) :
  (∀ p, p ∈ props -> is_Some (other !! p)) ->
  ∃ self', for_each props (update_body other) self = Ok self' ∧
    ∀ p, self' !! p =
         match other !! p with
         | Some v => if bool_decide (p ∈ props) && negb (is_inherit v)
                     then Some v else self !! p
         | None => self !! p
         end.
Proof.
  revert self. induction props as [|q props IH]; intros self Hother; simpl.
  - exists self. split; [done|]. intros p. by destruct (other !! p).
  - destruct (Hother q) as [v Hv]; [set_solver|].
    assert (update_body other self q
            = Ok (if negb (is_inherit v) then setattr self q v else self)) as ->.
    { unfold update_body, getattr. rewrite Hv. simpl. by destruct (is_inherit v). }
    simpl.
    destruct (IH (if negb (is_inherit v) then setattr self q v else self))
      as (self' & Hrun & Hlook); [set_solver|].
    exists self'. split; [done|].
    intros p. rewrite Hlook. destruct (other !! p) as [u|] eqn:Hu.
    + destruct (decide (p = q)) as [->|Hne].
      * assert (u = v) as -> by congruence.
        rewrite (bool_decide_true (q ∈ q :: props)) by set_solver.
        destruct (is_inherit v) eqn:Hi; simpl.
        -- by rewrite andb_false_r.
        -- rewrite andb_true_r. case_bool_decide; [done|].
           unfold setattr. by rewrite lookup_insert_eq.
      * assert (bool_decide (p ∈ q :: props) = bool_decide (p ∈ props)) as ->.
        { apply bool_decide_ext. rewrite elem_of_cons. naive_solver. }
        destruct (bool_decide (p ∈ props) && negb (is_inherit u)); [done|].
        destruct (is_inherit v); simpl; [done|].
        unfold setattr. by rewrite lookup_insert_ne.
    + destruct (decide (p = q)) as [->|Hne]; [congruence|].
      destruct (is_inherit v); simpl; [done|].
      unfold setattr. by rewrite lookup_insert_ne.
Qed.

(** C1. After [self.update(other)], for every property [p] of
    [all_properties]: [self.p] is [other.p] when [other.p] is not the
    inherited sentinel, and [self.p] is what it was when [other.p] is
    the sentinel; an inherited value of a later cascade level never
    overwrites an earlier value. Attributes outside [all_properties]
    are untouched. ([other] is a [TableStyle]: it has every property.) *)
Theorem update_overrides_unless_inherited (self other : obj) :
  (∀ p, p ∈ all_properties -> is_Some (other !! p)) ->
  ∃ self', update self other = Ok self' ∧
    (∀ p v, p ∈ all_properties -> other !! p = Some v -> v ≠ Inherit ->
            self' !! p = Some v) ∧
    (∀ p, p ∈ all_properties -> other !! p = Some Inherit ->
          self' !! p = self !! p) ∧
    (∀ p, p ∉ all_properties -> self' !! p = self !! p).
Proof.
  intros Hother.
  destruct (update_loop all_properties self other Hother) as (self' & Hrun & Hlook).
  exists self'. split; [exact Hrun|]. split; [|split].
  - intros p v Hp Hv Hne. rewrite Hlook, Hv, bool_decide_true by done.
    by destruct v.
  - intros p Hp Hv. rewrite Hlook, Hv. by rewrite andb_false_r.
  - intros p Hp. rewrite Hlook. rewrite bool_decide_false by done.
    by destruct (other !! p).
Qed.

Lemma resolve_loop (props : list string) (self parent : obj) :
  (∀ p, p ∈ props -> is_Some (self !! p)) ->
  (∀ p, p ∈ props -> self !! p = Some Inherit -> is_Some (parent !! p)) ->
  ∃ self', for_each props (resolve_body parent) self = Ok self' ∧
    ∀ p, self' !! p =
         if bool_decide (p ∈ props ∧ self !! p = Some Inherit)
         then parent !! p else self !! p.
Proof.
  revert self. induction props as [|q props IH]; intros self Hself Hpar; simpl.
  - by exists self.
  - destruct (Hself q) as [v Hv]; [set_solver|].
    destruct (is_inherit v) eqn:Hi.
    + destruct v; try discriminate.
      destruct (Hpar q) as [pv Hpv]; [set_solver | done |].
      assert (resolve_body parent self q = Ok (setattr self q pv)) as ->.
      { unfold resolve_body, getattr. by rewrite Hv, Hpv. }
      simpl.
      destruct (IH (setattr self q pv)) as (self' & Hrun & Hlook).
      { intros p Hp. unfold setattr. rewrite lookup_insert.
        case_decide; [by eexists | apply Hself; set_solver]. }
      { intros p Hp. unfold setattr. rewrite lookup_insert.
        case_decide as Hpq; [subst; by eexists|].
        intros Hs. apply Hpar; [set_solver | done]. }
      exists self'. split; [done|]. intros p. rewrite Hlook.
      unfold setattr. rewrite lookup_insert.
      destruct (decide (q = p)) as [<-|Hne].
      * rewrite (bool_decide_true (q ∈ q :: props ∧ _)) by (split; [set_solver | done]).
        case_bool_decide as Hc; [|done]. destruct Hc as [_ Hc]. congruence.
      * apply (f_equal (fun b : bool => if b then parent !! p else self !! p)).
        apply bool_decide_ext. set_solver.
    + assert (resolve_body parent self q = Ok self) as ->.
      { unfold resolve_body, getattr. rewrite Hv. simpl. by rewrite Hi. }
      simpl.
      destruct (IH self) as (self' & Hrun & Hlook).
      { intros p Hp. apply Hself. set_solver. }
      { intros p Hp. apply Hpar. set_solver. }
      exists self'. split; [done|]. intros p. rewrite Hlook.
      apply (f_equal (fun b : bool => if b then parent !! p else self !! p)).
      apply bool_decide_ext. split.
      * intros [? ?]. split; [set_solver | done].
      * intros [Hp Hs]. split; [|done].
        apply elem_of_cons in Hp as [->|Hp]; [|done].
        rewrite Hv in Hs. injection Hs as ->. discriminate.
Qed.

(** C2. With a fully resolved [parent] (none of its properties is the
    inherited sentinel), [self.resolve_based_on(parent)] returns, leaves
    no property of [self] inherited (each inherited one received the
    parent's value, the others kept theirs), and a second call changes
    nothing. *)
Theorem resolve_based_on_idempotent (self parent : obj) :
  (∀ p, p ∈ all_properties -> is_Some (self !! p)) ->
  (∀ p, p ∈ all_properties -> ∃ v, parent !! p = Some v ∧ v ≠ Inherit) ->
  ∃ self', resolve_based_on self parent = Ok self' ∧
    resolve_based_on self' parent = Ok self' ∧
    (∀ p, p ∈ all_properties -> ∃ v, self' !! p = Some v ∧ v ≠ Inherit) ∧
    (∀ p, p ∈ all_properties ->
          self' !! p = if bool_decide (self !! p = Some Inherit)
                       then parent !! p else self !! p).
Proof.
  intros Hself Hparent.
  assert (Hpar : ∀ s : obj, ∀ p, p ∈ all_properties -> s !! p = Some Inherit ->
                             is_Some (parent !! p)).
  { intros s p Hp _. destruct (Hparent p Hp) as (v & -> & _). by eexists. }
  destruct (resolve_loop all_properties self parent Hself (Hpar self))
    as (self' & Hrun & Hlook).
  assert (Hres : ∀ p, p ∈ all_properties -> ∃ v, self' !! p = Some v ∧ v ≠ Inherit).
  { intros p Hp. rewrite Hlook. case_bool_decide as Hc.
    - by apply Hparent.
    - destruct (Hself p Hp) as [v Hv]. exists v. split; [done|].
      intros ->. apply Hc. by split. }
  exists self'. split; [exact Hrun|]. split; [|split; [exact Hres|]].
  - destruct (resolve_loop all_properties self' parent) as (self'' & Hrun2 & Hlook2).
    { intros p Hp. destruct (Hres p Hp) as (v & -> & _). by eexists. }
    { apply Hpar. }
    unfold resolve_based_on. rewrite Hrun2.
    f_equal. apply map_eq. intros p. rewrite Hlook2.
    case_bool_decide as Hc; [|done]. destruct Hc as [Hp Hc].
    destruct (Hres p Hp) as (v & Hv & Hne). congruence.
  - intros p Hp. rewrite Hlook.
    apply (f_equal (fun b : bool => if b then parent !! p else self !! p)).
    apply bool_decide_ext. tauto.
Qed.

End cascade.

(** A later level that sets only the left margin keeps the width of the
    base level. *)
Lemma update_overrides_unless_inherited_witness :
  ∃ self', TableStyle.update style_base style_later = Ok self' ∧
    self' !! "margin_left" = Some (VStr "auto") ∧
    self' !! "width" = Some (VStr "50%").
Proof.
  destruct (update_overrides_unless_inherited style_base style_later)
    as (self' & Hrun & Hset & Hkeep & _).
  { apply Forall_forall. by_compute. }
  exists self'. split; [exact Hrun|]. split.
  - apply Hset; [| reflexivity | discriminate].
    by_compute.
  - rewrite Hkeep; [reflexivity | | reflexivity].
    by_compute.
Defined.

(** Resolving the base level against a resolved parent keeps its width
    and takes the parent's indent. *)
Lemma resolve_based_on_idempotent_witness :
  ∃ self', TableStyle.resolve_based_on style_base style_resolved = Ok self' ∧
    TableStyle.resolve_based_on self' style_resolved = Ok self' ∧
    self' !! "width" = Some (VStr "50%") ∧
    self' !! "indent" = Some (VStr "0").
Proof.
  destruct (resolve_based_on_idempotent style_base style_resolved)
    as (self' & Hrun & Hagain & _ & Hval).
  { apply Forall_forall. by_compute. }
  { apply Forall_forall.
    assert (Hall : Forall (fun p => style_resolved !! p = Some (VStr "0"))
                          TableStyle.all_properties).
    { by_compute. }
    eapply Forall_impl; [exact Hall|]. intros p Hp. by exists (VStr "0"). }
  exists self'. split; [exact Hrun|]. split; [exact Hagain|]. split.
  - rewrite Hval; [reflexivity|]. by_compute.
  - rewrite Hval; [reflexivity|]. by_compute.
Defined.

(** ** Row styles *)

(** C9 as stated fails: a [RowStyle] built from a node has none of the
    declared properties, so reading one raises instead of giving the
    inherited sentinel. *)
Lemma RowStyle_with_node_not_inherited :
  ¬ (∀ p, p ∈ RowStyle.all_properties ->
          getattr (RowStyle.__init__ (Some (w_elem 1 "trPr" [] []))) p = Ok Inherit).
Proof.
  intros Hall. specialize (Hall "height").
  assert (Hin : "height" ∈ RowStyle.all_properties)
    by by_compute.
  specialize (Hall Hin). vm_compute in Hall. discriminate.
Qed.

(** C9, amended. [RowStyle()] sets each of [height], [cantSplit],
    [hidden] and [spacing] to the inherited sentinel and nothing else;
    [RowStyle(node)] sets no attribute at all: the record is empty and
    reading any of the four properties raises [AttributeError]. *)
Theorem RowStyle_init :
  (∀ p, p ∈ RowStyle.all_properties ->
        getattr (RowStyle.__init__ None) p = Ok Inherit) ∧
  (∀ p, p ∉ RowStyle.all_properties -> RowStyle.__init__ None !! p = None) ∧
  (∀ node, RowStyle.__init__ (Some node) = ∅) ∧
  (∀ node p, getattr (RowStyle.__init__ (Some node)) p = Raise AttributeError).
Proof.
  split; [|split; [|split]].
  - intros p Hp. unfold RowStyle.all_properties in Hp.
    repeat (apply elem_of_cons in Hp as [->|Hp]; [reflexivity|]).
    by apply elem_of_nil in Hp.
  - intros p Hp. unfold RowStyle.__init__, RowStyle.all_properties, setattr in *.
    simpl. rewrite !lookup_insert_ne, lookup_empty; [done|..];
      intros <-; apply Hp; set_solver.
  - done.
  - intros node p. unfold getattr. simpl. by rewrite lookup_empty.
Qed.

(** The two ways of building a row style. *)
Lemma RowStyle_init_witness :
  getattr (RowStyle.__init__ None) "hidden" = Ok Inherit ∧
  RowStyle.__init__ None !! "width" = None ∧
  getattr (RowStyle.__init__ (Some (w_elem 1 "trPr" [] []))) "hidden"
    = Raise AttributeError.
Proof.
  destruct RowStyle_init as (Hnone & Hother & _ & Hnode).
  split; [|split].
  - apply Hnone. by_compute.
  - apply Hother. by_compute.
  - apply Hnode.
Defined.

(** ** Builtins *)

(** True division followed by ['%.3g']: trailing zeros are dropped, a
    value of 1000 or more goes to exponent notation, and ties are decided
    on the binary value (201/20 is slightly above 10.05, 247/20 slightly
    below 12.35, 19990/20 is exactly 999.5). *)
Lemma true_div_format_examples :
  (fun v => format_g 3 <$> true_div v 20) <$> [0; 1; 100; 201; 247; 19990; 20000; -30]
  = [Ok "0"; Ok "0.05"; Ok "5"; Ok "10.1"; Ok "12.3"; Ok "1e+03"; Ok "1e+03"; Ok "-1.5"].
Proof. vm_compute. reflexivity. Qed.

(** [int] on ASCII text and on the decimal digits of other scripts. *)
Lemma int_examples :
  int <$> [Some "12"; Some " +12 "; Some "-7"; Some "١٢٣"; Some "-٣"; Some "１２";
           Some "12é"; Some "１二"; Some "two"; Some "2.5"; Some ""; None]
  = [Ok 12; Ok 12; Ok (-7); Ok 123; Ok (-3); Ok 12;
     Raise ValueError; Raise ValueError; Raise ValueError; Raise ValueError;
     Raise ValueError; Raise TypeError] ∧
  int16 <$> [Some "ff"; Some "0x1F"; Some "٣f"; Some "0xZZ"; None]
  = [Ok 255; Ok 31; Ok 63; Raise ValueError; Raise TypeError].
Proof. vm_compute. split; reflexivity. Qed.

Lemma PyInt_FromString_raises (base : Z) (s : string) (e : exn) :
  PyInt_FromString base s = Raise e -> e = ValueError.
Proof.
  unfold PyInt_FromString.
  destruct (match strip s with
            | String "-" rest => (true, rest)
            | String "+" rest => (false, rest)
            | _ => (false, strip s)
            end) as [neg body].
  destruct (strip_0x base body) as [|c rest]; [congruence|].
  destruct (digits_value base 0 (String c rest)); congruence.
Qed.

Lemma int_of_string_raises (base : Z) (s : string) (e : exn) :
  int_of_string base s = Raise e -> e = ValueError.
Proof.
  unfold int_of_string. destruct (is_ascii s); [apply PyInt_FromString_raises|].
  destruct (PyUnicode_EncodeDecimal s); [apply PyInt_FromString_raises | congruence].
Qed.

Lemma int_raises (x : option string) (e : exn) :
  int x = Raise e -> e ∈ [TypeError; ValueError].
Proof.
  destruct x as [s|]; simpl.
  - intros ->%int_of_string_raises. set_solver.
  - intros [= <-]. set_solver.
Qed.





(** ** Readers *)

Section readers_facts.
Context {imports : Imports}.


(** *** Width *)

Lemma _read_width_typ (elem : xnode) (w : Z) :
  try_except (int (get elem "w:w")) [TypeError; ValueError] (Ok 0) = Ok w ->
  _read_width elem =
    let typ := get_default elem "w:type" "auto" in
    if String.eqb typ "nil" then Ok (VStr "0")
    else if String.eqb typ "auto" then Ok (VStr "auto")
    else if String.eqb typ "dxa" then
      q ← true_div w 20; Ok (VStr (format_g 3 q ++ "pt"))
    else if String.eqb typ "pct" then
      q ← true_div w 50; Ok (VStr (format_g 3 q ++ "%"))
    else Ok Inherit.
Proof. unfold _read_width. by intros ->. Qed.

Lemma magnitude_total (elem : xnode) :
  try_except (int (get elem "w:w")) [TypeError; ValueError] (Ok 0)
  = Ok (match int (get elem "w:w") with Ok v => v | Raise _ => 0 end).
Proof.
  destruct (int (get elem "w:w")) as [v|e] eqn:He; simpl; [done|].
  by rewrite bool_decide_true by by eapply int_raises.
Qed.

(** C5, amended. For a width node whose magnitude is the number [v]:
    with unit-type [dxa] the resolver returns ['%.3g' % (v/20)] followed
    by [pt], and with [pct] it returns ['%.3g' % (v/50)] followed by
    [%], whenever the quotient is within the range of a float. *)
Theorem read_width_dxa_pct (elem : xnode) (v : Z) (q : spec_float) :
  int (get elem "w:w") = Ok v ->
  (get elem "w:type" = Some "dxa" -> true_div v 20 = Ok q ->
     _read_width elem = Ok (VStr (format_g 3 q ++ "pt"))) ∧
  (get elem "w:type" = Some "pct" -> true_div v 50 = Ok q ->
     _read_width elem = Ok (VStr (format_g 3 q ++ "%"))).
Proof.
  intros Hv.
  assert (Hw : try_except (int (get elem "w:w")) [TypeError; ValueError] (Ok 0) = Ok v)
    by by rewrite Hv.
  split; intros Htyp Hq; rewrite (_read_width_typ _ _ Hw);
    unfold get_default; rewrite Htyp; simpl; by rewrite Hq.
Qed.


(** *** Padding *)

Lemma for_each_inv {A S} (I : S -> Prop) (xs : list A)
    (body : S -> A -> result S) (s s' : S) :
  I s -> (∀ s x s', I s -> body s x = Ok s' -> I s') ->
  for_each xs body s = Ok s' -> I s'.
Proof.
  intros Hs Hbody. revert s Hs.
  induction xs as [|x xs IH]; intros s Hs; simpl.
  - by intros [= <-].
  - intros (s1 & H1 & Hrest)%bind_Ok. eauto.
Qed.

(** Storing through [locals()] leaves the variables as they are... *)
Lemma locals_setitem_fast (fr : frame) (x : string) (v : value) :
  f_fast (locals_setitem fr x v) = f_fast fr.
Proof. done. Qed.

(** ...and the next [locals()] shows the variables again. *)
Lemma locals_getitem_fast (fr : frame) (x : string) :
  f_fast fr = fast0 -> x ∈ edges ->
  locals_getitem fr x = (Ok Inherit, locals fr).
Proof.
  intros Hfast Hx. unfold locals_getitem. f_equal. simpl.
  rewrite (lookup_union_Some_l _ _ _ Inherit); [done|].
  rewrite Hfast. unfold edges in Hx.
  repeat (apply elem_of_cons in Hx as [->|Hx]; [done|]).
  by apply elem_of_nil in Hx.
Qed.

(** Whatever the padding container holds, [read_padding] sets the four
    cell paddings to the inherited sentinel. *)
Lemma set_padding_loop (xs : list string) (fr : frame) (dest : obj) :
  f_fast fr = fast0 -> xs ⊆ edges ->
  ∃ fr', for_each xs set_padding (fr, dest)
         = Ok (fr', foldl (fun d x => setattr d (percent_s "cell_padding_%s" x) Inherit)
                          dest xs).
Proof.
  revert fr dest. induction xs as [|x xs IH]; intros fr dest Hfast Hxs.
  - by exists fr.
  - assert (set_padding (fr, dest) x
            = Ok (locals fr, setattr dest (percent_s "cell_padding_%s" x) Inherit)) as Hstep.
    { unfold set_padding. rewrite locals_getitem_fast; [done..|]. set_solver. }
    change (for_each (x :: xs) set_padding (fr, dest))
      with (set_padding (fr, dest) x ≫= for_each xs set_padding).
    rewrite Hstep. apply IH; [done | set_solver].
Qed.

Lemma read_padding_all_inherited (parent : xnode) (dest dest' : obj) :
  read_padding parent dest = Ok dest' ->
  dest' = setattr (setattr (setattr (setattr dest
            "cell_padding_left" Inherit) "cell_padding_top" Inherit)
            "cell_padding_right" Inherit) "cell_padding_bottom" Inherit.
Proof.
  unfold read_padding. intros (fr & Hloop & Hset)%bind_Ok.
  assert (Hfast : f_fast fr = fast0).
  { revert Hloop. apply (for_each_inv (fun fr => f_fast fr = fast0)); [done|].
    intros fr1 mar fr2 H1. apply (for_each_inv (fun fr => f_fast fr = fast0)); [done|].
    intros fr3 x fr4 H3. apply (for_each_inv (fun fr => f_fast fr = fast0)); [done|].
    intros fr5 edge fr6 H5 (v & _ & [= <-])%bind_Ok. done. }
  destruct (set_padding_loop edges fr dest Hfast) as [fr' Hrun]; [done|].
  rewrite Hrun in Hset. by injection Hset as <-.
Qed.

(** *** Justification *)

Lemma read_justification_fold (parent : xnode) (dest : obj) :
  read_justification parent dest =
    let acc := foldl jc_step (Inherit, Inherit)
                     (XPath (ChildWithAttr "w:jc" "w:val") parent) in
    Ok (setattr (setattr dest "margin_left" acc.1) "margin_right" acc.2).
Proof.
  unfold read_justification. by destruct (foldl jc_step _ _).
Qed.

Lemma jc_fold_same (val : string) (jcs : list xnode) (acc : value * value) :
  Forall (fun jc => get jc "w:val" = Some val) jcs ->
  foldl jc_step acc jcs =
    match jcs with [] => acc | jc :: _ => jc_step acc jc end.
Proof.
  revert acc. induction jcs as [|jc jcs IH]; intros acc Hall; simpl; [done|].
  apply Forall_cons in Hall as [Hjc Hall]. rewrite IH by done.
  destruct jcs as [|jc' jcs]; [done|].
  apply Forall_cons in Hall as [Hjc' _].
  destruct acc as [l r]. unfold jc_step. rewrite Hjc, Hjc'.
  destruct val as [|c val]; [done|].
  by repeat (destruct (String.eqb _ _)).
Qed.

(** C7. [read_justification] never raises and touches only the two
    margins. Without a justification node both margins are the inherited
    sentinel; when the justification is [left], the right margin is
    ["auto"] and the left one inherited; when it is [right], the left
    margin is ["auto"] and the right one inherited; when it is [center]
    both are ["auto"]. *)
Theorem read_justification_margins (parent : xnode) (dest : obj) :
  let jcs := XPath (ChildWithAttr "w:jc" "w:val") parent in
  ∃ dest', read_justification parent dest = Ok dest' ∧
    (∀ p, p ≠ "margin_left" -> p ≠ "margin_right" -> dest' !! p = dest !! p) ∧
    (jcs = [] ->
       dest' !! "margin_left" = Some Inherit ∧
       dest' !! "margin_right" = Some Inherit) ∧
    (jcs ≠ [] -> Forall (fun jc => get jc "w:val" = Some "left") jcs ->
       dest' !! "margin_left" = Some Inherit ∧
       dest' !! "margin_right" = Some (VStr "auto")) ∧
    (jcs ≠ [] -> Forall (fun jc => get jc "w:val" = Some "right") jcs ->
       dest' !! "margin_left" = Some (VStr "auto") ∧
       dest' !! "margin_right" = Some Inherit) ∧
    (jcs ≠ [] -> Forall (fun jc => get jc "w:val" = Some "center") jcs ->
       dest' !! "margin_left" = Some (VStr "auto") ∧
       dest' !! "margin_right" = Some (VStr "auto")).
Proof.
  intros jcs. rewrite read_justification_fold. fold jcs. simpl.
  eexists. split; [reflexivity|]. unfold setattr.
  split; [|split; [|split; [|split]]].
  - intros p Hl Hr. by rewrite !lookup_insert_ne.
  - intros ->. simpl. by rewrite lookup_insert_ne, !lookup_insert_eq.
  - intros Hne Hall. rewrite (jc_fold_same _ _ _ Hall).
    destruct jcs as [|jc ?]; [done|]. apply Forall_cons in Hall as [Hjc _].
    unfold jc_step. rewrite Hjc. simpl.
    by rewrite lookup_insert_ne, !lookup_insert_eq.
  - intros Hne Hall. rewrite (jc_fold_same _ _ _ Hall).
    destruct jcs as [|jc ?]; [done|]. apply Forall_cons in Hall as [Hjc _].
    unfold jc_step. rewrite Hjc. simpl.
    by rewrite lookup_insert_ne, !lookup_insert_eq.
  - intros Hne Hall. rewrite (jc_fold_same _ _ _ Hall).
    destruct jcs as [|jc ?]; [done|]. apply Forall_cons in Hall as [Hjc _].
    unfold jc_step. rewrite Hjc. simpl.
    by rewrite lookup_insert_ne, !lookup_insert_eq.
Qed.

(** *** Numeric and hexadecimal attributes *)


End readers_facts.

(** *** The readers on concrete nodes *)

(** 5000 fiftieths of a percent are 100%. *)
Lemma read_width_dxa_pct_witness :
  _read_width width_full = Ok (VStr "100%").
Proof.
  destruct (read_width_dxa_pct width_full 5000 float_100) as [_ Hpct];
    [vm_compute; reflexivity|].
  rewrite Hpct; vm_compute; reflexivity.
Defined.

(** C5 as stated fails: a magnitude of 10^400 with unit-type [dxa] is a
    number, but dividing it by 20 overflows the float range and the
    resolver raises instead of returning a string. *)
Lemma read_width_overflows :
  int (get width_huge "w:w") = Ok (10 ^ 400) ∧
  get width_huge "w:type" = Some "dxa" ∧
  _read_width width_huge = Raise OverflowError.
Proof. vm_compute. repeat split; reflexivity. Qed.

(** A magnitude in Arabic-Indic digits is a number: 123 twentieths of
    a point. *)
Lemma read_width_unicode_digits :
  _read_width (w_elem 1 "tblW" [("w", "١٢٣"); ("type", "dxa")] []) = Ok (VStr "6.15pt").
Proof. vm_compute. reflexivity. Qed.



(** C4 fails on the code: the left edge of [padded_tblPr] resolves to
    ["5pt"], yet [read_padding] leaves [cell_padding_left] (like the three
    other paddings) at the inherited sentinel. *)
Theorem read_padding_drops_present_edge :
  XPath (Child "w:tblCellMar") padded_tblPr ≫= XPath (Child "w:left")
    = [margin_left_edge] ∧
  _read_width margin_left_edge = Ok (VStr "5pt") ∧
  (read_padding padded_tblPr ∅ ≫= fun dest => getattr dest "cell_padding_left")
    = Ok Inherit.
Proof. vm_compute. repeat split; reflexivity. Qed.

(** A centred table has both margins automatic. *)
Lemma read_justification_margins_witness :
  ∃ dest', read_justification centered_tblPr ∅ = Ok dest' ∧
    dest' !! "margin_left" = Some (VStr "auto") ∧
    dest' !! "margin_right" = Some (VStr "auto").
Proof.
  destruct (read_justification_margins centered_tblPr ∅)
    as (dest' & Hrun & _ & _ & _ & _ & Hcenter).
  exists dest'. split; [exact Hrun|]. apply Hcenter.
  - vm_compute. discriminate.
  - by_compute.
Defined.


(** ** Registration *)

Section registration.
Import Tables.

Lemma od_lookup_setitem_eq (k : xnode) (r : nat) (od : list (xnode * nat)) :
  od_lookup (x_id k) (od_setitem k r od) = Some r.
Proof.
  induction od as [|[k' r'] od IH]; simpl.
  - by rewrite decide_True.
  - destruct (decide (x_id k' = x_id k)) as [Heq|Hne]; simpl.
    + by rewrite decide_True.
    + by rewrite decide_False.
Qed.

Lemma od_lookup_setitem_ne (id : nat) (k : xnode) (r : nat) (od : list (xnode * nat)) :
  id ≠ x_id k -> od_lookup id (od_setitem k r od) = od_lookup id od.
Proof.
  intros Hne. induction od as [|[k' r'] od IH]; simpl.
  - by rewrite decide_False.
  - destruct (decide (x_id k' = x_id k)) as [Heq|Hne']; simpl.
    + rewrite !decide_False by congruence. done.
    + destruct (decide (x_id k' = id)); [done | apply IH].
Qed.

(** Re-registering keeps the keys and their order; a new key goes last. *)
Lemma od_setitem_keys (k : xnode) (r : nat) (od : list (xnode * nat)) :
  map fst (od_setitem k r od) =
    if bool_decide (x_id k ∈ map (fun kr => x_id kr.1) od)
    then map fst od else (map fst od ++ [k])%list.
Proof.
  induction od as [|[k' r'] od IH]; simpl; [done|].
  destruct (decide (x_id k' = x_id k)) as [Heq|Hne]; simpl.
  - rewrite bool_decide_true; [done|]. rewrite Heq. set_solver.
  - rewrite IH.
    assert (bool_decide (x_id k ∈ x_id k' :: map (fun kr => x_id kr.1) od)
            = bool_decide (x_id k ∈ map (fun kr => x_id kr.1) od)) as ->.
    { apply bool_decide_ext. rewrite elem_of_cons. naive_solver. }
    by destruct (bool_decide _).
Qed.

Lemma od_lookup_Some (id : nat) (od : list (xnode * nat)) :
  id ∈ map (fun kr => x_id kr.1) od -> is_Some (od_lookup id od).
Proof.
  induction od as [|[k r] od IH]; simpl.
  - by intros ?%elem_of_nil.
  - intros [->|Hin]%elem_of_cons.
    + rewrite decide_True by done. by eexists.
    + destruct (decide (x_id k = id)); [by eexists | by apply IH].
Qed.

Lemma od_lookup_ref (id r : nat) (od : list (xnode * nat)) :
  od_lookup id od = Some r -> r ∈ map snd od.
Proof.
  induction od as [|[k r'] od IH]; simpl; [done|].
  destruct (decide (x_id k = id)).
  - intros [= ->]. set_solver.
  - intros ?%IH. set_solver.
Qed.

Lemma od_setitem_refs (k : xnode) (r r' : nat) (od : list (xnode * nat)) :
  r' ∈ map snd (od_setitem k r od) -> r' = r ∨ r' ∈ map snd od.
Proof.
  induction od as [|[k0 r0] od IH]; simpl.
  - set_solver.
  - destruct (decide (x_id k0 = x_id k)); simpl; set_solver.
Qed.

Lemma od_setitem_refs_NoDup (k : xnode) (r : nat) (od : list (xnode * nat)) :
  r ∉ map snd od -> NoDup (map snd od) -> NoDup (map snd (od_setitem k r od)).
Proof.
  induction od as [|[k0 r0] od IH]; simpl; intros Hr Hnd.
  - apply NoDup_singleton.
  - apply NoDup_cons in Hnd as [Hr0 Hnd].
    destruct (decide (x_id k0 = x_id k)); simpl.
    + apply NoDup_cons. split; [set_solver | done].
    + apply NoDup_cons. split.
      * intros [->|Hin]%od_setitem_refs; set_solver.
      * apply IH; [set_solver | done].
Qed.

(** Two keys that hold the same list are the same key. *)
Lemma od_lookup_inj (id1 id2 r : nat) (od : list (xnode * nat)) :
  NoDup (map snd od) ->
  od_lookup id1 od = Some r -> od_lookup id2 od = Some r -> id1 = id2.
Proof.
  induction od as [|[k r0] od IH]; simpl; [done|].
  intros [Hr0 Hnd]%NoDup_cons.
  destruct (decide (x_id k = id1)), (decide (x_id k = id2)); try congruence.
  - intros [= ->] ?%od_lookup_ref. done.
  - intros ?%od_lookup_ref [= ->]. done.
  - by apply IH.
Qed.

Lemma last_registered_snoc (cs : list call) (c : call) :
  last_registered (cs ++ [c]) =
    match c with Register tbl => Some tbl | Add _ => last_registered cs end.
Proof. unfold last_registered. by rewrite foldl_app. Qed.

Lemma run_snoc (cs : list call) (c : call) :
  run (cs ++ [c]) = run cs ≫= fun self => step self c.
Proof.
  unfold run. rewrite for_each_app. destruct (for_each cs step __init__); simpl; [|done].
  by destruct (step a c).
Qed.

Lemma register_inv (cs : list call) (self : t) (tbl : xnode) :
  reachable_inv cs self -> reachable_inv (cs ++ [Register tbl]) (register self tbl).
Proof.
  intros [Hrefs Hheap Hcur Hreg].
  assert (Hfresh : fresh (dom (heap self)) ∉ map snd (tables self)).
  { intros Hin%Hheap%elem_of_dom. by apply is_fresh in Hin. }
  split; simpl.
  - by apply od_setitem_refs_NoDup.
  - intros r [->|Hin]%od_setitem_refs.
    + rewrite lookup_insert_eq. by eexists.
    + rewrite lookup_insert_ne; [by apply Hheap|].
      intros <-. done.
  - rewrite last_registered_snoc. simpl. by rewrite od_lookup_setitem_eq.
  - intros tbl'. rewrite last_registered_snoc. intros [= <-].
    rewrite od_lookup_setitem_eq. by eexists.
Qed.

Lemma add_inv (cs : list call) (self self' : t) (p : xnode) :
  reachable_inv cs self -> add self p = Ok self' ->
  reachable_inv (cs ++ [Add p]) self'.
Proof.
  intros [Hrefs Hheap Hcur Hreg]. unfold add.
  destruct (current_table self) as [r|] eqn:Hr; [|done].
  intros [= <-]. split; simpl.
  - done.
  - intros r' Hin. destruct (Hheap r' Hin) as [l Hl].
    destruct (decide (r = r')) as [->|Hne].
    + rewrite lookup_alter_eq, Hl. by eexists.
    + rewrite lookup_alter_ne by done. by eexists.
  - by rewrite last_registered_snoc.
  - intros tbl. rewrite last_registered_snoc. apply Hreg.
Qed.

Lemma run_reachable (cs : list call) (self : t) :
  run cs = Ok self -> reachable_inv cs self.
Proof.
  revert self. induction cs as [|c cs IH] using rev_ind; intros self.
  - intros [= <-]. split; simpl; [apply NoDup_nil_2 | set_solver | done | done].
  - rewrite run_snoc. intros (self0 & Hrun & Hstep)%bind_Ok.
    specialize (IH _ Hrun). destruct c as [tbl|p]; simpl in Hstep.
    + injection Hstep as <-. by apply register_inv.
    + by eapply add_inv.
Qed.

(** C10. In every state reached by a sequence of [register] and [add]
    calls: [add(p)] appends [p] to the list of the table registered
    last and leaves the other lists and the order of the tables as they
    are (before any [register], [add] raises); registering a table that
    is already registered leaves it with an empty list, keeps every
    table at its place in the iteration of [apply_markup] and keeps the
    lists of the other tables; a new table goes to the end with an empty
    list. *)
Theorem register_add_spec (cs : list call) (self : t) :
  run cs = Ok self ->
  (∀ tbl p, last_registered cs = Some tbl ->
     ∃ self' bs, add self p = Ok self' ∧
       blocks_of self tbl = Some bs ∧
       blocks_of self' tbl = Some (bs ++ [p])%list ∧
       (∀ tbl', x_id tbl' ≠ x_id tbl -> blocks_of self' tbl' = blocks_of self tbl') ∧
       map fst (iteritems self') = map fst (iteritems self)) ∧
  (∀ p, last_registered cs = None -> add self p = Raise AttributeError) ∧
  (∀ tbl, blocks_of (register self tbl) tbl = Some [] ∧
     (∀ tbl', x_id tbl' ≠ x_id tbl ->
        blocks_of (register self tbl) tbl' = blocks_of self tbl') ∧
     map fst (iteritems (register self tbl)) =
       if bool_decide (x_id tbl ∈ keys self)
       then map fst (iteritems self)
       else (map fst (iteritems self) ++ [tbl])%list).
Proof.
  intros [Hrefs Hheap Hcur Hreg]%run_reachable. split; [|split].
  - intros tbl p Hlast.
    destruct (Hreg tbl Hlast) as [r Hr].
    rewrite Hlast in Hcur. simpl in Hcur. rewrite Hr in Hcur.
    destruct (Hheap r (od_lookup_ref _ _ _ Hr)) as [bs Hbs].
    unfold add. rewrite Hcur. eexists _, bs. split; [reflexivity|].
    unfold blocks_of. simpl. rewrite Hr. simpl.
    split; [done|]. split; [|split].
    + by rewrite lookup_alter_eq, Hbs.
    + intros tbl' Hne. destruct (od_lookup (x_id tbl') (tables self)) as [r'|] eqn:Hr';
        simpl; [|done].
      rewrite lookup_alter_ne; [done|]. intros <-.
      apply Hne. by eapply od_lookup_inj.
    + unfold iteritems. simpl. rewrite !map_map.
      apply map_ext. by intros [k rk].
  - intros p Hlast. rewrite Hlast in Hcur. unfold add. by rewrite Hcur.
  - intros tbl. assert (Hfresh : ∀ r, r ∈ map snd (tables self) ->
                                      r ≠ fresh (dom (heap self))).
    { intros r Hin%Hheap%elem_of_dom ->. by apply is_fresh in Hin. }
    unfold blocks_of, register. simpl. split; [|split].
    + rewrite od_lookup_setitem_eq. simpl. by rewrite lookup_insert_eq.
    + intros tbl' Hne. rewrite od_lookup_setitem_ne by done.
      destruct (od_lookup (x_id tbl') (tables self)) as [r'|] eqn:Hr'; simpl; [|done].
      rewrite lookup_insert_ne; [done|].
      intros Heq. eapply Hfresh; [by eapply od_lookup_ref | done].
    + unfold iteritems, keys. simpl.
      assert (Hfst : ∀ (h : gmap nat (list xnode)) (od : list (xnode * nat)),
                map fst (map (fun '(k, r) => (k, default [] (h !! r))) od) = map fst od).
      { intros h od. rewrite map_map. apply map_ext. by intros [k rk]. }
      rewrite !Hfst. apply od_setitem_keys.
Qed.

End registration.

(** ** Assembly *)

Section lxml_facts.
Import Lxml.
Implicit Types (d : tree) (n m q c : nat).

Lemma tag_dom d n s : tag d n = Some s -> n ∈ dom d.
Proof.
  unfold tag. intros Ht. apply elem_of_dom.
  destruct (d !! n); [by eexists | done].
Qed.

Lemma getparent_dom d n q : getparent d n = Some q -> n ∈ dom d.
Proof.
  unfold getparent. intros Hp. apply elem_of_dom.
  destruct (d !! n); [by eexists | done].
Qed.

Lemma lookup_alter_fmap (f : element -> element) d n m :
  alter f n d !! m = (if decide (n = m) then f else id) <$> d !! m.
Proof.
  rewrite lookup_alter. case_decide as Hnm; [by subst|].
  by destruct (d !! m).
Qed.

(** Setting a tail changes neither the shape of the tree nor a tag. *)
Lemma set_tail_dom d n s : dom (alter (set_tail s) n d) = dom d.
Proof. apply dom_alter_L. Qed.

Lemma set_tail_lookup d n s m :
  alter (set_tail s) n d !! m
  = (if decide (n = m) then set_tail s else id) <$> d !! m.
Proof.
  rewrite lookup_alter. case_decide as Hnm; [by subst|].
  by destruct (d !! m).
Qed.

Lemma set_tail_tag d n s m : tag (alter (set_tail s) n d) m = tag d m.
Proof.
  unfold tag. rewrite set_tail_lookup.
  destruct (d !! m); simpl; [|done]. by case_decide.
Qed.

Lemma set_tail_children d n s m :
  children (alter (set_tail s) n d) m = children d m.
Proof.
  unfold children. rewrite set_tail_lookup.
  destruct (d !! m); simpl; [|done]. by case_decide.
Qed.

Lemma set_tail_getparent d n s m :
  getparent (alter (set_tail s) n d) m = getparent d m.
Proof.
  unfold getparent. rewrite set_tail_lookup.
  destruct (d !! m); simpl; [|done]. by case_decide.
Qed.

Lemma set_last_tail_dom d n s : dom (set_last_tail d n s) = dom d.
Proof. unfold set_last_tail. destruct (last _); [apply set_tail_dom | done]. Qed.

Lemma set_last_tail_tag d n s m : tag (set_last_tail d n s) m = tag d m.
Proof. unfold set_last_tail. destruct (last _); [apply set_tail_tag | done]. Qed.

Lemma set_last_tail_children d n s m :
  children (set_last_tail d n s) m = children d m.
Proof. unfold set_last_tail. destruct (last _); [apply set_tail_children | done]. Qed.

Lemma set_last_tail_getparent d n s m :
  getparent (set_last_tail d n s) m = getparent d m.
Proof. unfold set_last_tail. destruct (last _); [apply set_tail_getparent | done]. Qed.

(** A new element. *)
Lemma E_fresh name text d : (E name text d).1 ∉ dom d.
Proof. apply is_fresh. Qed.

Lemma E_dom name text d : dom (E name text d).2 = {[ (E name text d).1 ]} ∪ dom d.
Proof. apply dom_insert_L. Qed.

Lemma E_tag name text d m :
  tag (E name text d).2 m
  = if decide (m = (E name text d).1) then Some name else tag d m.
Proof.
  unfold tag, E. simpl. rewrite lookup_insert.
  case_decide; case_decide; (done || congruence).
Qed.

Lemma E_children name text d m :
  children (E name text d).2 m
  = if decide (m = (E name text d).1) then [] else children d m.
Proof.
  unfold children, E. simpl. rewrite lookup_insert.
  case_decide; case_decide; (done || congruence).
Qed.

Lemma E_getparent name text d m :
  getparent (E name text d).2 m
  = if decide (m = (E name text d).1) then None else getparent d m.
Proof.
  unfold getparent, E. simpl. rewrite lookup_insert.
  case_decide; case_decide; (done || congruence).
Qed.

(** Unlinking. *)
Lemma detach_dom d c : dom (detach d c) = dom d.
Proof.
  unfold detach. destruct (getparent d c); [|done].
  by rewrite !dom_alter_L.
Qed.

Lemma detach_tag d c m : tag (detach d c) m = tag d m.
Proof.
  unfold detach, tag. destruct (getparent d c) as [p|]; [|done].
  rewrite !lookup_alter_fmap.
  destruct (d !! m); simpl; [|done]. by repeat case_decide.
Qed.

Lemma detach_getparent d c m :
  getparent (detach d c) m = if decide (m = c) then None else getparent d m.
Proof.
  unfold detach. destruct (getparent d c) as [p|] eqn:Hp.
  - unfold getparent. rewrite !lookup_alter_fmap.
    destruct (d !! m); simpl; repeat case_decide; simplify_eq; done.
  - case_decide; [by subst | done].
Qed.

Lemma detach_children d c m :
  children (detach d c) m
  = if decide (getparent d c = Some m)
    then filter (fun x => x ≠ c) (children d m) else children d m.
Proof.
  unfold detach. destruct (getparent d c) as [p|] eqn:Hp.
  - unfold children. rewrite !lookup_alter_fmap.
    destruct (d !! m); simpl; repeat case_decide; simplify_eq; done.
  - by rewrite decide_False.
Qed.

(** [append]: what it changes. *)
Lemma append_dom d d' q c : append d q c = Ok d' -> dom d' = dom d.
Proof.
  unfold append. case_match; [done|]. intros [= <-].
  by rewrite !dom_alter_L, detach_dom.
Qed.

Lemma append_tag d d' q c m : append d q c = Ok d' -> tag d' m = tag d m.
Proof.
  unfold append. case_match; [done|]. intros [= <-].
  rewrite <-(detach_tag d c m). unfold tag. rewrite !lookup_alter_fmap.
  destruct (detach d c !! m); simpl; [|done]. by repeat case_decide.
Qed.

Lemma append_getparent d d' q c m :
  append d q c = Ok d' ->
  getparent d' m = if decide (m = c)
                   then (if decide (c ∈ dom d) then Some q else None)
                   else getparent d m.
Proof.
  unfold append. case_match; [done|]. intros [= <-].
  pose proof (detach_getparent d c m) as Hdet.
  pose proof (detach_dom d c) as Hdom.
  unfold getparent in *. rewrite !lookup_alter_fmap.
  destruct (detach d c !! m) as [e|] eqn:He; simpl in *.
  - assert (m ∈ dom d) by (rewrite <-Hdom; apply elem_of_dom; by eexists).
    repeat case_decide; simplify_eq; done.
  - assert (m ∉ dom d).
    { rewrite <-Hdom. intros [? ?]%elem_of_dom. simplify_eq. }
    repeat case_decide; simplify_eq; done.
Qed.

Lemma append_children d d' q c m :
  append d q c = Ok d' ->
  children d' m = if decide (m = q ∧ q ∈ dom d)
                  then (children (detach d c) q ++ [c])%list
                  else children (detach d c) m.
Proof.
  unfold append. case_match; [done|]. intros [= <-].
  pose proof (detach_dom d c) as Hdom.
  unfold children. rewrite !lookup_alter_fmap.
  destruct (detach d c !! m) as [e|] eqn:He; simpl in *.
  - assert (m ∈ dom d) by (rewrite <-Hdom; apply elem_of_dom; by eexists).
    repeat case_decide; destruct_and?; simplify_eq; rewrite ?He;
      first [done | exfalso; naive_solver].
  - assert (m ∉ dom d).
    { rewrite <-Hdom. intros [? ?]%elem_of_dom. simplify_eq. }
    repeat case_decide; destruct_and?; simplify_eq; done.
Qed.

(** [insert] of an element that has no parent. *)
Lemma insert_orphan d parent idx c :
  getparent d c = None ->
  insert d parent idx c
  = alter (set_children (fun l => (take idx l ++ c :: drop idx l)%list)) parent
          (alter (set_parent (Some parent)) c d).
Proof. intros Hc. unfold insert, detach. by rewrite Hc. Qed.

End lxml_facts.

Section assembly_steps.
Import Lxml.
Implicit Types (d : tree) (n m q c : nat) (old X : gset nat).

Lemma extends_refl old X d : extends old X d d.
Proof. by split. Qed.

Lemma extends_trans old X Y d1 d2 d3 :
  extends old X d1 d2 -> extends old Y d2 d3 ->
  (∀ n, n ∈ dom d1 -> n ∈ Y -> n ∈ X) ->
  extends old X d1 d3.
Proof.
  intros [Hd1 Ht1 Hp1 Hc1] [Hd2 Ht2 Hp2 Hc2] HY. split.
  - set_solver.
  - intros n Hn. rewrite Ht2 by set_solver. by rewrite Ht1.
  - intros n Hn Hold. rewrite Hp2 by set_solver. by rewrite Hp1.
  - intros n Hn Hold Htd HX.
    rewrite Hc2; [by apply Hc1 | set_solver | done | by rewrite Ht1 | naive_solver].
Qed.

(** An element made by the element maker and appended to [q]. *)
Lemma new_child name text s d q d' :
  let n := (E name text d).1 in
  append (alter (set_tail s) n (E name text d).2) q n = Ok d' ->
  q ∈ dom d ->
  ((n ∉ dom d) ∧ dom d' = {[ n ]} ∪ dom d ∧
   tag d' n = Some name ∧ children d' n = [] ∧ getparent d' n = Some q ∧
   children d' q = (children d q ++ [n])%list ∧
   (∀ m, m ≠ n -> tag d' m = tag d m ∧ getparent d' m = getparent d m) ∧
   (∀ m, m ≠ n -> m ≠ q -> children d' m = children d m)).
Proof.
  intros n Happ Hq.
  pose proof (E_fresh name text d) as Hfresh. fold n in Hfresh.
  assert (Hqn : q ≠ n) by (intros ->; done).
  set (d1 := alter (set_tail s) n (E name text d).2) in *.
  assert (Hdom1 : dom d1 = {[ n ]} ∪ dom d).
  { unfold d1. by rewrite set_tail_dom, E_dom. }
  assert (Hpar1 : getparent d1 n = None).
  { unfold d1. rewrite set_tail_getparent, E_getparent. by rewrite decide_True. }
  assert (Hch1 : ∀ m, children (detach d1 n) m
                      = if decide (m = n) then [] else children d m).
  { intros m. rewrite detach_children, Hpar1, decide_False by done.
    unfold d1. by rewrite set_tail_children, E_children. }
  split; [done|]. split; [by rewrite (append_dom _ _ _ _ Happ)|].
  split; [|split; [|split; [|split; [|split]]]].
  - rewrite (append_tag _ _ _ _ _ Happ). unfold d1.
    rewrite set_tail_tag, E_tag. by rewrite decide_True.
  - rewrite (append_children _ _ _ _ _ Happ), decide_False by naive_solver.
    rewrite Hch1. by rewrite decide_True.
  - rewrite (append_getparent _ _ _ _ _ Happ), decide_True by done.
    rewrite decide_True; [done|]. rewrite Hdom1. set_solver.
  - rewrite (append_children _ _ _ _ _ Happ), decide_True.
    + rewrite Hch1. by rewrite decide_False.
    + split; [done|]. rewrite Hdom1. set_solver.
  - intros m Hm. split.
    + rewrite (append_tag _ _ _ _ _ Happ). unfold d1.
      rewrite set_tail_tag, E_tag. by rewrite decide_False.
    + rewrite (append_getparent _ _ _ _ _ Happ), decide_False by done.
      unfold d1. rewrite set_tail_getparent, E_getparent. by rewrite decide_False.
  - intros m Hm Hmq.
    rewrite (append_children _ _ _ _ _ Happ), decide_False by naive_solver.
    rewrite Hch1. by rewrite decide_False.
Qed.

(** The same, as a step of assembly under an element [q] that is not
    old. *)
Lemma new_child_extends old name text s d q d' :
  let n := (E name text d).1 in
  append (alter (set_tail s) n (E name text d).2) q n = Ok d' ->
  q ∈ dom d -> assembly_inv old d ->
  (assembly_inv old d' ∧ extends old {[ q ]} d d').
Proof.
  intros n Happ Hq [Hold Hpar].
  destruct (new_child _ _ _ _ _ _ Happ Hq)
    as (Hfresh & Hdom & Htag & Hch & Hgp & Hchq & Hsame & Hchsame).
  fold n in Hfresh, Hdom, Htag, Hch, Hgp, Hchq, Hsame, Hchsame.
  assert (Hne : ∀ m, m ∈ dom d -> m ≠ n) by (intros m Hm ->; done).
  split; split.
  - set_solver.
  - intros m p Hm. destruct (Hsame m) as [_ ->]; [apply Hne; set_solver|].
    intros Hp. destruct (Hpar m p Hm Hp) as [?|Htd]; [by left|right].
    destruct (Hsame p) as [-> _]; [|done]. apply Hne. by eapply tag_dom.
  - set_solver.
  - intros m Hm. by apply Hsame, Hne.
  - intros m Hm _. by apply Hsame, Hne.
  - intros m Hm _ _ HX. apply Hchsame; [by apply Hne | set_solver].
Qed.

(** Moving a block into a cell container. *)
Lemma move_block_extends old d td b d' :
  append d td b = Ok d' ->
  assembly_inv old d -> b ∈ old -> tag d td = Some "td" ->
  assembly_inv old d' ∧ extends old ∅ d d'.
Proof.
  intros Happ [Hold Hpar] Hb Htd.
  pose proof (append_dom _ _ _ _ Happ) as Hdom.
  split; split.
  - by rewrite Hdom.
  - intros m p Hm. rewrite (append_getparent _ _ _ _ _ Happ),
      (append_tag _ _ _ _ _ Happ).
    case_decide as Hmb.
    + case_decide; [|done]. intros [= <-]. by right.
    + apply Hpar, Hm.
  - by rewrite Hdom.
  - intros m _. apply (append_tag _ _ _ _ _ Happ).
  - intros m _ Hm. rewrite (append_getparent _ _ _ _ _ Happ).
    rewrite decide_False; [done|]. by intros ->.
  - intros m Hmd Hm Hmtd _.
    rewrite (append_children _ _ _ _ _ Happ), decide_False.
    + rewrite detach_children, decide_False; [done|].
      intros Hp. destruct (Hpar b m Hb Hp) as [?|?]; done.
    + intros [-> _]. done.
Qed.

(** The table element, put among the children of the parent of a
    block. *)
Lemma insert_table_spec old rmap first d t d2 :
  Tables.insert_table rmap first d = Ok (t, d2) ->
  assembly_inv old d -> (∀ k b, rmap !! k = Some b -> b ∈ old) ->
  ∃ b parent idx,
    rmap !! x_id first = Some b ∧ getparent d b = Some parent ∧
    list_index b (children d parent) = Some idx ∧
    (t ∉ dom d) ∧ dom d2 = {[ t ]} ∪ dom d ∧
    tag d2 t = Some "table" ∧ children d2 t = [] ∧ getparent d2 t = Some parent ∧
    children d2 parent
      = (take idx (children d parent) ++ t :: drop idx (children d parent))%list ∧
    assembly_inv old d2 ∧ extends old ∅ d d2 ∧
    (∀ m, m ≠ t -> getparent d2 m = getparent d m) ∧
    (∀ m, m ≠ t -> m ≠ parent -> children d2 m = children d m).
Proof.
  unfold Tables.insert_table, Tables.getitem. intros Hrun [Hold Hpar] Hrmap.
  destruct (rmap !! x_id first) as [b|] eqn:Hb; [simpl in Hrun|done].
  destruct (getparent d b) as [parent|] eqn:Hp; [|done].
  unfold index in Hrun.
  assert (Hpd : parent ∈ dom d).
  { destruct (Hpar b parent) as [?|?%tag_dom]; [by eapply Hrmap | done | set_solver | done]. }
  pose proof (E_fresh "table" (Some (nl ++ tab ++ tab)) d) as Hfresh.
  pose proof (E_children "table" (Some (nl ++ tab ++ tab)) d parent) as Hch1.
  pose proof (E_getparent "table" (Some (nl ++ tab ++ tab)) d) as Hgp1.
  pose proof (E_dom "table" (Some (nl ++ tab ++ tab)) d) as Hdom1.
  unfold E in Hfresh, Hch1, Hgp1, Hdom1. simpl in Hfresh, Hch1, Hgp1, Hdom1.
  set (t0 := fresh (dom d)) in *.
  set (d1 := <[t0 := _]> d) in *.
  assert (Hpt : parent ≠ t0) by (intros ->; done).
  rewrite Hch1, decide_False in Hrun by done.
  destruct (list_index b (children d parent)) as [idx|] eqn:Hidx; [|done].
  simpl in Hrun. injection Hrun as <- <-.
  exists b, parent, idx.
  specialize (Hgp1 t0). rewrite decide_True in Hgp1 by done.
  rewrite (insert_orphan _ _ _ _ Hgp1).
  assert (Hlook : ∀ m, m ≠ t0 ->
            alter (set_children (fun l => (take idx l ++ t0 :: drop idx l)%list)) parent
                  (alter (set_parent (Some parent)) t0 d1) !! m
            = (if decide (parent = m)
               then set_children (fun l => (take idx l ++ t0 :: drop idx l)%list)
               else id) <$> d !! m).
  { intros m Hm. rewrite !lookup_alter_fmap. unfold d1.
    rewrite lookup_insert_ne by done. rewrite (decide_False (P := t0 = m)) by done.
    by destruct (d !! m). }
  assert (Hlookt : alter (set_children (fun l => (take idx l ++ t0 :: drop idx l)%list)) parent
                     (alter (set_parent (Some parent)) t0 d1) !! t0
                   = Some {| e_tag := "table"; e_text := Some (nl ++ tab ++ tab);
                             e_tail := None; e_parent := Some parent;
                             e_children := [] |}).
  { rewrite !lookup_alter_fmap. unfold d1.
    rewrite lookup_insert_eq. rewrite decide_False, decide_True by done. done. }
  assert (Hsame : ∀ m, m ≠ t0 ->
            tag (alter (set_children (fun l => (take idx l ++ t0 :: drop idx l)%list)) parent
                  (alter (set_parent (Some parent)) t0 d1)) m = tag d m ∧
            getparent (alter (set_children (fun l => (take idx l ++ t0 :: drop idx l)%list)) parent
                  (alter (set_parent (Some parent)) t0 d1)) m = getparent d m).
  { intros m Hm. unfold tag, getparent. rewrite (Hlook m Hm).
    destruct (d !! m); simpl; [|done]. by destruct (decide (parent = m)). }
  assert (Hne : ∀ m, m ∈ dom d -> m ≠ t0) by (intros m Hm ->; done).
  split; [done|]. split; [done|]. split; [done|]. split; [done|].
  split. { by rewrite !dom_alter_L. }
  split. { unfold tag. by rewrite Hlookt. }
  split. { unfold children. by rewrite Hlookt. }
  split. { unfold getparent. by rewrite Hlookt. }
  split. { unfold children. rewrite (Hlook parent Hpt), decide_True by done.
           apply elem_of_dom in Hpd as [e He]. by rewrite He. }
  split; [|split; [|split]]; [split|split|..].
  - rewrite !dom_alter_L, Hdom1. set_solver.
  - intros m p Hm. destruct (Hsame m) as [_ ->]; [apply Hne; set_solver|].
    intros Hmp. destruct (Hpar m p Hm Hmp) as [?|Htd]; [by left|right].
    destruct (Hsame p) as [-> _]; [|done]. apply Hne. by eapply tag_dom.
  - rewrite !dom_alter_L, Hdom1. set_solver.
  - intros m Hm. by apply Hsame, Hne.
  - intros m Hm _. by apply Hsame, Hne.
  - intros m Hm Hmold Hmtd _. unfold children. rewrite (Hlook m (Hne m Hm)).
    rewrite decide_False; [by destruct (d !! m)|].
    intros <-. destruct (Hpar b parent) as [?|?]; [by eapply Hrmap | done..].
  - intros m Hm. by apply Hsame.
  - intros m Hm Hmp. unfold children. rewrite (Hlook m Hm).
    rewrite decide_False by done. by destruct (d !! m).
Qed.

End assembly_steps.

Section assembly_loops.
Context {imports : Imports}.
Import Lxml Tables.
Implicit Types (d : tree) (n m q c : nat) (old X : gset nat).

Lemma set_last_tail_extends old d n s :
  assembly_inv old d ->
  assembly_inv old (set_last_tail d n s) ∧ extends old ∅ d (set_last_tail d n s).
Proof.
  intros [Hold Hpar]. split; split.
  - by rewrite set_last_tail_dom.
  - intros m p. rewrite set_last_tail_getparent, set_last_tail_tag. apply Hpar.
  - by rewrite set_last_tail_dom.
  - intros. apply set_last_tail_tag.
  - intros. apply set_last_tail_getparent.
  - intros. apply set_last_tail_children.
Qed.

Lemma row_of_extends old X d d' t tr tds :
  row_of d t tr tds -> extends old X d d' ->
  tr ∉ old -> tr ∉ X -> (∀ td, td ∈ tds -> td ∉ old) ->
  row_of d' t tr tds.
Proof.
  intros (Htag & Hgp & Hch & Htds) [Hdom Ht Hp Hc] Hold HX Htdold.
  assert (Htr : tr ∈ dom d) by by eapply tag_dom.
  split; [by rewrite Ht|]. split; [by rewrite Hp|].
  split; [rewrite Hc; [done..|by rewrite Htag|done]|].
  apply Forall_forall. intros td Htd.
  rewrite Forall_forall in Htds. destruct (Htds td Htd) as [Httd Hgtd].
  assert (td ∈ dom d) by by eapply tag_dom.
  split; [by rewrite Ht | rewrite Hp; auto].
Qed.

(** The loop over the paragraphs of a cell. *)
Lemma move_blocks_extends old rmap td (ps : list xnode) d d' :
  for_each ps (fun d p => block ← getitem rmap p; append d td block) d = Ok d' ->
  assembly_inv old d -> (∀ k b, rmap !! k = Some b -> b ∈ old) ->
  tag d td = Some "td" ->
  dom d' = dom d ∧ assembly_inv old d' ∧ extends old ∅ d d'.
Proof.
  intros Hrun Hinv Hrmap. revert d Hrun Hinv.
  induction ps as [|p ps IH]; intros d Hrun Hinv Htd; simpl in Hrun.
  - injection Hrun as <-. split; [done|]. split; [done | apply extends_refl].
  - apply bind_Ok in Hrun as (d1 & Hstep & Hrun).
    apply bind_Ok in Hstep as (b & Hb & Happ).
    unfold getitem in Hb. destruct (rmap !! x_id p) as [b'|] eqn:Hp; [|done].
    injection Hb as ->.
    destruct (move_block_extends old d td b d1 Happ Hinv) as [Hinv1 Hext1];
      [by eapply Hrmap | done |].
    destruct (IH d1 Hrun Hinv1) as (Hdom' & Hinv' & Hext').
    { rewrite (ext_tag _ _ _ _ Hext1); [done | by eapply tag_dom]. }
    split; [by rewrite Hdom', (append_dom _ _ _ _ Happ)|].
    split; [done|]. eapply extends_trans; [done..|]. set_solver.
Qed.

Lemma add_cell_spec old rmap tr d tc d' :
  add_cell rmap tr d tc = Ok d' ->
  assembly_inv old d -> (∀ k b, rmap !! k = Some b -> b ∈ old) ->
  tr ∈ dom d -> tr ∉ old -> tag d tr = Some "tr" ->
  ∃ td, (td ∉ dom d) ∧ dom d' = {[ td ]} ∪ dom d ∧
    tag d' td = Some "td" ∧ getparent d' td = Some tr ∧
    children d' tr = (children d tr ++ [td])%list ∧
    assembly_inv old d' ∧ extends old {[ tr ]} d d'.
Proof.
  unfold add_cell. intros Hrun Hinv Hrmap Htr Htrold Htrtag.
  pose proof (new_child "td" None (nl ++ tab ++ tab ++ tab) d tr) as Hnew.
  pose proof (new_child_extends old "td" None (nl ++ tab ++ tab ++ tab) d tr) as Hnewx.
  destruct (E "td" None d) as [td d0]. cbn [fst snd] in Hnew, Hnewx.
  apply bind_Ok in Hrun as (d1 & Happ & Hloop).
  destruct (Hnew d1 Happ Htr)
    as (Hfresh & Hdom & Htag & Hch & Hgp & Hchtr & Hsame & Hchsame).
  destruct (Hnewx d1 Happ Htr Hinv) as [Hinv1 Hext1].
  destruct (move_blocks_extends old rmap td _ d1 d' Hloop Hinv1 Hrmap Htag)
    as (Hdom' & Hinv' & Hext').
  assert (Htd1 : td ∈ dom d1) by set_solver.
  assert (Htr1 : tr ∈ dom d1) by set_solver.
  assert (Htdold : td ∉ old) by (destruct Hinv; set_solver).
  exists td. split; [done|]. split; [by rewrite Hdom'|].
  split; [by rewrite (ext_tag _ _ _ _ Hext')|].
  split; [by rewrite (ext_parent _ _ _ _ Hext')|].
  split.
  { rewrite (ext_children _ _ _ _ Hext'); [done..| |set_solver].
    destruct (Hsame tr) as [-> _]; [by intros -> | by rewrite Htrtag]. }
  split; [done|]. eapply extends_trans; [done..|]. set_solver.
Qed.

(** The loop over the cells of a row. *)
Lemma add_cells_spec old rmap tr (tcs : list xnode) d d' :
  for_each tcs (add_cell rmap tr) d = Ok d' ->
  assembly_inv old d -> (∀ k b, rmap !! k = Some b -> b ∈ old) ->
  tr ∈ dom d -> tr ∉ old -> tag d tr = Some "tr" ->
  ∃ tds, length tds = length tcs ∧ NoDup tds ∧ (∀ td, td ∈ tds -> td ∉ dom d) ∧
    dom d' = list_to_set tds ∪ dom d ∧
    children d' tr = (children d tr ++ tds)%list ∧
    Forall (fun td => tag d' td = Some "td" ∧ getparent d' td = Some tr) tds ∧
    assembly_inv old d' ∧ extends old {[ tr ]} d d'.
Proof.
  intros Hrun Hinv Hrmap. revert d Hrun Hinv.
  induction tcs as [|tc tcs IH]; intros d Hrun Hinv Htr Htrold Htrtag;
    simpl in Hrun.
  - injection Hrun as <-. exists []. simpl.
    split; [done|]. split; [apply NoDup_nil_2|]. split; [set_solver|].
    split; [set_solver|]. split; [by rewrite app_nil_r|].
    split; [done|]. split; [done | apply extends_refl].
  - apply bind_Ok in Hrun as (d1 & Hcell & Hrun).
    destruct (add_cell_spec old rmap tr d tc d1 Hcell Hinv Hrmap Htr Htrold Htrtag)
      as (td & Hfresh & Hdom1 & Htag1 & Hgp1 & Hch1 & Hinv1 & Hext1).
    assert (Htr1 : tr ∈ dom d1) by set_solver.
    destruct (IH d1 Hrun Hinv1 Htr1 Htrold)
      as (tds & Hlen & Hnd & Hnew & Hdom' & Hch' & Hall & Hinv' & Hext').
    { by rewrite (ext_tag _ _ _ _ Hext1). }
    assert (Htdold : td ∉ old) by (destruct Hinv; set_solver).
    exists (td :: tds). simpl.
    split; [by rewrite Hlen|].
    split. { apply NoDup_cons. split; [|done]. intros Hin%Hnew. set_solver. }
    split. { intros x [->|Hx]%elem_of_cons; [done|]. apply Hnew in Hx. set_solver. }
    split. { rewrite Hdom', Hdom1. set_solver. }
    split. { by rewrite Hch', Hch1, <-app_assoc. }
    split.
    { apply Forall_cons. split; [|done].
      rewrite (ext_tag _ _ _ _ Hext'), (ext_parent _ _ _ _ Hext'); [done|set_solver..]. }
    split; [done|]. eapply extends_trans; [done..|]. set_solver.
Qed.

Lemma add_row_spec old rmap table d row d' :
  add_row rmap table d row = Ok d' ->
  assembly_inv old d -> (∀ k b, rmap !! k = Some b -> b ∈ old) ->
  table ∈ dom d -> table ∉ old -> tag d table = Some "table" ->
  ∃ tr tds, length tds = length (XPath (Child "w:tc") row) ∧
    NoDup (tr :: tds) ∧ (∀ n, n ∈ tr :: tds -> n ∉ dom d) ∧
    dom d' = list_to_set (tr :: tds) ∪ dom d ∧
    children d' table = (children d table ++ [tr])%list ∧
    row_of d' table tr tds ∧
    assembly_inv old d' ∧ extends old {[ table ]} d d'.
Proof.
  unfold add_row. intros Hrun Hinv Hrmap Ht Htold Httag.
  pose proof (new_child "tr" (Some (nl ++ tab ++ tab ++ tab)) (nl ++ tab ++ tab) d table)
    as Hnew.
  pose proof (new_child_extends old "tr" (Some (nl ++ tab ++ tab ++ tab))
                (nl ++ tab ++ tab) d table) as Hnewx.
  destruct (E "tr" (Some (nl ++ tab ++ tab ++ tab)) d) as [tr d0].
  cbn [fst snd] in Hnew, Hnewx.
  apply bind_Ok in Hrun as (d1 & Happ & Hrun).
  apply bind_Ok in Hrun as (d2 & Hcells & Hrun).
  injection Hrun as <-.
  destruct (Hnew d1 Happ Ht)
    as (Hfresh & Hdom1 & Htag1 & Hch1 & Hgp1 & Hcht & Hsame & Hchsame).
  destruct (Hnewx d1 Happ Ht Hinv) as [Hinv1 Hext1].
  assert (Htrold : tr ∉ old) by (destruct Hinv; set_solver).
  assert (Htr1 : tr ∈ dom d1) by set_solver.
  assert (Htne : table ≠ tr) by (by intros ->).
  destruct (add_cells_spec old rmap tr _ d1 d2 Hcells Hinv1 Hrmap Htr1 Htrold Htag1)
    as (tds & Hlen & Hnd & Hnewtd & Hdom2 & Hch2 & Hall & Hinv2 & Hext2).
  destruct (set_last_tail_extends old d2 tr (nl ++ tab ++ tab) Hinv2) as [Hinv' Hext'].
  exists tr, tds. split; [done|].
  split. { apply NoDup_cons. split; [|done]. intros Hin%Hnewtd. set_solver. }
  split. { intros n [->|Hn]%elem_of_cons; [done|]. apply Hnewtd in Hn. set_solver. }
  split. { rewrite set_last_tail_dom, Hdom2, Hdom1. set_solver. }
  split.
  { rewrite set_last_tail_children.
    rewrite (ext_children _ _ _ _ Hext2); [done | set_solver | done | | set_solver].
    destruct (Hsame table) as [-> _]; [done | by rewrite Httag]. }
  split.
  { unfold row_of. rewrite set_last_tail_tag, set_last_tail_getparent,
      set_last_tail_children.
    split; [by rewrite (ext_tag _ _ _ _ Hext2)|].
    split; [by rewrite (ext_parent _ _ _ _ Hext2)|].
    split; [by rewrite Hch2, Hch1|].
    eapply Forall_impl; [exact Hall|]. intros td [? ?].
    by rewrite set_last_tail_tag, set_last_tail_getparent. }
  split; [done|].
  eapply extends_trans; [|exact Hext'|set_solver].
  eapply extends_trans; [exact Hext1|exact Hext2|]. set_solver.
Qed.

Lemma created_cons tr trs tds tdss :
  created (tr :: trs) (tds :: tdss) = (tr :: tds ++ created trs tdss)%list.
Proof. done. Qed.

(** The loop over the rows of a table. *)
Lemma add_rows_spec old rmap table (rows : list xnode) d d' :
  for_each rows (add_row rmap table) d = Ok d' ->
  assembly_inv old d -> (∀ k b, rmap !! k = Some b -> b ∈ old) ->
  table ∈ dom d -> table ∉ old -> tag d table = Some "table" ->
  ∃ trs tdss,
    Forall2 (fun tds row => length tds = length (XPath (Child "w:tc") row)) tdss rows ∧
    NoDup (created trs tdss) ∧ (∀ n, n ∈ created trs tdss -> n ∉ dom d) ∧
    dom d' = list_to_set (created trs tdss) ∪ dom d ∧
    children d' table = (children d table ++ trs)%list ∧
    Forall2 (row_of d' table) trs tdss ∧
    assembly_inv old d' ∧ extends old {[ table ]} d d'.
Proof.
  intros Hrun Hinv Hrmap. revert d Hrun Hinv.
  induction rows as [|row rows IH]; intros d Hrun Hinv Ht Htold Httag;
    simpl in Hrun.
  - injection Hrun as <-. exists [], []. simpl.
    split; [done|]. split; [apply NoDup_nil_2|]. split; [set_solver|].
    split; [set_solver|]. split; [by rewrite app_nil_r|].
    split; [done|]. split; [done | apply extends_refl].
  - apply bind_Ok in Hrun as (d1 & Hrow & Hrun).
    destruct (add_row_spec old rmap table d row d1 Hrow Hinv Hrmap Ht Htold Httag)
      as (tr & tds & Hlen & Hnd1 & Hnew1 & Hdom1 & Hch1 & Hrow1 & Hinv1 & Hext1).
    assert (Ht1 : table ∈ dom d1) by set_solver.
    destruct (IH d1 Hrun Hinv1 Ht1 Htold)
      as (trs & tdss & Hlens & Hnd & Hnew & Hdom' & Hch' & Hrows & Hinv' & Hext').
    { by rewrite (ext_tag _ _ _ _ Hext1). }
    assert (Hold : old ⊆ dom d) by by destruct Hinv.
    exists (tr :: trs), (tds :: tdss). rewrite created_cons.
    split; [by apply Forall2_cons|].
    split.
    { rewrite app_comm_cons. apply NoDup_app. split; [done|]. split; [|done].
      intros n Hn Hn'%Hnew. set_solver. }
    split.
    { intros n. rewrite app_comm_cons, elem_of_app. intros [Hn|Hn%Hnew]; [by apply Hnew1|].
      set_solver. }
    split.
    { rewrite Hdom', Hdom1, app_comm_cons, list_to_set_app_L. set_solver. }
    split; [by rewrite Hch', Hch1, <-app_assoc|].
    split.
    { apply Forall2_cons. split; [|done].
      eapply row_of_extends; [done..| | |].
      - intros Hin. apply (Hnew1 tr); set_solver.
      - intros Hin%elem_of_singleton. subst. apply (Hnew1 table); [set_solver | done].
      - intros td Htd Htdold. apply (Hnew1 td); set_solver. }
    split; [done|]. eapply extends_trans; [done..|]. set_solver.
Qed.

(** The body of [apply_markup] for a table with at least one block. *)
Lemma assemble_spec old rmap tbl first rest d d' :
  assemble rmap d (tbl, first :: rest) = Ok d' ->
  assembly_inv old d -> (∀ k b, rmap !! k = Some b -> b ∈ old) ->
  ∃ b parent idx t d2 trs tdss,
    rmap !! x_id first = Some b ∧ getparent d b = Some parent ∧
    list_index b (children d parent) = Some idx ∧
    insert_table rmap first d = Ok (t, d2) ∧
    children d2 parent
      = (take idx (children d parent) ++ t :: drop idx (children d parent))%list ∧
    Forall2 (fun tds row => length tds = length (XPath (Child "w:tc") row))
            tdss (XPath (Child "w:tr") tbl) ∧
    NoDup (t :: created trs tdss) ∧
    (∀ n, n ∈ t :: created trs tdss -> n ∉ dom d) ∧
    dom d' = list_to_set (t :: created trs tdss) ∪ dom d ∧
    table_of d' t trs tdss ∧ getparent d' t = Some parent ∧
    assembly_inv old d' ∧ extends old ∅ d d'.
Proof.
  unfold assemble. intros Hrun Hinv Hrmap.
  apply bind_Ok in Hrun as ([t d2] & Hins & Hrun).
  apply bind_Ok in Hrun as (d3 & Hrows & Hrun). injection Hrun as <-.
  destruct (insert_table_spec old rmap first d t d2 Hins Hinv Hrmap)
    as (b & parent & idx & Hb & Hp & Hidx & Hfresh & Hdom2 & Htag2 & Hch2 & Hgp2
        & Hchp & Hinv2 & Hext2 & _ & _).
  assert (Hold : old ⊆ dom d) by by destruct Hinv.
  assert (Htold : t ∉ old) by set_solver.
  assert (Ht2 : t ∈ dom d2) by set_solver.
  destruct (add_rows_spec old rmap t _ d2 d3 Hrows Hinv2 Hrmap Ht2 Htold Htag2)
    as (trs & tdss & Hlens & Hnd & Hnew & Hdom3 & Hch3 & Hrows3 & Hinv3 & Hext3).
  destruct (set_last_tail_extends old d3 t (nl ++ tab) Hinv3) as [Hinv' Hext'].
  exists b, parent, idx, t, d2, trs, tdss.
  do 6 (split; [done|]).
  split. { apply NoDup_cons. split; [|done]. intros Hin%Hnew. set_solver. }
  split. { intros n [->|Hn%Hnew]%elem_of_cons; [done | set_solver]. }
  split. { rewrite set_last_tail_dom, Hdom3, Hdom2. set_solver. }
  split.
  { unfold table_of. rewrite set_last_tail_tag, set_last_tail_children.
    split; [by rewrite (ext_tag _ _ _ _ Hext3)|].
    split; [by rewrite Hch3, Hch2|].
    eapply Forall2_impl; [exact Hrows3|]. intros tr tds (? & ? & ? & Hall).
    unfold row_of.
    rewrite set_last_tail_tag, set_last_tail_children, set_last_tail_getparent.
    do 3 (split; [done|]).
    eapply Forall_impl; [exact Hall|]. intros td [? ?].
    by rewrite set_last_tail_tag, set_last_tail_getparent. }
  split. { by rewrite set_last_tail_getparent, (ext_parent _ _ _ _ Hext3). }
  split; [done|].
  eapply extends_trans; [|exact Hext'|set_solver].
  eapply extends_trans; [exact Hext2|exact Hext3|]. set_solver.
Qed.

(** Assembling further tables leaves the tree an extension. *)
Lemma assemble_all_extends old rmap (items : list (xnode * list xnode)) d d' :
  for_each items (assemble rmap) d = Ok d' ->
  assembly_inv old d -> (∀ k b, rmap !! k = Some b -> b ∈ old) ->
  assembly_inv old d' ∧ extends old ∅ d d'.
Proof.
  intros Hrun Hinv Hrmap. revert d Hrun Hinv.
  induction items as [|[tbl blocks] items IH]; intros d Hrun Hinv; simpl in Hrun.
  - injection Hrun as <-. split; [done | apply extends_refl].
  - apply bind_Ok in Hrun as (d1 & Hstep & Hrun).
    destruct blocks as [|first rest].
    + injection Hstep as ->. by apply IH.
    + destruct (assemble_spec old rmap tbl first rest d d1 Hstep Hinv Hrmap)
        as (b & parent & idx & t & d2 & trs & tdss
            & _ & _ & _ & _ & _ & _ & _ & _ & _ & _ & _ & Hinv1 & Hext1).
      destruct (IH d1 Hrun Hinv1) as [Hinv' Hext'].
      split; [done|]. eapply extends_trans; [done..|]. set_solver.
Qed.

(** A finished table stays as it is. *)
Lemma table_of_extends old d d' t trs tdss :
  table_of d t trs tdss -> extends old ∅ d d' ->
  t ∉ old -> (∀ n, n ∈ created trs tdss -> n ∉ old) ->
  table_of d' t trs tdss.
Proof.
  intros (Htag & Hch & Hrows) Hext Htold Hnew.
  assert (Ht : t ∈ dom d) by by eapply tag_dom.
  split; [by rewrite (ext_tag _ _ _ _ Hext)|].
  split. { rewrite (ext_children _ _ _ _ Hext); [done..| |set_solver]. by rewrite Htag. }
  clear Hch. induction Hrows as [|tr tds trs tdss Hrow Hrows IH]; [done|].
  rewrite created_cons in Hnew. apply Forall2_cons. split.
  - eapply row_of_extends; [done..| | |].
    + apply Hnew. set_solver.
    + set_solver.
    + intros td Htd. apply Hnew. set_solver.
  - apply IH. intros n Hn. apply Hnew. set_solver.
Qed.

(** What [apply_markup] has built when it returns, for a tree that
    holds every block and in which every parent link leads to an element
    of the tree. *)
Lemma apply_markup_shape (self : Tables.t) (object_map : list (nat * xnode))
    (d d' : tree) (i : nat) (tbl : xnode) (blocks : list xnode) :
  let rmap := make_rmap object_map in
  (∀ k b, rmap !! k = Some b -> b ∈ dom d) ->
  (∀ n q, getparent d n = Some q -> q ∈ dom d) ->
  apply_markup self object_map d = Ok d' ->
  iteritems self !! i = Some (tbl, blocks) ->
  ∃ d1 d3,
    for_each (take i (iteritems self)) (assemble rmap) d = Ok d1 ∧
    assemble rmap d1 (tbl, blocks) = Ok d3 ∧
    match blocks with
    | [] => d3 = d1
    | first :: _ =>
        ∃ b parent idx t d2 trs tdss,
          rmap !! x_id first = Some b ∧ getparent d1 b = Some parent ∧
          list_index b (children d1 parent) = Some idx ∧
          insert_table rmap first d1 = Ok (t, d2) ∧
          children d2 parent
            = (take idx (children d1 parent) ++ t :: drop idx (children d1 parent))%list ∧
          Forall2 (fun tds row => length tds = length (XPath (Child "w:tc") row))
                  tdss (XPath (Child "w:tr") tbl) ∧
          NoDup (t :: created trs tdss) ∧
          (∀ n, n ∈ t :: created trs tdss -> n ∉ dom d1) ∧
          dom d3 = list_to_set (t :: created trs tdss) ∪ dom d1 ∧
          table_of d' t trs tdss ∧ getparent d' t = Some parent
    end.
Proof.
  intros rmap Hrmap Hparents Hrun Hi. unfold apply_markup in Hrun. fold rmap in Hrun.
  assert (Hinv : assembly_inv (dom d) d).
  { split; [done|]. intros n q _ Hq. left. by eapply Hparents. }
  rewrite <-(take_drop_middle _ _ _ Hi) in Hrun.
  rewrite for_each_app in Hrun. apply bind_Ok in Hrun as (d1 & Hpre & Hrun).
  simpl in Hrun. apply bind_Ok in Hrun as (d3 & Hstep & Hpost).
  destruct (assemble_all_extends (dom d) rmap _ d d1 Hpre Hinv Hrmap) as [Hinv1 Hext1].
  exists d1, d3. split; [done|]. split; [done|].
  destruct blocks as [|first rest]; [by injection Hstep as <-|].
  destruct (assemble_spec (dom d) rmap tbl first rest d1 d3 Hstep Hinv1 Hrmap)
    as (b & parent & idx & t & d2 & trs & tdss & Hb & Hp & Hidx & Hins & Hchp & Hlens
        & Hnd & Hnew & Hdom3 & Htable & Hgp & Hinv3 & Hext3).
  destruct (assemble_all_extends (dom d) rmap _ d3 d' Hpost Hinv3 Hrmap) as [Hinv' Hext'].
  assert (Hold : dom d ⊆ dom d1) by by destruct Hinv1.
  exists b, parent, idx, t, d2, trs, tdss.
  do 9 (split; [done|]). split.
  - eapply table_of_extends; [done..| |].
    + intros Hin. apply (Hnew t); set_solver.
    + intros n Hn Hin. apply (Hnew n); set_solver.
  - rewrite (ext_parent _ _ _ _ Hext'); [done| |].
    + rewrite Hdom3. set_solver.
    + intros Hin. apply (Hnew t); set_solver.
Qed.

End assembly_loops.

(** *** Assembly returns *)

Section assembly_returns.
Context {imports : Imports}.
Import Lxml Tables.
Implicit Types (d : tree) (n m q c a : nat) (rmap : gmap nat nat).

Lemma ancestor_trans d a b n :
  ancestor_or_same d a b -> ancestor_or_same d b n -> ancestor_or_same d a n.
Proof.
  intros Hab Hbn. induction Hbn as [|n p Hp _ IH]; [done|].
  eapply anc_up; eauto.
Qed.

(** The ancestors depend on the parent links only. *)
Lemma ancestor_ext d d' a n :
  (∀ m, getparent d' m = getparent d m) ->
  ancestor_or_same d a n -> ancestor_or_same d' a n.
Proof.
  intros Hsame Han. induction Han as [|n p Hp _ IH]; [apply anc_refl|].
  eapply anc_up; [by rewrite Hsame | done].
Qed.

(** An element nobody has as parent is above itself only. *)
Lemma ancestor_childless d a n :
  (∀ m, getparent d m ≠ Some a) -> ancestor_or_same d a n -> n = a.
Proof.
  intros Hnone Han. induction Han as [|n p Hp Han IH]; [done|].
  subst. by destruct (Hnone n).
Qed.

(** Ancestors after [c] has been given the parent [q]. *)
Lemma ancestor_reparent d d' c q a n :
  (∀ m, getparent d' m = if decide (m = c) then Some q else getparent d m) ->
  ¬ ancestor_or_same d c q ->
  ancestor_or_same d' a n ->
  ancestor_or_same d a n ∨
  (ancestor_or_same d c n ∧ (a = c ∨ ancestor_or_same d a q)).
Proof.
  intros Hpar Hcq Han. induction Han as [|n p Hp Han IH]; [left; apply anc_refl|].
  rewrite Hpar in Hp. destruct (decide (n = c)) as [->|Hne].
  - injection Hp as <-. right. split; [apply anc_refl|].
    destruct IH as [IH|[Hc _]]; [by right | done].
  - destruct IH as [IH|[Hc IH]].
    + left. by eapply anc_up.
    + right. split; [by eapply anc_up | done].
Qed.

Lemma up_path_ancestor d n l x : up_path d n l -> x ∈ l -> ancestor_or_same d x n.
Proof.
  induction 1 as [n|n p l Hp _ IH].
  - intros ->%list_elem_of_singleton. apply anc_refl.
  - intros [->|Hx]%elem_of_cons; [apply anc_refl|].
    eapply anc_up; eauto.
Qed.

Lemma up_path_NoDup d n l : forest d -> up_path d n l -> NoDup l.
Proof.
  intros [_ Hacyc]. induction 1 as [n|n p l Hp Hl IH].
  - apply NoDup_singleton.
  - apply NoDup_cons. split; [|done].
    intros Hn. eapply Hacyc; [done|]. by eapply up_path_ancestor.
Qed.

Lemma up_path_dom d n l : forest d -> n ∈ dom d -> up_path d n l -> ∀ x, x ∈ l -> x ∈ dom d.
Proof.
  intros [Hclosed _] Hn Hl. induction Hl as [n|n p l Hp Hl IH]; intros x.
  - by intros ->%list_elem_of_singleton.
  - intros [->|Hx]%elem_of_cons; [done|]. apply IH; [|done]. by eapply Hclosed.
Qed.

(** When the walk of [is_ancestor_or_same] answers [true] for an element
    that is not above [n], it has run out of fuel on a walk of that
    length. *)
Lemma is_ancestor_fuel fuel d a n :
  is_ancestor_or_same fuel d a n = true -> ¬ ancestor_or_same d a n ->
  ∃ l, length l = S fuel ∧ up_path d n l.
Proof.
  revert n. induction fuel as [|fuel IH]; intros n; simpl.
  - intros _ _. exists [n]. split; [done | apply up_one].
  - case_decide as Han; [subst; intros _ []; apply anc_refl|].
    destruct (getparent d n) as [p|] eqn:Hp; [|done].
    intros Hrec Hnot. destruct (IH p Hrec) as (l & Hlen & Hl).
    { intros Hap. apply Hnot. by eapply anc_up. }
    exists (n :: l). split; [by rewrite <-Hlen | by eapply up_step].
Qed.

(** In a forest the test of [append] is exact. *)
Lemma is_ancestor_exact d c q :
  forest d -> q ∈ dom d -> ¬ ancestor_or_same d c q ->
  is_ancestor_or_same (size d) d c q = false.
Proof.
  intros Hf Hq Hnot. destruct (is_ancestor_or_same _ _ _ _) eqn:Hanc; [|done].
  destruct (is_ancestor_fuel _ _ _ _ Hanc Hnot) as (l & Hlen & Hl).
  pose proof (up_path_NoDup _ _ _ Hf Hl) as Hnd.
  pose proof (up_path_dom _ _ _ Hf Hq Hl) as Hdom.
  assert (Hsub : list_to_set (C := gset nat) l ⊆ dom d).
  { intros x Hx%elem_of_list_to_set. by apply Hdom. }
  apply subseteq_size in Hsub.
  rewrite size_list_to_set, size_dom in Hsub by done. lia.
Qed.

Lemma append_returns d q c :
  forest d -> q ∈ dom d -> ¬ ancestor_or_same d c q ->
  ∃ d', append d q c = Ok d'.
Proof.
  intros Hf Hq Hnot. unfold append.
  rewrite (is_ancestor_exact _ _ _ Hf Hq Hnot). by eexists.
Qed.

Lemma forest_ext d d' :
  forest d -> dom d ⊆ dom d' -> (∀ m, getparent d' m = getparent d m) -> forest d'.
Proof.
  intros [Hclosed Hacyc] Hdom Hsame. split.
  - intros n p. rewrite Hsame. intros Hp. apply Hdom. by eapply Hclosed.
  - intros n p. rewrite Hsame. intros Hp Han. eapply Hacyc; [done|].
    eapply ancestor_ext; [|done]. intros m. by rewrite Hsame.
Qed.

Lemma no_parent_outside d n : forest d -> n ∉ dom d -> ∀ m, getparent d m ≠ Some n.
Proof. intros [Hclosed _] Hn m Hm. apply Hn. by eapply Hclosed. Qed.

(** One step of assembly gives the element [c] the parent [q]: [c] is
    a block moved into a cell, or an element just made. What it
    keeps. *)
Lemma reparent_step rmap d d' c q :
  forest d -> blocks_ok rmap d -> no_block_above rmap d q ->
  q ∈ dom d' -> dom d ⊆ dom d' ->
  (∀ m, getparent d' m = if decide (m = c) then Some q else getparent d m) ->
  c ∈ children d' q ->
  (∀ m x, x ≠ c -> x ∈ children d m -> x ∈ children d' m) ->
  ¬ ancestor_or_same d c q ->
  (∀ k b, rmap !! k = Some b -> ancestor_or_same d c b -> b = c) ->
  forest d' ∧ blocks_ok rmap d' ∧
  (∀ x, no_block_above rmap d x -> no_block_above rmap d' x) ∧
  ((∀ k, rmap !! k ≠ Some c) -> getparent d c = None -> no_block_above rmap d' c).
Proof.
  intros [Hclosed Hacyc] [Hlisted Hapart] Hq Hqd Hdom Hpar Hcq Hkeep Hnot Hbelow.
  pose proof (ancestor_reparent d d' c q) as Hanc.
  split; [|split; [|split]].
  - split.
    + intros n p. rewrite Hpar. case_decide; [by intros [= <-]|].
      intros Hp. apply Hdom. by eapply Hclosed.
    + intros n p. rewrite Hpar. case_decide as Hn.
      * subst. intros [= <-] Han.
        destruct (Hanc _ _ Hpar Hnot Han) as [?|[? _]]; done.
      * intros Hp Han. destruct (Hanc _ _ Hpar Hnot Han) as [?|[Hcp [->|Hnq]]].
        -- by eapply Hacyc.
        -- done.
        -- apply Hnot. eapply ancestor_trans; [|exact Hnq]. by eapply anc_up.
  - split.
    + intros k b Hb. rewrite Hpar. case_decide as Hbc.
      * subst. by exists q.
      * destruct (Hlisted k b Hb) as (p & Hp & Hin). exists p. split; [done|].
        by apply Hkeep.
    + intros k b k' b' Hb Hb' Han.
      destruct (Hanc _ _ Hpar Hnot Han) as [?|[Hcb' Hor]]; [by eapply Hapart|].
      apply (Hbelow _ _ Hb') in Hcb' as ->.
      destruct Hor as [->|Hbq]; [done|]. by destruct (Hq _ _ Hb Hbq).
  - intros x Hx k b Hb Han.
    destruct (Hanc _ _ Hpar Hnot Han) as [?|[Hcx [->|Hbq]]].
    + by eapply Hx.
    + by eapply Hx.
    + by eapply Hq.
  - intros Hnb Hnone k b Hb Han.
    destruct (Hanc _ _ Hpar Hnot Han) as [Hbc|[_ [->|Hbq]]].
    + inversion Hbc; subst; [by eapply Hnb | congruence].
    + by eapply Hnb.
    + by eapply Hq.
Qed.

Lemma block_in_dom rmap d k b : blocks_ok rmap d -> rmap !! k = Some b -> b ∈ dom d.
Proof.
  intros [Hlisted _] Hb. destruct (Hlisted k b Hb) as (p & Hp & _).
  by eapply getparent_dom.
Qed.

Lemma children_outside d n : n ∉ dom d -> children d n = [].
Proof.
  intros Hn. unfold children.
  destruct (d !! n) eqn:He; [|done]. destruct Hn. apply elem_of_dom. by eexists.
Qed.

Lemma getparent_outside d n : n ∉ dom d -> getparent d n = None.
Proof.
  intros Hn. destruct (getparent d n) eqn:Hp; [|done].
  by apply getparent_dom in Hp.
Qed.

(** Moving a block into a cell container that no block is above. *)
Lemma move_block_returns rmap d td k b :
  forest d -> blocks_ok rmap d -> no_block_above rmap d td -> td ∈ dom d ->
  rmap !! k = Some b ->
  ∃ d', append d td b = Ok d' ∧ dom d' = dom d ∧ forest d' ∧ blocks_ok rmap d' ∧
        (∀ x, no_block_above rmap d x -> no_block_above rmap d' x).
Proof.
  intros Hf Hbl Htd Htdd Hb.
  assert (Hnot : ¬ ancestor_or_same d b td) by by eapply Htd.
  destruct (append_returns d td b Hf Htdd Hnot) as [d' Happ].
  pose proof (append_dom _ _ _ _ Happ) as Hdom.
  pose proof (block_in_dom _ _ _ _ Hbl Hb) as Hbd.
  exists d'. split; [done|]. split; [done|].
  destruct (reparent_step rmap d d' b td) as (Hf' & Hbl' & Hna & _); try done.
  - by rewrite Hdom.
  - by rewrite Hdom.
  - intros m. rewrite (append_getparent _ _ _ _ _ Happ).
    case_decide; [by rewrite decide_True|done].
  - rewrite (append_children _ _ _ _ _ Happ), decide_True by done. set_solver.
  - intros m x Hx Hin. rewrite (append_children _ _ _ _ _ Happ).
    assert (x ∈ children (detach d b) m).
    { rewrite detach_children. case_decide; [|done].
      apply list_elem_of_filter. by split. }
    case_decide as Hm; [|done]. destruct Hm as [-> _]. set_solver.
  - intros k' b' Hb' Han. symmetry. by eapply (blocks_apart _ _ Hbl).
Qed.

(** An element made by the element maker and appended to [q]. *)
Lemma new_child_returns rmap name text s d q :
  let n := (E name text d).1 in
  forest d -> blocks_ok rmap d -> no_block_above rmap d q -> q ∈ dom d ->
  ∃ d', append (alter (set_tail s) n (E name text d).2) q n = Ok d' ∧
        dom d' = {[ n ]} ∪ dom d ∧ forest d' ∧ blocks_ok rmap d' ∧
        (∀ x, no_block_above rmap d x -> no_block_above rmap d' x) ∧
        no_block_above rmap d' n.
Proof.
  intros n Hf Hbl Hq Hqd.
  pose proof (E_fresh name text d) as Hfresh. fold n in Hfresh.
  set (d0 := alter (set_tail s) n (E name text d).2).
  assert (Hdom0 : dom d0 = {[ n ]} ∪ dom d).
  { unfold d0. by rewrite set_tail_dom, E_dom. }
  assert (Hgp0 : ∀ m, getparent d0 m = getparent d m).
  { intros m. unfold d0. rewrite set_tail_getparent, E_getparent.
    case_decide; [subst; by rewrite getparent_outside | done]. }
  assert (Hf0 : forest d0) by (eapply forest_ext; [done | set_solver | done]).
  pose proof (no_parent_outside d n Hf Hfresh) as Hchildless.
  assert (Hnot : ¬ ancestor_or_same d n q).
  { intros ->%ancestor_childless; done. }
  destruct (append_returns d0 q n) as [d' Happ]; [done | set_solver | |].
  { intros Han. apply Hnot. eapply ancestor_ext; [|exact Han]. done. }
  destruct (new_child _ _ _ _ _ _ Happ Hqd)
    as (_ & Hdom & Htag & Hch & Hgp & Hchq & Hsame & Hchsame).
  fold n in Hdom, Htag, Hch, Hgp, Hchq, Hsame, Hchsame.
  exists d'. split; [done|]. split; [done|].
  destruct (reparent_step rmap d d' n q) as (Hf' & Hbl' & Hna & Hnew); try done.
  - set_solver.
  - set_solver.
  - intros m. case_decide; [by subst | by apply Hsame].
  - rewrite Hchq. set_solver.
  - intros m x Hx Hin. destruct (decide (m = n)) as [->|Hmn].
    { rewrite children_outside in Hin by done. by apply elem_of_nil in Hin. }
    destruct (decide (m = q)) as [->|Hmq]; [rewrite Hchq; set_solver|].
    by rewrite Hchsame.
  - intros k b Hb Han. by eapply ancestor_childless.
  - do 3 (split; [done|]). apply Hnew; [|by apply getparent_outside].
    intros k Hk. apply Hfresh. by eapply block_in_dom.
Qed.

Lemma list_index_elem c (l : list nat) : c ∈ l -> is_Some (list_index c l).
Proof.
  induction l as [|x l IH]; simpl.
  - by intros ?%elem_of_nil.
  - intros Hin. case_decide; [by eexists|].
    destruct IH as [i ->]; [set_solver|]. by eexists.
Qed.

(** The parent of a block has no block above it. *)
Lemma no_block_above_parent rmap d k b p :
  forest d -> blocks_ok rmap d -> rmap !! k = Some b -> getparent d b = Some p ->
  no_block_above rmap d p.
Proof.
  intros [_ Hacyc] [_ Hapart] Hb Hp k' b' Hb' Han.
  assert (b' = b) as ->.
  { eapply Hapart; [done..|]. by eapply anc_up. }
  by eapply Hacyc.
Qed.

Lemma insert_table_returns old rmap first d :
  forest d -> blocks_ok rmap d -> assembly_inv old d ->
  (∀ k b, rmap !! k = Some b -> b ∈ old) ->
  is_Some (rmap !! x_id first) ->
  ∃ t d2, insert_table rmap first d = Ok (t, d2) ∧ t ∈ dom d2 ∧
    forest d2 ∧ blocks_ok rmap d2 ∧ no_block_above rmap d2 t.
Proof.
  intros Hf Hbl Hinv Hrmap [b Hb].
  destruct (blocks_listed _ _ Hbl _ _ Hb) as (parent & Hp & Hin).
  assert (∃ t d2, insert_table rmap first d = Ok (t, d2)) as (t & d2 & Hrun).
  { pose proof (E_fresh "table" (Some (nl ++ tab ++ tab)) d) as Hfresh.
    pose proof (E_children "table" (Some (nl ++ tab ++ tab)) d parent) as Hch1.
    unfold E in Hfresh, Hch1. simpl in Hfresh, Hch1.
    unfold insert_table, getitem. rewrite Hb. simpl. rewrite Hp.
    unfold index. rewrite Hch1, decide_False.
    - destruct (list_index_elem b _ Hin) as [idx ->]. simpl. by eexists _, _.
    - intros Heq. apply Hfresh. rewrite <-Heq.
      destruct Hf as [Hclosed _]. by eapply Hclosed. }
  exists t, d2. split; [done|].
  destruct (insert_table_spec old rmap first d t d2 Hrun Hinv Hrmap)
    as (b' & parent' & idx & Hb' & Hp' & Hidx & Hfresh & Hdom2 & Htag2 & Hch2 & Hgp2
        & Hchp & Hinv2 & Hext2 & Hsame & Hchsame).
  split; [set_solver|].
  assert (b' = b) as -> by congruence. assert (parent' = parent) as -> by congruence.
  assert (Hpd : parent ∈ dom d) by (destruct Hf as [Hclosed _]; by eapply Hclosed).
  pose proof (no_parent_outside d t Hf Hfresh) as Hchildless.
  destruct (reparent_step rmap d d2 t parent) as (Hf' & Hbl' & Hna & Hnew); try done.
  - by eapply no_block_above_parent.
  - set_solver.
  - set_solver.
  - intros m. case_decide; [by subst | by apply Hsame].
  - rewrite Hchp. set_solver.
  - intros m x Hx Hxin. destruct (decide (m = t)) as [->|Hmt].
    { rewrite children_outside in Hxin by done. by apply elem_of_nil in Hxin. }
    destruct (decide (m = parent)) as [->|Hmp]; [|by rewrite Hchsame].
    rewrite Hchp. rewrite <-(take_drop idx (children d parent)) in Hxin. set_solver.
  - intros ->%ancestor_childless; done.
  - intros k b' Hb'' Han. by eapply ancestor_childless.
  - do 2 (split; [done|]). apply Hnew; [|by apply getparent_outside].
    intros k Hk. apply Hfresh. by eapply block_in_dom.
Qed.

(** Setting a tail keeps all of this. *)
Lemma forest_blocks_ext rmap d d' :
  dom d' = dom d -> (∀ m, getparent d' m = getparent d m) ->
  (∀ m, children d' m = children d m) ->
  forest d -> blocks_ok rmap d ->
  forest d' ∧ blocks_ok rmap d' ∧
  (∀ x, no_block_above rmap d x -> no_block_above rmap d' x).
Proof.
  intros Hdom Hgp Hch Hf [Hlisted Hapart].
  assert (Hback : ∀ a n, ancestor_or_same d' a n -> ancestor_or_same d a n).
  { intros a n. apply ancestor_ext. intros m. by rewrite Hgp. }
  split; [eapply forest_ext; [done | by rewrite Hdom | done]|]. split; [split|].
  - intros k b Hb. rewrite Hgp. destruct (Hlisted k b Hb) as (p & ? & ?).
    exists p. by rewrite Hch.
  - intros k b k' b' Hb Hb' Han. eapply Hapart; eauto.
  - intros x Hx k b Hb Han. eapply Hx; eauto.
Qed.

Lemma set_last_tail_returns rmap d n s :
  forest d -> blocks_ok rmap d ->
  forest (set_last_tail d n s) ∧ blocks_ok rmap (set_last_tail d n s) ∧
  (∀ x, no_block_above rmap d x -> no_block_above rmap (set_last_tail d n s) x).
Proof.
  apply forest_blocks_ext.
  - apply set_last_tail_dom.
  - intros m. apply set_last_tail_getparent.
  - intros m. apply set_last_tail_children.
Qed.

(** The loop over the paragraphs of a cell returns. *)
Lemma move_blocks_returns rmap td (ps : list xnode) d :
  forest d -> blocks_ok rmap d -> no_block_above rmap d td -> td ∈ dom d ->
  (∀ p, p ∈ ps -> is_Some (rmap !! x_id p)) ->
  ∃ d', for_each ps (fun d p => block ← getitem rmap p; append d td block) d = Ok d' ∧
        dom d' = dom d ∧ forest d' ∧ blocks_ok rmap d' ∧
        (∀ x, no_block_above rmap d x -> no_block_above rmap d' x).
Proof.
  revert d. induction ps as [|p ps IH]; intros d Hf Hbl Htd Htdd Hps; simpl.
  - by exists d.
  - destruct (Hps p) as [b Hb]; [set_solver|].
    destruct (move_block_returns rmap d td _ b Hf Hbl Htd Htdd Hb)
      as (d1 & Happ & Hdom1 & Hf1 & Hbl1 & Hna1).
    assert (getitem rmap p = Ok b) as -> by (unfold getitem; by rewrite Hb).
    simpl. rewrite Happ. simpl.
    destruct (IH d1) as (d' & Hrun & Hdom' & Hf' & Hbl' & Hna'); try done.
    + by apply Hna1.
    + by rewrite Hdom1.
    + intros p' Hp'. apply Hps. set_solver.
    + exists d'. split; [done|]. split; [by rewrite Hdom', Hdom1|].
      do 2 (split; [done|]). intros x Hx. by apply Hna', Hna1.
Qed.

Lemma add_cell_returns rmap tr d tc :
  forest d -> blocks_ok rmap d -> no_block_above rmap d tr -> tr ∈ dom d ->
  (∀ p, p ∈ XPath (Child "w:p") tc -> is_Some (rmap !! x_id p)) ->
  ∃ d', add_cell rmap tr d tc = Ok d' ∧
        dom d ⊆ dom d' ∧ forest d' ∧ blocks_ok rmap d' ∧
        (∀ x, no_block_above rmap d x -> no_block_above rmap d' x).
Proof.
  intros Hf Hbl Htr Htrd Hps. unfold add_cell.
  pose proof (new_child_returns rmap "td" None (nl ++ tab ++ tab ++ tab) d tr
                Hf Hbl Htr Htrd) as Hnew.
  destruct (E "td" None d) as [td d0]. cbn [fst snd] in Hnew.
  destruct Hnew as (d1 & Happ & Hdom1 & Hf1 & Hbl1 & Hna1 & Htd1).
  rewrite Happ. simpl.
  destruct (move_blocks_returns rmap td (XPath (Child "w:p") tc) d1 Hf1 Hbl1 Htd1) as
    (d' & Hrun & Hdom' & Hf' & Hbl' & Hna'); [set_solver | done |].
  exists d'. split; [done|]. split; [set_solver|].
  do 2 (split; [done|]). intros x Hx. by apply Hna', Hna1.
Qed.

Lemma add_cells_returns rmap tr (tcs : list xnode) d :
  forest d -> blocks_ok rmap d -> no_block_above rmap d tr -> tr ∈ dom d ->
  (∀ tc p, tc ∈ tcs -> p ∈ XPath (Child "w:p") tc -> is_Some (rmap !! x_id p)) ->
  ∃ d', for_each tcs (add_cell rmap tr) d = Ok d' ∧
        dom d ⊆ dom d' ∧ forest d' ∧ blocks_ok rmap d' ∧
        (∀ x, no_block_above rmap d x -> no_block_above rmap d' x).
Proof.
  revert d. induction tcs as [|tc tcs IH]; intros d Hf Hbl Htr Htrd Hps; simpl.
  - by exists d.
  - destruct (add_cell_returns rmap tr d tc Hf Hbl Htr Htrd)
      as (d1 & Hcell & Hdom1 & Hf1 & Hbl1 & Hna1).
    { intros p Hp. eapply Hps; [|done]. set_solver. }
    rewrite Hcell. simpl.
    destruct (IH d1) as (d' & Hrun & Hdom' & Hf' & Hbl' & Hna'); try done.
    + by apply Hna1.
    + set_solver.
    + intros tc' p Htc' Hp. eapply Hps; [|done]. set_solver.
    + exists d'. split; [done|]. split; [set_solver|].
      do 2 (split; [done|]). intros x Hx. by apply Hna', Hna1.
Qed.

Lemma add_row_returns rmap table d row :
  forest d -> blocks_ok rmap d -> no_block_above rmap d table -> table ∈ dom d ->
  (∀ tc p, tc ∈ XPath (Child "w:tc") row -> p ∈ XPath (Child "w:p") tc ->
           is_Some (rmap !! x_id p)) ->
  ∃ d', add_row rmap table d row = Ok d' ∧
        dom d ⊆ dom d' ∧ forest d' ∧ blocks_ok rmap d' ∧
        (∀ x, no_block_above rmap d x -> no_block_above rmap d' x).
Proof.
  intros Hf Hbl Ht Htd Hps. unfold add_row.
  pose proof (new_child_returns rmap "tr" (Some (nl ++ tab ++ tab ++ tab))
                (nl ++ tab ++ tab) d table Hf Hbl Ht Htd) as Hnew.
  destruct (E "tr" (Some (nl ++ tab ++ tab ++ tab)) d) as [tr d0].
  cbn [fst snd] in Hnew.
  destruct Hnew as (d1 & Happ & Hdom1 & Hf1 & Hbl1 & Hna1 & Htr1).
  rewrite Happ. simpl.
  destruct (add_cells_returns rmap tr (XPath (Child "w:tc") row) d1 Hf1 Hbl1 Htr1) as
    (d2 & Hrun & Hdom2 & Hf2 & Hbl2 & Hna2); [set_solver | done |].
  rewrite Hrun. simpl.
  destruct (set_last_tail_returns rmap d2 tr (nl ++ tab ++ tab) Hf2 Hbl2)
    as (Hf' & Hbl' & Hna').
  eexists. split; [done|]. split; [rewrite set_last_tail_dom; set_solver|].
  do 2 (split; [done|]). intros x Hx. by apply Hna', Hna2, Hna1.
Qed.

Lemma add_rows_returns rmap table (rows : list xnode) d :
  forest d -> blocks_ok rmap d -> no_block_above rmap d table -> table ∈ dom d ->
  (∀ row tc p, row ∈ rows -> tc ∈ XPath (Child "w:tc") row ->
               p ∈ XPath (Child "w:p") tc -> is_Some (rmap !! x_id p)) ->
  ∃ d', for_each rows (add_row rmap table) d = Ok d' ∧
        forest d' ∧ blocks_ok rmap d'.
Proof.
  revert d. induction rows as [|row rows IH]; intros d Hf Hbl Ht Htd Hps; simpl.
  - by exists d.
  - destruct (add_row_returns rmap table d row Hf Hbl Ht Htd)
      as (d1 & Hrow & Hdom1 & Hf1 & Hbl1 & Hna1).
    { intros tc p Htc Hp. eapply Hps; [|done..]. set_solver. }
    rewrite Hrow. simpl. apply IH; try done.
    + by apply Hna1.
    + set_solver.
    + intros row' tc p Hrow' Htc Hp. eapply Hps; [|done..]. set_solver.
Qed.

(** The body of [apply_markup] returns. *)
Lemma assemble_returns old rmap d (item : xnode * list xnode) :
  forest d -> blocks_ok rmap d -> assembly_inv old d ->
  (∀ k b, rmap !! k = Some b -> b ∈ old) ->
  item_mapped rmap item ->
  ∃ d', assemble rmap d item = Ok d' ∧
        forest d' ∧ blocks_ok rmap d' ∧ assembly_inv old d'.
Proof.
  intros Hf Hbl Hinv Hrmap Hmapped. destruct item as [tbl [|first rest]].
  { by exists d. }
  destruct Hmapped as [Hfirst Hall]. simpl in Hfirst, Hall.
  assert (Hps : ∀ row tc p, row ∈ XPath (Child "w:tr") tbl ->
                  tc ∈ XPath (Child "w:tc") row -> p ∈ XPath (Child "w:p") tc ->
                  is_Some (rmap !! x_id p)).
  { intros row tc p Hrow Htc Hp. rewrite Forall_forall in Hall.
    specialize (Hall row Hrow). rewrite Forall_forall in Hall.
    specialize (Hall tc Htc). rewrite Forall_forall in Hall. by apply Hall. }
  destruct (insert_table_returns old rmap first d Hf Hbl Hinv Hrmap Hfirst)
    as (t & d2 & Hins & Ht2 & Hf2 & Hbl2 & Hna2).
  destruct (add_rows_returns rmap t (XPath (Child "w:tr") tbl) d2 Hf2 Hbl2 Hna2 Ht2 Hps)
    as (d3 & Hrows & Hf3 & Hbl3).
  destruct (set_last_tail_returns rmap d3 t (nl ++ tab) Hf3 Hbl3) as (Hf' & Hbl' & _).
  assert (Hrun : assemble rmap d (tbl, first :: rest)
                 = Ok (set_last_tail d3 t (nl ++ tab))).
  { unfold assemble. rewrite Hins. simpl. by rewrite Hrows. }
  eexists. split; [exact Hrun|]. do 2 (split; [done|]).
  destruct (assemble_spec old rmap tbl first rest d _ Hrun Hinv Hrmap)
    as (b & parent & idx & t' & d2' & trs & tdss
        & _ & _ & _ & _ & _ & _ & _ & _ & _ & _ & _ & Hinv' & _).
  done.
Qed.

Lemma assemble_all_returns old rmap (items : list (xnode * list xnode)) d :
  forest d -> blocks_ok rmap d -> assembly_inv old d ->
  (∀ k b, rmap !! k = Some b -> b ∈ old) ->
  Forall (item_mapped rmap) items ->
  ∃ d', for_each items (assemble rmap) d = Ok d'.
Proof.
  intros Hf Hbl Hinv Hrmap Hitems. revert d Hf Hbl Hinv.
  induction Hitems as [|item items Hitem _ IH]; intros d Hf Hbl Hinv; simpl.
  - by exists d.
  - destruct (assemble_returns old rmap d item Hf Hbl Hinv Hrmap Hitem)
      as (d1 & -> & Hf1 & Hbl1 & Hinv1).
    simpl. by apply IH.
Qed.

End assembly_returns.

(** *** The place of the table *)

Lemma filter_ext_elem {A} (P Q : A -> Prop) `{!∀ x, Decision (P x), !∀ x, Decision (Q x)}
    (l : list A) :
  (∀ x, x ∈ l -> P x ↔ Q x) -> filter P l = filter Q l.
Proof.
  induction l as [|a l IH]; intros Hext; [done|].
  rewrite !filter_cons, IH by (intros x Hx; apply Hext; set_solver).
  destruct (decide (P a)) as [Hp|Hp], (decide (Q a)) as [Hq|Hq]; try done.
  - destruct Hq. apply Hext; [set_solver | done].
  - destruct Hp. apply Hext; [set_solver | done].
Qed.

Lemma for_each_ext_in {A S} (f g : S -> A -> result S) (xs : list A) (s : S) :
  (∀ s x, x ∈ xs -> f s x = g s x) -> for_each xs f s = for_each xs g s.
Proof.
  revert s. induction xs as [|x xs IH]; intros s Hfg; simpl; [done|].
  rewrite Hfg by set_solver. destruct (g s x); simpl; [|done].
  apply IH. intros s' x' Hx'. apply Hfg. set_solver.
Qed.

Section placement.
Context {imports : Imports}.
Import Lxml Tables.
Implicit Types (d : tree) (n m q c t : nat) (old : gset nat) (rmap : gmap nat nat)
  (L : list nat).

Lemma placed_same L t q d d' :
  children d' q = children d q -> placed L t q d -> placed L t q d'.
Proof. unfold placed, in_order_of. by intros ->. Qed.

(** [c] is taken out of the children of [q]. *)
Lemma placed_remove L t q d d' c :
  children d' q = filter (fun x => x ≠ c) (children d q) -> c ≠ t ->
  placed L t q d -> placed L t q d'.
Proof.
  intros Hch Hct [Ht Hord]. unfold placed, in_order_of. rewrite Hch. split.
  - by apply list_elem_of_filter.
  - transitivity (filter (fun x => x ≠ c) (filter (fun x => x ∈ L) (children d q))).
    { rewrite !list_filter_filter. apply list_filter_iff. naive_solver. }
    rewrite Hord, list_filter_filter. apply list_filter_iff. intros x.
    rewrite list_elem_of_filter. naive_solver.
Qed.

(** A new element is put among the children of [q]. *)
Lemma placed_insert L t q d d' c (j : nat) :
  children d' q = (take j (children d q) ++ c :: drop j (children d q))%list ->
  c ∉ L -> placed L t q d -> placed L t q d'.
Proof.
  intros Hch HcL [Ht Hord]. unfold placed, in_order_of. rewrite Hch.
  assert (Hin : ∀ x, x ∈ (take j (children d q) ++ c :: drop j (children d q))%list
                     ↔ x = c ∨ x ∈ children d q).
  { intros x. rewrite <- (take_drop j (children d q)) at 3.
    rewrite !elem_of_app, elem_of_cons. naive_solver. }
  split; [apply Hin; by right|].
  rewrite filter_app, filter_cons_False, <- filter_app, take_drop, Hord by done.
  apply filter_ext_elem. intros x Hx. rewrite Hin. split; [by right|].
  intros [->|?]; done.
Qed.

Lemma detach_children_sub d c m x : x ∈ children (detach d c) m -> x ∈ children d m.
Proof.
  rewrite detach_children. case_decide; [|done]. by intros [_ ?]%list_elem_of_filter.
Qed.

Lemma append_closed d d' q0 c :
  append d q0 c = Ok d' -> c ∈ dom d -> children_closed d -> children_closed d'.
Proof.
  intros Happ Hc Hcl m x. rewrite (append_children _ _ _ _ m Happ), (append_dom _ _ _ _ Happ).
  case_decide.
  - intros [Hx| ->%list_elem_of_singleton]%elem_of_app; [|done].
    eapply Hcl. by eapply detach_children_sub.
  - intros Hx. eapply Hcl. by eapply detach_children_sub.
Qed.

Lemma append_placed L t q d d' q0 c :
  append d q0 c = Ok d' -> q0 ≠ q -> c ≠ t -> placed L t q d -> placed L t q d'.
Proof.
  intros Happ Hq Hc.
  pose proof (append_children _ _ _ _ q Happ) as Hch.
  rewrite decide_False, detach_children in Hch by naive_solver.
  case_decide; [by apply (placed_remove L t q d d' c) | by apply placed_same].
Qed.

(** An element made by the element maker and appended to [q0]. *)
Lemma new_child_placed name text s d q0 d' :
  let n := (E name text d).1 in
  append (alter (set_tail s) n (E name text d).2) q0 n = Ok d' ->
  q0 ∈ dom d -> children_closed d ->
  children_closed d' ∧
  ∀ L t q, q ∈ dom d -> q ≠ q0 -> placed L t q d -> placed L t q d'.
Proof.
  intros n Happ Hq0 Hcl.
  destruct (new_child _ _ _ _ _ _ Happ Hq0)
    as (Hfresh & Hdom & Htag & Hch & Hgp & Hchq & Hsame & Hchsame).
  fold n in Hfresh, Hdom, Htag, Hch, Hgp, Hchq, Hsame, Hchsame.
  split.
  - intros m x. rewrite Hdom. destruct (decide (m = n)) as [->|Hmn].
    { rewrite Hch. by intros ?%elem_of_nil. }
    destruct (decide (m = q0)) as [->|Hmq].
    + rewrite Hchq. intros [Hx| ->%list_elem_of_singleton]%elem_of_app; [|set_solver].
      apply elem_of_union. right. by eapply Hcl.
    + rewrite Hchsame by done. intros Hx. apply elem_of_union. right. by eapply Hcl.
  - intros L t q Hq Hqq0. apply placed_same, Hchsame; [|done]. by intros ->.
Qed.

Lemma move_blocks_placed rmap td (ps : list xnode) d d' :
  for_each ps (fun d p => block ← getitem rmap p; append d td block) d = Ok d' ->
  (∀ k b, rmap !! k = Some b -> b ∈ dom d) -> children_closed d ->
  dom d' = dom d ∧ children_closed d' ∧
  ∀ L t q, q ≠ td -> (∀ k, rmap !! k ≠ Some t) -> placed L t q d -> placed L t q d'.
Proof.
  revert d. induction ps as [|p ps IH]; intros d Hrun Hrmap Hcl; simpl in Hrun.
  { injection Hrun as <-. done. }
  apply bind_Ok in Hrun as (d1 & Hstep & Hrun).
  apply bind_Ok in Hstep as (b & Hb & Happ).
  unfold getitem in Hb. destruct (rmap !! x_id p) as [b'|] eqn:Hp; [|done].
  injection Hb as ->.
  pose proof (append_dom _ _ _ _ Happ) as Hdom1.
  destruct (IH d1 Hrun) as (Hdom' & Hcl' & Hpl').
  { intros k b0 Hb0. rewrite Hdom1. by eapply Hrmap. }
  { eapply append_closed; [done | by eapply Hrmap | done]. }
  split; [by rewrite Hdom', Hdom1|]. split; [done|].
  intros L t q Hq Ht Hpl. apply Hpl'; [done..|].
  eapply append_placed; [done | done | | done]. intros ->. by eapply Ht.
Qed.

Lemma add_cell_placed rmap tr d tc d' :
  add_cell rmap tr d tc = Ok d' ->
  (∀ k b, rmap !! k = Some b -> b ∈ dom d) -> tr ∈ dom d -> children_closed d ->
  dom d ⊆ dom d' ∧ children_closed d' ∧
  ∀ L t q, q ∈ dom d -> q ≠ tr -> (∀ k, rmap !! k ≠ Some t) ->
           placed L t q d -> placed L t q d'.
Proof.
  unfold add_cell. intros Hrun Hrmap Htr Hcl.
  pose proof (new_child "td" None (nl ++ tab ++ tab ++ tab) d tr) as Hnew.
  pose proof (new_child_placed "td" None (nl ++ tab ++ tab ++ tab) d tr) as Hnewp.
  destruct (E "td" None d) as [td d0]. cbn [fst snd] in Hnew, Hnewp.
  apply bind_Ok in Hrun as (d1 & Happ & Hloop).
  destruct (Hnew d1 Happ Htr) as (Hfresh & Hdom1 & _).
  destruct (Hnewp d1 Happ Htr Hcl) as (Hcl1 & Hpl1).
  destruct (move_blocks_placed rmap td _ d1 d' Hloop) as (Hdom' & Hcl' & Hpl'); [|done|].
  { intros k b Hb. rewrite Hdom1. apply elem_of_union. right. by eapply Hrmap. }
  split; [set_solver|]. split; [done|].
  intros L t q Hq Hqtr Ht Hpl. apply Hpl'; [by intros -> | done |]. by apply Hpl1.
Qed.

Lemma add_cells_placed rmap tr (tcs : list xnode) d d' :
  for_each tcs (add_cell rmap tr) d = Ok d' ->
  (∀ k b, rmap !! k = Some b -> b ∈ dom d) -> tr ∈ dom d -> children_closed d ->
  dom d ⊆ dom d' ∧ children_closed d' ∧
  ∀ L t q, q ∈ dom d -> q ≠ tr -> (∀ k, rmap !! k ≠ Some t) ->
           placed L t q d -> placed L t q d'.
Proof.
  revert d. induction tcs as [|tc tcs IH]; intros d Hrun Hrmap Htr Hcl; simpl in Hrun.
  { injection Hrun as <-. done. }
  apply bind_Ok in Hrun as (d1 & Hstep & Hrun).
  destruct (add_cell_placed rmap tr d tc d1 Hstep Hrmap Htr Hcl) as (Hdom1 & Hcl1 & Hpl1).
  destruct (IH d1 Hrun) as (Hdom' & Hcl' & Hpl'); [| set_solver | done |].
  { intros k b Hb. apply Hdom1. by eapply Hrmap. }
  split; [set_solver|]. split; [done|].
  intros L t q Hq Hqtr Ht Hpl. apply Hpl'; [set_solver | done | done |]. by apply Hpl1.
Qed.

Lemma set_last_tail_placed L t q d n s :
  placed L t q d -> placed L t q (set_last_tail d n s).
Proof. apply placed_same, set_last_tail_children. Qed.

Lemma set_last_tail_closed d n s :
  children_closed d -> children_closed (set_last_tail d n s).
Proof.
  intros Hcl m x. rewrite set_last_tail_children, set_last_tail_dom. apply Hcl.
Qed.

Lemma add_row_placed rmap table d row d' :
  add_row rmap table d row = Ok d' ->
  (∀ k b, rmap !! k = Some b -> b ∈ dom d) -> table ∈ dom d -> children_closed d ->
  dom d ⊆ dom d' ∧ children_closed d' ∧
  ∀ L t q, q ∈ dom d -> q ≠ table -> (∀ k, rmap !! k ≠ Some t) ->
           placed L t q d -> placed L t q d'.
Proof.
  unfold add_row. intros Hrun Hrmap Ht Hcl.
  pose proof (new_child "tr" (Some (nl ++ tab ++ tab ++ tab)) (nl ++ tab ++ tab) d table)
    as Hnew.
  pose proof (new_child_placed "tr" (Some (nl ++ tab ++ tab ++ tab)) (nl ++ tab ++ tab)
                d table) as Hnewp.
  destruct (E "tr" (Some (nl ++ tab ++ tab ++ tab)) d) as [tr d0].
  cbn [fst snd] in Hnew, Hnewp.
  apply bind_Ok in Hrun as (d1 & Happ & Hrun).
  apply bind_Ok in Hrun as (d2 & Hcells & Hrun). injection Hrun as <-.
  destruct (Hnew d1 Happ Ht) as (Hfresh & Hdom1 & _).
  destruct (Hnewp d1 Happ Ht Hcl) as (Hcl1 & Hpl1).
  destruct (add_cells_placed rmap tr _ d1 d2 Hcells) as (Hdom2 & Hcl2 & Hpl2);
    [| set_solver | done |].
  { intros k b Hb. rewrite Hdom1. apply elem_of_union. right. by eapply Hrmap. }
  split; [rewrite set_last_tail_dom; set_solver|].
  split; [by apply set_last_tail_closed|].
  intros L t q Hq Hqt Hblock Hpl. apply set_last_tail_placed.
  apply Hpl2; [set_solver | by intros -> | done |]. by apply Hpl1.
Qed.

Lemma add_rows_placed rmap table (rows : list xnode) d d' :
  for_each rows (add_row rmap table) d = Ok d' ->
  (∀ k b, rmap !! k = Some b -> b ∈ dom d) -> table ∈ dom d -> children_closed d ->
  dom d ⊆ dom d' ∧ children_closed d' ∧
  ∀ L t q, q ∈ dom d -> q ≠ table -> (∀ k, rmap !! k ≠ Some t) ->
           placed L t q d -> placed L t q d'.
Proof.
  revert d. induction rows as [|row rows IH]; intros d Hrun Hrmap Ht Hcl; simpl in Hrun.
  { injection Hrun as <-. done. }
  apply bind_Ok in Hrun as (d1 & Hstep & Hrun).
  destruct (add_row_placed rmap table d row d1 Hstep Hrmap Ht Hcl) as (Hdom1 & Hcl1 & Hpl1).
  destruct (IH d1 Hrun) as (Hdom' & Hcl' & Hpl'); [| set_solver | done |].
  { intros k b Hb. apply Hdom1. by eapply Hrmap. }
  split; [set_solver|]. split; [done|].
  intros L t q Hq Hqt Hblock Hpl. apply Hpl'; [set_solver | done | done |]. by apply Hpl1.
Qed.

(** The table element is put in: from then on it stands where it was
    put. *)
Lemma insert_table_placed old rmap first d t d2 :
  insert_table rmap first d = Ok (t, d2) ->
  assembly_inv old d -> (∀ k b, rmap !! k = Some b -> b ∈ old) -> children_closed d ->
  children_closed d2 ∧
  (∀ q, t ∈ children d2 q -> q ∈ dom d ∧ placed (children d2 q) t q d2) ∧
  ∀ L t0 q, q ∈ dom d -> (∀ x, x ∈ L -> x ∈ dom d) ->
            placed L t0 q d -> placed L t0 q d2.
Proof.
  intros Hins Hinv Hrmap Hcl.
  destruct (insert_table_spec old rmap first d t d2 Hins Hinv Hrmap)
    as (b & parent & idx & Hb & Hp & Hidx & Hfresh & Hdom2 & Htag2 & Hch2 & Hgp2
        & Hchp & Hinv2 & Hext2 & Hsame & Hchsame).
  assert (Hpt : parent ≠ t).
  { intros ->. rewrite Hch2 in Hchp. by destruct (take idx (children d t)). }
  assert (Hpd : parent ∈ dom d).
  { destruct (decide (parent ∈ dom d2)) as [Hin|Hout]; [set_solver|].
    rewrite (children_outside _ _ Hout) in Hchp.
    by destruct (take idx (children d parent)). }
  assert (Hsub : ∀ m x, x ∈ children d2 m -> x = t ∨ x ∈ children d m).
  { intros m x. destruct (decide (m = t)) as [->|Hmt].
    { rewrite Hch2. by intros ?%elem_of_nil. }
    destruct (decide (m = parent)) as [->|Hmp]; [|rewrite Hchsame by done; by right].
    rewrite Hchp. rewrite <- (take_drop idx (children d parent)) at 3.
    rewrite !elem_of_app, elem_of_cons. naive_solver. }
  split; [|split].
  - intros m x Hx. rewrite Hdom2. destruct (Hsub m x Hx) as [->|Hin]; [set_solver|].
    apply elem_of_union. right. by eapply Hcl.
  - intros q Hq. destruct (decide (q = parent)) as [->|Hqp].
    + split; [done|]. split; [done | reflexivity].
    + destruct (Hsub q t Hq) as [_|Hin]; [|destruct Hfresh; by eapply Hcl].
      destruct (decide (q = t)) as [->|Hqt].
      * rewrite Hch2 in Hq. by apply elem_of_nil in Hq.
      * rewrite Hchsame in Hq by done. destruct Hfresh. by eapply Hcl.
  - intros L t0 q Hq HL Hpl. destruct (decide (q = parent)) as [->|Hqp].
    + eapply placed_insert; [exact Hchp | | done]. intros Hin%HL. done.
    + eapply placed_same; [|done]. apply Hchsame; [|done]. by intros ->.
Qed.

(** The turn of a table. *)
Lemma assemble_placed old rmap d item d' :
  assemble rmap d item = Ok d' ->
  assembly_inv old d -> (∀ k b, rmap !! k = Some b -> b ∈ old) -> children_closed d ->
  children_closed d' ∧
  ∀ L t q, q ∈ dom d -> (∀ x, x ∈ L -> x ∈ dom d) -> t ∉ old ->
           placed L t q d -> placed L t q d'.
Proof.
  destruct item as [tbl [|first rest]]; intros Hrun Hinv Hrmap Hcl.
  { by injection Hrun as <-. }
  unfold assemble in Hrun.
  apply bind_Ok in Hrun as ([t' d2] & Hins & Hrun).
  apply bind_Ok in Hrun as (d3 & Hrows & Hrun). injection Hrun as <-.
  destruct (insert_table_spec old rmap first d t' d2 Hins Hinv Hrmap)
    as (_ & _ & _ & _ & _ & _ & Hfresh & Hdom2 & _).
  destruct (insert_table_placed old rmap first d t' d2 Hins Hinv Hrmap Hcl)
    as (Hcl2 & _ & Hpl2).
  assert (Hold : old ⊆ dom d) by by destruct Hinv.
  destruct (add_rows_placed rmap t' _ d2 d3 Hrows) as (Hdom3 & Hcl3 & Hpl3);
    [| set_solver | done |].
  { intros k b Hb. rewrite Hdom2. apply elem_of_union. right. apply Hold. by eapply Hrmap. }
  split; [by apply set_last_tail_closed|].
  intros L t q Hq HL Ht Hpl. apply set_last_tail_placed.
  apply Hpl3; [set_solver | by intros -> | |by apply Hpl2].
  intros k Hk. apply Ht. by eapply Hrmap.
Qed.

(** The turns of several tables. *)
Lemma assemble_all_placed old rmap (items : list (xnode * list xnode)) d d' :
  for_each items (assemble rmap) d = Ok d' ->
  assembly_inv old d -> (∀ k b, rmap !! k = Some b -> b ∈ old) -> children_closed d ->
  children_closed d' ∧
  ∀ L t q, q ∈ dom d -> (∀ x, x ∈ L -> x ∈ dom d) -> t ∉ old ->
           placed L t q d -> placed L t q d'.
Proof.
  intros Hrun Hinv Hrmap. revert d Hrun Hinv.
  induction items as [|item items IH]; intros d Hrun Hinv Hcl; simpl in Hrun.
  { by injection Hrun as <-. }
  apply bind_Ok in Hrun as (d1 & Hstep & Hrun).
  destruct (assemble_all_extends old rmap [item] d d1) as [Hinv1 Hext1]; [|done..|].
  { simpl. by rewrite Hstep. }
  destruct (assemble_placed old rmap d item d1 Hstep Hinv Hrmap Hcl) as (Hcl1 & Hpl1).
  destruct (IH d1 Hrun Hinv1 Hcl1) as (Hcl' & Hpl').
  assert (Hdom : dom d ⊆ dom d1) by by destruct Hext1.
  split; [done|].
  intros L t q Hq HL Ht Hpl. apply Hpl'; [set_solver | set_solver | done |].
  by apply Hpl1.
Qed.

(** The place of the table in the tree [apply_markup] returns. *)
Lemma apply_markup_place (self : Tables.t) (object_map : list (nat * xnode))
    (d d' : tree) (i : nat) (tbl first : xnode) (rest : list xnode) d1 t d2 parent :
  let rmap := make_rmap object_map in
  (∀ k b, rmap !! k = Some b -> b ∈ dom d) ->
  (∀ n q, getparent d n = Some q -> q ∈ dom d) ->
  children_closed d ->
  apply_markup self object_map d = Ok d' ->
  iteritems self !! i = Some (tbl, first :: rest) ->
  for_each (take i (iteritems self)) (assemble rmap) d = Ok d1 ->
  insert_table rmap first d1 = Ok (t, d2) ->
  t ∈ children d2 parent ->
  placed (children d2 parent) t parent d'.
Proof.
  intros rmap Hrmap Hparents Hcl Hrun Hi Hpre Hins Htp.
  unfold apply_markup in Hrun. fold rmap in Hrun.
  assert (Hinv : assembly_inv (dom d) d).
  { split; [done|]. intros n q _ Hq. left. by eapply Hparents. }
  rewrite <-(take_drop_middle _ _ _ Hi) in Hrun.
  rewrite for_each_app, Hpre in Hrun. cbn [for_each mbind result_bind] in Hrun.
  apply bind_Ok in Hrun as (d3 & Hstep & Hpost).
  destruct (assemble_all_extends (dom d) rmap _ d d1 Hpre Hinv Hrmap) as [Hinv1 Hext1].
  destruct (assemble_all_placed (dom d) rmap _ d d1 Hpre Hinv Hrmap Hcl) as [Hcl1 _].
  destruct (assemble_spec (dom d) rmap tbl first rest d1 d3 Hstep Hinv1 Hrmap)
    as (b & parent' & idx & t' & d2' & trs & tdss & _ & _ & _ & Hins' & _ & _
        & _ & Hnew & Hdom3 & _ & _ & Hinv3 & _).
  rewrite Hins in Hins'.
  assert (t' = t ∧ d2' = d2) as [-> ->] by (split; congruence).
  destruct (insert_table_spec (dom d) rmap first d1 t d2 Hins Hinv1 Hrmap)
    as (_ & _ & _ & _ & _ & _ & Hfresh & Hdom2 & _).
  destruct (insert_table_placed (dom d) rmap first d1 t d2 Hins Hinv1 Hrmap Hcl1)
    as (Hcl2 & Hput & _).
  destruct (Hput parent Htp) as [Hpd Hpl2].
  assert (Hold : dom d ⊆ dom d1) by by destruct Hinv1.
  assert (Htold : t ∉ dom d) by set_solver.
  unfold assemble in Hstep. rewrite Hins in Hstep. cbn [mbind result_bind] in Hstep.
  apply bind_Ok in Hstep as (d3' & Hrows & Hstep). injection Hstep as <-.
  destruct (add_rows_placed rmap t _ d2 d3' Hrows) as (Hdom3' & Hcl3 & Hpl3);
    [| set_solver | done |].
  { intros k b0 Hb0. rewrite Hdom2. apply elem_of_union. right. apply Hold.
    by eapply Hrmap. }
  assert (Hblock : ∀ k, rmap !! k ≠ Some t).
  { intros k Hk. apply Htold. by eapply Hrmap. }
  assert (Hpl3' : placed (children d2 parent) t parent (set_last_tail d3' t (nl ++ tab))).
  { apply set_last_tail_placed. apply Hpl3; [set_solver | by intros -> | done | done]. }
  destruct (assemble_all_placed (dom d) rmap _ _ d' Hpost Hinv3 Hrmap) as [_ Hpl'].
  { by apply set_last_tail_closed. }
  apply Hpl'; [| | done | done].
  - rewrite set_last_tail_dom. set_solver.
  - intros x Hx. rewrite set_last_tail_dom. apply Hdom3'. by eapply Hcl2.
Qed.

End placement.

(** *** What [apply_markup] reads of the object map *)

Section reads.
Context {imports : Imports}.
Import Lxml Tables.
Implicit Types (d : tree) (rmap : gmap nat nat).

Lemma add_cell_agree rmap rmap' tr d tc :
  (∀ p, p ∈ XPath (Child "w:p") tc -> rmap' !! x_id p = rmap !! x_id p) ->
  add_cell rmap' tr d tc = add_cell rmap tr d tc.
Proof.
  intros Hag. unfold add_cell. destruct (E "td" None d) as [td d0].
  destruct (append _ tr td) as [d1|e]; simpl; [|done].
  apply for_each_ext_in. intros s p Hp. unfold getitem. by rewrite Hag.
Qed.

Lemma add_row_agree rmap rmap' table d row :
  (∀ tc p, tc ∈ XPath (Child "w:tc") row -> p ∈ XPath (Child "w:p") tc ->
           rmap' !! x_id p = rmap !! x_id p) ->
  add_row rmap' table d row = add_row rmap table d row.
Proof.
  intros Hag. unfold add_row.
  destruct (E "tr" (Some (nl ++ tab ++ tab ++ tab)) d) as [tr d0].
  destruct (append _ table tr) as [d1|e]; simpl; [|done].
  rewrite (for_each_ext_in (add_cell rmap' tr) (add_cell rmap tr)); [done|].
  intros s tc Htc. apply add_cell_agree. intros p Hp. by eapply Hag.
Qed.

Lemma assemble_agree rmap rmap' d (item : xnode * list xnode) :
  (∀ p, p ∈ looked_up item -> rmap' !! x_id p = rmap !! x_id p) ->
  assemble rmap' d item = assemble rmap d item.
Proof.
  destruct item as [tbl [|first rest]]; [done|]. unfold looked_up. simpl. intros Hag.
  assert (Hins : insert_table rmap' first d = insert_table rmap first d).
  { unfold insert_table, getitem. rewrite Hag by set_solver. done. }
  rewrite Hins. destruct (insert_table rmap first d) as [[t d2]|e]; simpl; [|done].
  rewrite (for_each_ext_in (add_row rmap' t) (add_row rmap t)); [done|].
  intros s row Hrow. apply add_row_agree. intros tc p Htc Hp. apply Hag.
  apply elem_of_cons. right. apply list_elem_of_bind. exists row. split; [|done].
  apply list_elem_of_bind. by exists tc.
Qed.

Lemma rmap_read_lookup rmap (items : list (xnode * list xnode)) (p : xnode) :
  p ∈ items ≫= looked_up -> rmap_read rmap items !! x_id p = rmap !! x_id p.
Proof.
  intros Hp. unfold rmap_read. destruct (rmap !! x_id p) as [b|] eqn:Hb.
  - apply map_lookup_filter_Some. split; [done|]. simpl.
    apply list_elem_of_fmap. by exists p.
  - apply map_lookup_filter_None. by left.
Qed.

(** [apply_markup] with the part of the object map that it reads. *)
Lemma assemble_all_read rmap (items : list (xnode * list xnode)) d :
  for_each items (assemble (rmap_read rmap items)) d = for_each items (assemble rmap) d.
Proof.
  apply for_each_ext_in. intros s item Hitem. apply assemble_agree.
  intros p Hp. apply rmap_read_lookup. apply list_elem_of_bind. by exists item.
Qed.

Lemma item_mapped_read rmap (items : list (xnode * list xnode)) :
  Forall (item_mapped rmap) items -> Forall (item_mapped (rmap_read rmap items)) items.
Proof.
  intros Hall. apply Forall_forall. intros item Hitem.
  rewrite Forall_forall in Hall. specialize (Hall item Hitem).
  assert (Hlook : ∀ p, p ∈ looked_up item ->
            rmap_read rmap items !! x_id p = rmap !! x_id p).
  { intros p Hp. apply rmap_read_lookup. apply list_elem_of_bind. by exists item. }
  destruct item as [tbl [|first rest]]; [done|].
  unfold item_mapped, looked_up in *. simpl in *. destruct Hall as [Hfirst Hrows].
  split; [rewrite Hlook by set_solver; done|].
  apply Forall_forall. intros row Hrow. apply Forall_forall. intros tc Htc.
  apply Forall_forall. intros p Hp.
  rewrite Forall_forall in Hrows. specialize (Hrows row Hrow).
  rewrite Forall_forall in Hrows. specialize (Hrows tc Htc).
  rewrite Forall_forall in Hrows. specialize (Hrows p Hp).
  rewrite Hlook; [done|]. apply elem_of_cons. right.
  apply list_elem_of_bind. exists row. split; [|done].
  apply list_elem_of_bind. by exists tc.
Qed.

(** C3. [apply_markup] returns when the tree is a forest, every
    paragraph that is looked up has a block, and among the blocks that
    are looked up each is listed under its parent and none lies inside
    another. Whenever it returns, for every registered table, in the
    state [d1] in which its turn comes:
    - if it has no block, its turn changes nothing: no element is made;
    - otherwise exactly one table element [t] is made and put among the
      children of the parent of the first block, at the index that block
      has; with it are made one row container per [w:tr] child of the
      table node and, in the i-th of them, one cell container per [w:tc]
      child of the i-th row, all new and distinct, and nothing else; and
      in the tree that [apply_markup] returns the table element hangs
      under that parent, where it stands among the children the parent
      had when it was put in as it did then, and holds exactly these
      rows and cells, in this order. *)
Theorem apply_markup_structure (self : Tables.t) (object_map : list (nat * xnode))
    (d : tree) :
  let rmap := make_rmap object_map in
  let items := iteritems self in
  (∀ k b, rmap !! k = Some b -> b ∈ dom d) ->
  (∀ n q, getparent d n = Some q -> q ∈ dom d) ->
  children_closed d ->
  (forest d -> blocks_ok (rmap_read rmap items) d ->
   Forall (item_mapped rmap) items ->
   ∃ d', apply_markup self object_map d = Ok d') ∧
  ∀ d', apply_markup self object_map d = Ok d' ->
    ∀ i tbl blocks, items !! i = Some (tbl, blocks) ->
    ∃ d1 d3,
      for_each (take i items) (assemble rmap) d = Ok d1 ∧
      assemble rmap d1 (tbl, blocks) = Ok d3 ∧
      match blocks with
      | [] => d3 = d1
      | first :: _ =>
          ∃ b parent idx t d2 trs tdss,
            rmap !! x_id first = Some b ∧ getparent d1 b = Some parent ∧
            list_index b (children d1 parent) = Some idx ∧
            insert_table rmap first d1 = Ok (t, d2) ∧
            children d2 parent
              = (take idx (children d1 parent) ++ t :: drop idx (children d1 parent))%list ∧
            Forall2 (fun tds row => length tds = length (XPath (Child "w:tc") row))
                    tdss (XPath (Child "w:tr") tbl) ∧
            NoDup (t :: created trs tdss) ∧
            (∀ n, n ∈ t :: created trs tdss -> n ∉ dom d1) ∧
            dom d3 = list_to_set (t :: created trs tdss) ∪ dom d1 ∧
            table_of d' t trs tdss ∧ getparent d' t = Some parent ∧
            placed (take idx (children d1 parent) ++ t :: drop idx (children d1 parent))
                   t parent d'
      end.
Proof.
  intros rmap items Hrmap Hparents Hcl. split.
  - intros Hf Hbl Hmapped.
    assert (Hinv : assembly_inv (dom d) d).
    { split; [done|]. intros n q _ Hq. left. by eapply Hparents. }
    destruct (assemble_all_returns (dom d) (rmap_read rmap items) items d Hf Hbl Hinv)
      as [d' Hrun].
    { intros k b Hb. eapply Hrmap. by eapply map_lookup_filter_Some_1_1. }
    { by apply item_mapped_read. }
    exists d'. unfold apply_markup. fold rmap items. by rewrite <- assemble_all_read.
  - intros d' Hrun i tbl blocks Hi.
    destruct (apply_markup_shape self object_map d d' i tbl blocks Hrmap Hparents Hrun Hi)
      as (d1 & d3 & Hpre & Hstep & Hshape).
    exists d1, d3. split; [done|]. split; [done|].
    destruct blocks as [|first rest]; [done|].
    destruct Hshape as (b & parent & idx & t & d2 & trs & tdss & Hb & Hp & Hidx & Hins
                        & Hchp & Hlens & Hnd & Hnew & Hdom3 & Htable & Hgp).
    exists b, parent, idx, t, d2, trs, tdss. do 11 (split; [done|]).
    rewrite <- Hchp.
    apply (apply_markup_place self object_map d d' i tbl first rest d1 t d2 parent);
      try done.
    rewrite Hchp. set_solver.
Qed.

End reads.

(** *** Registration and assembly on a concrete document *)

(** After [tbl_a] is registered a second time, the next block is the
    only one of [tbl_a], and [tbl_a] still comes before [tbl_b]. *)
Lemma register_add_spec_witness :
  ∃ self', Tables.add (state_after repeated_calls) (par 12) = Ok self' ∧
    Tables.blocks_of self' tbl_a = Some [par 12] ∧
    Tables.blocks_of self' tbl_b = Some [par 11] ∧
    map fst (Tables.iteritems self') = [tbl_a; tbl_b].
Proof.
  assert (Hrun : Tables.run repeated_calls = Ok (state_after repeated_calls))
    by (vm_compute; reflexivity).
  destruct (register_add_spec repeated_calls _ Hrun) as (Hadd & _ & _).
  destruct (Hadd tbl_a (par 12) eq_refl) as (self' & bs & Hok & Hbs & Hbs' & Hother & Hkeys).
  exists self'. split; [exact Hok|].
  assert (bs = []) as -> by (vm_compute in Hbs; congruence).
  split; [exact Hbs'|]. split.
  - rewrite (Hother tbl_b); [vm_compute; reflexivity | vm_compute; discriminate].
  - rewrite Hkeys. vm_compute. reflexivity.
Defined.

(** A document whose elements all hang under one root. *)
Lemma forest_flat (d : Lxml.tree) (r : nat) :
  Lxml.getparent d r = None -> r ∈ dom d ->
  (∀ n p, Lxml.getparent d n = Some p -> p = r) ->
  forest d.
Proof.
  intros Hr Hrd Hflat. split.
  - intros n p ->%Hflat. done.
  - intros n p Hp Han. pose proof (Hflat n p Hp) as ->.
    inversion Han; subst; congruence.
Qed.

Lemma blocks_ok_flat (rmap : gmap nat nat) (d : Lxml.tree) (r : nat) :
  Lxml.getparent d r = None ->
  (∀ n p, Lxml.getparent d n = Some p -> p = r) ->
  (∀ k b, rmap !! k = Some b -> Lxml.getparent d b = Some r ∧ b ∈ Lxml.children d r) ->
  blocks_ok rmap d.
Proof.
  intros Hr Hflat Hblocks. split.
  - intros k b Hb. exists r. by apply (Hblocks k b).
  - intros k b k' b' Hb Hb' Han. inversion Han as [|n p Hp Hanp]; subst; [done|].
    pose proof (Hflat _ _ Hp) as ->.
    inversion Hanp; subst; [|congruence].
    destruct (Hblocks k r Hb) as [? _]. congruence.
Qed.

Lemma body_tree_flat n p : Lxml.getparent body_tree n = Some p -> p = 0%nat.
Proof.
  assert (Hall : map_Forall (fun _ e => Lxml.e_parent e = None ∨ Lxml.e_parent e = Some 0%nat)
                   body_tree) by by_compute.
  unfold Lxml.getparent. destruct (body_tree !! n) as [e|] eqn:He; [|done].
  simpl. intros Hp. destruct (Hall n e He); congruence.
Qed.

(** Assembling [tbl_a] in [body_tree] gives a table of two rows, of two
    cells and one cell, under the body, between the blocks 100 and
    120. *)
Lemma apply_markup_structure_witness :
  ∃ d' t trs tdss,
    Tables.apply_markup (state_after example_calls) example_object_map body_tree = Ok d' ∧
    table_of d' t trs tdss ∧ Lxml.getparent d' t = Some 0%nat ∧
    length trs = 2%nat ∧ length <$> tdss = [2; 1]%nat ∧
    placed [100; t; 110; 111; 112; 113; 120]%nat t 0%nat d'.
Proof.
  destruct (apply_markup_structure (state_after example_calls) example_object_map
              body_tree) as [Hreturns Hall].
  - intros k b Hkb.
    assert (Hblocks : map_Forall (fun _ b => b ∈ dom body_tree)
                        (Tables.make_rmap example_object_map)) by by_compute.
    exact (Hblocks k b Hkb).
  - intros n q Hq. rewrite (body_tree_flat n q Hq). by_compute.
  - intros n c Hc.
    assert (Hkids : map_Forall (fun _ e => Forall (fun c => c ∈ dom body_tree)
                                                  (Lxml.e_children e)) body_tree)
      by by_compute.
    unfold Lxml.children in Hc. destruct (body_tree !! n) as [e|] eqn:He.
    + specialize (Hkids n e He). rewrite Forall_forall in Hkids. by apply Hkids.
    + by apply elem_of_nil in Hc.
  - destruct Hreturns as [d' Hrun].
    + apply (forest_flat _ 0%nat); [reflexivity | by_compute | apply body_tree_flat].
    + apply (blocks_ok_flat _ _ 0%nat); [reflexivity | apply body_tree_flat |].
      intros k b Hkb.
      assert (Hblocks : map_Forall (fun _ b => Lxml.getparent body_tree b = Some 0%nat ∧
                                               b ∈ Lxml.children body_tree 0%nat)
                          (rmap_read (Tables.make_rmap example_object_map)
                             (Tables.iteritems (state_after example_calls))))
        by by_compute.
      exact (Hblocks k b Hkb).
    + vm_compute. repeat econstructor.
    + destruct (Hall d' Hrun 0%nat tbl_a [par 10; par 11; par 12; par 13] eq_refl)
        as (d1 & d3 & Hpre & Hstep & b & parent & idx & t & d2 & trs & tdss
            & Hb & Hp & Hidx & Hins & Hchp & Hlens & Hnd & Hnew & Hdom & Htable & Hgp
            & Hplaced).
      injection Hpre as <-.
      assert (b = 110%nat) as -> by (vm_compute in Hb; congruence).
      assert (parent = 0%nat) as -> by (vm_compute in Hp; congruence).
      assert (idx = 1%nat) as -> by (vm_compute in Hidx; congruence).
      exists d', t, trs, tdss. split; [exact Hrun|]. split; [exact Htable|].
      split; [exact Hgp|].
      destruct Htable as (_ & _ & Hrows).
      vm_compute in Hlens.
      apply Forall2_cons_inv_r in Hlens as (tds1 & tdss1 & Hl1 & Hlens & ->).
      apply Forall2_cons_inv_r in Hlens as (tds2 & tdss2 & Hl2 & Hlens & ->).
      apply Forall2_nil_inv_r in Hlens as ->.
      split; [by rewrite (Forall2_length _ _ _ Hrows)|].
      change (length tds1 = 2%nat) in Hl1. change (length tds2 = 1%nat) in Hl2.
      split; [simpl; by rewrite Hl1, Hl2|]. exact Hplaced.
Defined.

(** * Further properties *)

(** ** Laws of the cascade *)

Section cascade_laws.
Context {imports : Imports}.
Import TableStyle.

(** The loop of [update] stops with [AttributeError] at the first
    property that [other] lacks. *)
Lemma update_loop_raises (props : list string) (self other : obj) (p : string) :
  p ∈ props -> other !! p = None ->
  for_each props (update_body other) self = Raise AttributeError.
Proof.
  revert self. induction props as [|q props IH]; intros self Hp Hnone.
  - by apply elem_of_nil in Hp.
  - simpl. destruct (other !! q) as [v|] eqn:Hq.
    + assert (update_body other self q
              = Ok (if negb (is_inherit v) then setattr self q v else self)) as ->.
      { unfold update_body, getattr. rewrite Hq. simpl. by destruct (is_inherit v). }
      simpl. apply IH; [|done].
      apply elem_of_cons in Hp as [->|Hp]; [congruence | done].
    + assert (update_body other self q = Raise AttributeError) as ->; [|done].
      unfold update_body, getattr. by rewrite Hq.
Qed.

Lemma update_loop_Ok (props : list string) (self other self' : obj) :
  for_each props (update_body other) self = Ok self' ->
  ∀ p, p ∈ props -> is_Some (other !! p).
Proof.
  intros Hrun p Hp. destruct (other !! p) as [v|] eqn:Hv; [by eexists|].
  rewrite (update_loop_raises props self other p Hp Hv) in Hrun. discriminate.
Qed.

(** The loop of [resolve_based_on] stops with [AttributeError] when
    [self] lacks a property. *)
Lemma resolve_loop_raises (props : list string) (self parent : obj) (p : string) :
  p ∈ props -> self !! p = None ->
  for_each props (resolve_body parent) self = Raise AttributeError.
Proof.
  revert self. induction props as [|q props IH]; intros self Hp Hnone.
  - by apply elem_of_nil in Hp.
  - simpl. destruct (self !! q) as [v|] eqn:Hq.
    + assert (Hpq : q ≠ p) by congruence.
      assert (Hin : p ∈ props).
      { apply elem_of_cons in Hp as [->|Hp]; [congruence | done]. }
      destruct (is_inherit v) eqn:Hi.
      * destruct (parent !! q) as [pv|] eqn:Hpv.
        -- assert (resolve_body parent self q = Ok (setattr self q pv)) as ->.
           { unfold resolve_body, getattr. rewrite Hq. simpl. by rewrite Hi, Hpv. }
           simpl. apply IH; [done|]. unfold setattr. by rewrite lookup_insert_ne.
        -- assert (resolve_body parent self q = Raise AttributeError) as ->; [|done].
           unfold resolve_body, getattr. rewrite Hq. simpl. by rewrite Hi, Hpv.
      * assert (resolve_body parent self q = Ok self) as ->.
        { unfold resolve_body, getattr. rewrite Hq. simpl. by rewrite Hi. }
        simpl. by apply IH.
    + assert (resolve_body parent self q = Raise AttributeError) as ->; [|done].
      unfold resolve_body, getattr. by rewrite Hq.
Qed.

(** [update] and [resolve_based_on] read every declared property of
    their argument: a style that lacks one (a [RowStyle] built from a
    node has none) makes [update] raise [AttributeError], a receiver
    that lacks one makes [resolve_based_on] raise it, and so does a
    parent that lacks the first property the receiver inherits. *)
Theorem cascade_attribute_error (self other : obj) (p : string) :
  p ∈ all_properties -> other !! p = None ->
  update self other = Raise AttributeError ∧
  resolve_based_on other self = Raise AttributeError.
Proof.
  intros Hp Hnone. split.
  - by apply (update_loop_raises _ _ _ p).
  - by apply (resolve_loop_raises _ _ _ p).
Qed.

(** [update] returns exactly when [other] has every declared property. *)
Lemma update_returns_iff (self other : obj) :
  (∃ self', update self other = Ok self') ↔
  (∀ p, p ∈ all_properties -> is_Some (other !! p)).
Proof.
  split.
  - intros [self' Hrun]. by eapply update_loop_Ok.
  - intros Hall. destruct (update_loop all_properties self other Hall) as (s & Hs & _).
    by exists s.
Qed.

(** The value of a property after [update]. *)
Lemma update_lookup (self other self' : obj) (p : string) :
  update self other = Ok self' ->
  self' !! p = match other !! p with
               | Some v => if bool_decide (p ∈ all_properties) && negb (is_inherit v)
                           then Some v else self !! p
               | None => self !! p
               end.
Proof.
  intros Hrun.
  destruct (update_loop all_properties self other) as (s & Hs & Hlook).
  { by eapply update_loop_Ok. }
  unfold update in Hrun. rewrite Hs in Hrun. injection Hrun as <-. apply Hlook.
Qed.

Lemma update_has_all (self other self' : obj) :
  update self other = Ok self' ->
  (∀ p, p ∈ all_properties -> is_Some (self !! p)) ->
  ∀ p, p ∈ all_properties -> is_Some (self' !! p).
Proof.
  intros Hrun Hself p Hp. rewrite (update_lookup _ _ _ p Hrun).
  destruct (other !! p) as [v|]; [|by apply Hself].
  destruct (bool_decide _ && _); [by eexists | by apply Hself].
Qed.

(** Cascade levels can be merged in any grouping: applying [b] and
    then [c] to [a] gives the same style as applying to [a] the level
    obtained by applying [c] to [b]. *)
Theorem update_assoc (a b c : obj) :
  (∀ p, p ∈ all_properties -> is_Some (b !! p)) ->
  (∀ p, p ∈ all_properties -> is_Some (c !! p)) ->
  ∃ ab bc abc, update a b = Ok ab ∧ update b c = Ok bc ∧
    update ab c = Ok abc ∧ update a bc = Ok abc.
Proof.
  intros Hb Hc.
  destruct (proj2 (update_returns_iff a b) Hb) as [ab Hab].
  destruct (proj2 (update_returns_iff b c) Hc) as [bc Hbc].
  destruct (proj2 (update_returns_iff ab c) Hc) as [abc Habc].
  destruct (proj2 (update_returns_iff a bc)) as [abc' Habc'].
  { by apply (update_has_all b c bc). }
  exists ab, bc, abc. do 3 (split; [done|]).
  rewrite Habc'. f_equal. apply map_eq. intros p.
  rewrite (update_lookup _ _ _ p Habc'), (update_lookup _ _ _ p Habc),
    (update_lookup _ _ _ p Hbc), (update_lookup _ _ _ p Hab).
  destruct (bool_decide (p ∈ all_properties)) eqn:Hin; simpl.
  - apply bool_decide_eq_true in Hin.
    destruct (Hb p Hin) as [vb ->], (Hc p Hin) as [vc ->].
    destruct vc; simpl; try done; by destruct vb.
  - destruct (c !! p), (b !! p); done.
Qed.

(** [TableStyle()] is a neutral cascade level: updating with it changes
    nothing, and updating it with a style whose attributes are the
    declared properties gives that style. *)
Theorem update_identity (s : obj) :
  (∀ p, p ∈ all_properties ↔ is_Some (s !! p)) ->
  update s __init__none = Ok s ∧ update __init__none s = Ok s.
Proof.
  intros Hs.
  assert (Hnone : ∀ p, __init__none !! p
                       = if bool_decide (p ∈ all_properties) then Some Inherit else None).
  { intros p. unfold __init__none. by rewrite init_loop_lookup, lookup_empty. }
  split.
  - destruct (proj2 (update_returns_iff s __init__none)) as [s' Hrun].
    { intros p Hp. by rewrite Hnone, bool_decide_true. }
    rewrite Hrun. f_equal. apply map_eq. intros p.
    rewrite (update_lookup _ _ _ p Hrun), Hnone.
    case_bool_decide; [by rewrite andb_false_r | done].
  - destruct (proj2 (update_returns_iff __init__none s)) as [s' Hrun].
    { intros p Hp. by apply Hs. }
    rewrite Hrun. f_equal. apply map_eq. intros p.
    rewrite (update_lookup _ _ _ p Hrun), Hnone.
    destruct (s !! p) as [v|] eqn:Hv.
    + rewrite bool_decide_true by (apply Hs; by eexists). simpl.
      by destruct v.
    + case_bool_decide as Hin; [|done]. apply Hs in Hin as [? ?]. congruence.
Qed.

(** Applying the same cascade level a second time changes nothing. *)
Theorem update_idempotent (self other s1 : obj) :
  update self other = Ok s1 -> update s1 other = Ok s1.
Proof.
  intros Hrun.
  destruct (proj2 (update_returns_iff s1 other)) as [s2 Hrun2].
  { apply (update_returns_iff self other). by exists s1. }
  rewrite Hrun2. f_equal. apply map_eq. intros p.
  rewrite (update_lookup _ _ _ p Hrun2), (update_lookup _ _ _ p Hrun).
  destruct (other !! p) as [v|]; [|done].
  by destruct (bool_decide _ && _).
Qed.

(** The value a property has after a level is applied and the result
    resolved against a parent: the level's value if it is set, else the
    receiver's own if it is set, else the parent's. *)
Theorem update_then_resolve (self other parent : obj) :
  (∀ p, p ∈ all_properties -> is_Some (self !! p)) ->
  (∀ p, p ∈ all_properties -> is_Some (other !! p)) ->
  (∀ p, p ∈ all_properties -> is_Some (parent !! p)) ->
  ∃ s1 s2, update self other = Ok s1 ∧ resolve_based_on s1 parent = Ok s2 ∧
    ∀ p, p ∈ all_properties ->
      s2 !! p = if bool_decide (other !! p ≠ Some Inherit) then other !! p
                else if bool_decide (self !! p ≠ Some Inherit) then self !! p
                else parent !! p.
Proof.
  intros Hself Hother Hparent.
  destruct (proj2 (update_returns_iff self other) Hother) as [s1 Hs1].
  destruct (resolve_loop all_properties s1 parent) as (s2 & Hs2 & Hlook).
  { by apply (update_has_all self other s1). }
  { intros p Hp _. by apply Hparent. }
  exists s1, s2. do 2 (split; [done|]). intros p Hp.
  rewrite Hlook, (update_lookup _ _ _ p Hs1).
  destruct (Hother p Hp) as [vo Hvo], (Hself p Hp) as [vs Hvs]. rewrite Hvo, Hvs.
  rewrite (bool_decide_true (p ∈ all_properties)) by done. simpl.
  destruct vo, vs; simpl; repeat case_bool_decide; naive_solver.
Qed.

End cascade_laws.

(** ** More on the readers *)

Lemma true_div_raises (a b : Z) (e : exn) :
  b ≠ 0 -> true_div a b = Raise e -> e = OverflowError.
Proof.
  intros Hb. unfold true_div.
  destruct b; [done|..]; destruct a; try discriminate;
    destruct (SFdiv _ _ _ _); congruence.
Qed.

(** A loop whose body forgets the accumulator ends in the value of the
    last element. *)
Lemma foldl_last_wins {A B} (g : A -> B) (b : B) (pre : list A) (x : A) :
  foldl (fun _ y => g y) b (pre ++ [x]) = g x.
Proof. by rewrite foldl_app. Qed.

Lemma for_each_last_wins {A B} (g : A -> result B) (b : B) (pre : list A) (x : A) :
  Forall (fun m => ∃ v, g m = Ok v) pre ->
  for_each (pre ++ [x]) (fun _ y => g y) b = g x.
Proof.
  revert b. induction pre as [|m pre IH]; intros b Hpre; simpl.
  - by destruct (g x).
  - apply Forall_cons in Hpre as [[v ->] Hpre]. simpl. by apply IH.
Qed.

Lemma for_each_first_raise {A B} (g : A -> result B) (b : B)
    (pre post : list A) (m : A) (e : exn) :
  Forall (fun m => ∃ v, g m = Ok v) pre -> g m = Raise e ->
  for_each (pre ++ m :: post) (fun _ y => g y) b = Raise e.
Proof.
  revert b. induction pre as [|m' pre IH]; intros b Hpre Hm; simpl.
  - by rewrite Hm.
  - apply Forall_cons in Hpre as [[v ->] Hpre]. simpl. by apply IH.
Qed.

(** A loop raises only what its body raises. *)
Lemma for_each_raises {A S} (P : exn -> Prop) (xs : list A)
    (body : S -> A -> result S) (s : S) (e : exn) :
  (∀ s x e, body s x = Raise e -> P e) ->
  for_each xs body s = Raise e -> P e.
Proof.
  intros Hbody. revert s. induction xs as [|x xs IH]; intros s; simpl; [done|].
  destruct (body s x) as [s'|e'] eqn:Hb; simpl; [apply IH|].
  intros [= <-]. by eapply Hbody.
Qed.


Section readers_more.
Context {imports : Imports}.

(** *** Width *)

(** [_read_width] raises only when the division overflows. *)
Lemma _read_width_raises (elem : xnode) (e : exn) :
  _read_width elem = Raise e ->
  e = OverflowError ∧
  (get elem "w:type" = Some "dxa" ∨ get elem "w:type" = Some "pct").
Proof.
  rewrite (_read_width_typ elem _ (magnitude_total elem)). unfold get_default.
  set (w := match int (get elem "w:w") with Ok v => v | Raise _ => 0 end).
  destruct (get elem "w:type") as [t|]; simpl; [|done].
  destruct (String.eqb_spec t "nil") as [->|Hnil]; [done|].
  destruct (String.eqb_spec t "auto") as [->|Hauto]; [done|].
  destruct (String.eqb_spec t "dxa") as [->|Hdxa].
  { destruct (true_div w 20) as [q|e'] eqn:Hq; simpl; [done|].
    intros [= <-]. split; [|by left]. by apply (true_div_raises w 20). }
  destruct (String.eqb_spec t "pct") as [->|Hpct]; [|done].
  destruct (true_div w 50) as [q|e'] eqn:Hq; simpl; [done|].
  intros [= <-]. split; [|by right]. by apply (true_div_raises w 50).
Qed.

(** What [_read_width] can give: the only exception is
    [OverflowError], and only for the unit-types [dxa] and [pct]; the
    result is the inherited sentinel exactly when the unit-type is
    present and is none of [nil], [auto], [dxa], [pct] (whatever the
    magnitude), and a string otherwise. *)
Theorem _read_width_results (elem : xnode) :
  let typ := get elem "w:type" in
  (∀ e, _read_width elem = Raise e ->
        e = OverflowError ∧ (typ = Some "dxa" ∨ typ = Some "pct")) ∧
  (∀ v, _read_width elem = Ok v ->
        (v = Inherit ↔ typ ∉ [None; Some "nil"; Some "auto"; Some "dxa"; Some "pct"]) ∧
        (v = Inherit ∨ ∃ s, v = VStr s)).
Proof.
  intros typ.
  pose proof (_read_width_typ elem _ (magnitude_total elem)) as Hrw.
  unfold get_default in Hrw. fold typ in Hrw. rewrite Hrw. clear Hrw.
  set (w := match int (get elem "w:w") with Ok v => v | Raise _ => 0 end).
  destruct typ as [t|]; simpl.
  2:{ split; [discriminate|]. intros v [= <-]. split; [|right; by eexists].
      split; [discriminate|]. intros Hn. exfalso. apply Hn. set_solver. }
  destruct (String.eqb_spec t "nil") as [->|Hnil].
  { split; [discriminate|]. intros v [= <-]. split; [|right; by eexists].
    split; [discriminate|]. intros Hn. exfalso. apply Hn. set_solver. }
  destruct (String.eqb_spec t "auto") as [->|Hauto].
  { split; [discriminate|]. intros v [= <-]. split; [|right; by eexists].
    split; [discriminate|]. intros Hn. exfalso. apply Hn. set_solver. }
  destruct (String.eqb_spec t "dxa") as [->|Hdxa].
  { destruct (true_div w 20) as [q|e'] eqn:Hq; simpl.
    - split; [discriminate|]. intros v [= <-]. split; [|right; by eexists].
      split; [discriminate|]. intros Hn. exfalso. apply Hn. set_solver.
    - split; [|discriminate]. intros e [= <-].
      split; [|by left]. by apply (true_div_raises w 20). }
  destruct (String.eqb_spec t "pct") as [->|Hpct].
  { destruct (true_div w 50) as [q|e'] eqn:Hq; simpl.
    - split; [discriminate|]. intros v [= <-]. split; [|right; by eexists].
      split; [discriminate|]. intros Hn. exfalso. apply Hn. set_solver.
    - split; [|discriminate]. intros e [= <-].
      split; [|by right]. by apply (true_div_raises w 50). }
  split; [discriminate|]. intros v [= <-]. split; [|by left].
  split; [|done]. intros _ Hin.
  repeat (apply elem_of_cons in Hin as [Hin|Hin]; [congruence|]).
  by apply elem_of_nil in Hin.
Qed.

(** The readers of [width] (table and cell), [spacing] and [indent]
    ([read_width_as] with their node name and property): when the
    container holds several nodes of the name, the value is that of the
    last one, provided the earlier ones resolve; a node that overflows
    makes the reader raise even when a later node would replace its
    value. *)
Theorem width_readers_last_node (e : xpath) (prop : string)
    (parent : xnode) (dest : obj) (pre : list xnode) (n : xnode) :
  Forall (fun m => ∃ v, _read_width m = Ok v) pre ->
  (XPath e parent = (pre ++ [n])%list ->
     read_width_as e prop parent dest
     = v ← _read_width n; Ok (setattr dest prop v)) ∧
  (∀ post err, XPath e parent = (pre ++ n :: post)%list ->
     _read_width n = Raise err ->
     read_width_as e prop parent dest = Raise err).
Proof.
  intros Hpre. unfold read_width_as. split.
  - intros ->. by rewrite for_each_last_wins.
  - intros post err -> Hn. by rewrite (for_each_first_raise _ _ _ _ _ err).
Qed.

(** *** Padding *)

(** Whatever the container holds, a call of [read_padding] that
    returns has set the four cell paddings to the inherited sentinel and
    touched nothing else; and it can only raise [OverflowError]. *)
Theorem read_padding_outcome (parent : xnode) (dest : obj) :
  (∀ dest', read_padding parent dest = Ok dest' ->
     (∀ x, x ∈ edges -> dest' !! percent_s "cell_padding_%s" x = Some Inherit) ∧
     (∀ p, (∀ x, x ∈ edges -> p ≠ percent_s "cell_padding_%s" x) ->
           dest' !! p = dest !! p)) ∧
  (∀ e, read_padding parent dest = Raise e -> e = OverflowError).
Proof.
  split.
  - intros dest' ->%read_padding_all_inherited. unfold setattr. split.
    + intros x Hx. unfold edges in Hx.
      repeat (apply elem_of_cons in Hx as [->|Hx];
              [by repeat (rewrite lookup_insert_ne by done); rewrite lookup_insert_eq|]).
      by apply elem_of_nil in Hx.
    + intros p Hp.
      assert (Hne : ∀ x, x ∈ edges -> percent_s "cell_padding_%s" x ≠ p).
      { intros x Hx Heq. by apply (Hp x). }
      rewrite !lookup_insert_ne; [done|..];
        first [apply (Hne "left") | apply (Hne "top")
              | apply (Hne "right") | apply (Hne "bottom")];
        unfold edges; set_solver.
  - intros e. unfold read_padding.
    set (body := fun (fr : frame) (mar : xnode) => _).
    set (fr0 := {| f_fast := fast0; f_locals := ∅ |}).
    destruct (for_each _ body fr0) as [fr|e'] eqn:Hloop; cbn [mbind result_bind].
    + assert (Hfast : f_fast fr = fast0).
      { revert Hloop. apply (for_each_inv (fun fr => f_fast fr = fast0)); [done|].
        intros fr1 mar fr2 H1. apply (for_each_inv (fun fr => f_fast fr = fast0)); [done|].
        intros fr3 x fr4 H3. apply (for_each_inv (fun fr => f_fast fr = fast0)); [done|].
        intros fr5 edge fr6 H5 (v & _ & [= <-])%bind_Ok. done. }
      destruct (set_padding_loop edges fr dest Hfast) as [fr' ->]; [done|]. done.
    + intros [= <-]. revert Hloop.
      apply (for_each_raises (fun e => e = OverflowError)). intros fr1 mar e1.
      apply (for_each_raises (fun e => e = OverflowError)). intros fr2 x e2.
      apply (for_each_raises (fun e => e = OverflowError)). intros fr3 edge e3.
      unfold read_edge. destruct (_read_width edge) as [v|e4] eqn:Hw; [done|].
      intros [= <-]. by apply (_read_width_raises edge).
Qed.

(** *** Justification *)

Lemma jc_step_fst (acc : value * value) (jc : xnode) :
  (jc_step acc jc).1
  = if bool_decide (get jc "w:val" = Some "right" ∨ get jc "w:val" = Some "center")
    then VStr "auto" else acc.1.
Proof.
  destruct acc as [l r]. unfold jc_step.
  destruct (get jc "w:val") as [[|c s]|] eqn:Hv.
  - rewrite bool_decide_false; [done | naive_solver].
  - destruct (String.eqb_spec (String c s) "left") as [->|Hl].
    { rewrite bool_decide_false; [done | naive_solver]. }
    destruct (String.eqb_spec (String c s) "right") as [->|Hr].
    { rewrite bool_decide_true; [done | naive_solver]. }
    destruct (String.eqb_spec (String c s) "center") as [->|Hc].
    { rewrite bool_decide_true; [done | naive_solver]. }
    rewrite bool_decide_false; [done | naive_solver].
  - rewrite bool_decide_false; [done | naive_solver].
Qed.

Lemma jc_step_snd (acc : value * value) (jc : xnode) :
  (jc_step acc jc).2
  = if bool_decide (get jc "w:val" = Some "left" ∨ get jc "w:val" = Some "center")
    then VStr "auto" else acc.2.
Proof.
  destruct acc as [l r]. unfold jc_step.
  destruct (get jc "w:val") as [[|c s]|] eqn:Hv.
  - rewrite bool_decide_false; [done | naive_solver].
  - destruct (String.eqb_spec (String c s) "left") as [->|Hl].
    { rewrite bool_decide_true; [done | naive_solver]. }
    destruct (String.eqb_spec (String c s) "right") as [->|Hr].
    { rewrite bool_decide_false; [done | naive_solver]. }
    destruct (String.eqb_spec (String c s) "center") as [->|Hc].
    { rewrite bool_decide_true; [done | naive_solver]. }
    rewrite bool_decide_false; [done | naive_solver].
  - rewrite bool_decide_false; [done | naive_solver].
Qed.

Lemma jc_fold_sticky (P : xnode -> Prop) `{!∀ jc, Decision (P jc)}
    (proj : value * value -> value) (jcs : list xnode) (acc : value * value) :
  (∀ acc jc, proj (jc_step acc jc) = if bool_decide (P jc) then VStr "auto" else proj acc) ->
  proj (foldl jc_step acc jcs)
  = if bool_decide (Exists P jcs) then VStr "auto" else proj acc.
Proof.
  intros Hstep. revert acc.
  induction jcs as [|jc jcs IH]; intros acc; cbn [foldl].
  - rewrite bool_decide_false; [done|]. by intros ?%Exists_nil.
  - rewrite IH, Hstep. destruct (decide (Exists P jcs)) as [Hex|Hex].
    + rewrite !bool_decide_true; [done | by apply Exists_cons_tl | done].
    + rewrite (bool_decide_false (Exists P jcs)) by done.
      destruct (decide (P jc)) as [Hjc|Hjc].
      * rewrite !bool_decide_true; [done | by apply Exists_cons_hd | done].
      * rewrite !bool_decide_false; [done | | done].
        intros [?|?]%Exists_cons; done.
Qed.

(** With several justification nodes the margins accumulate: the left
    margin is ["auto"] when some node says [right] or [center] and
    inherited otherwise, the right margin is ["auto"] when some node
    says [left] or [center] and inherited otherwise; a margin once
    automatic is never reset, so [left] followed by [right] gives the
    margins of [center]. *)
Theorem read_justification_accumulates (parent : xnode) (dest : obj) :
  let jcs := XPath (ChildWithAttr "w:jc" "w:val") parent in
  let says := fun v : string => Exists (fun jc => get jc "w:val" = Some v) jcs in
  ∃ dest', read_justification parent dest = Ok dest' ∧
    dest' !! "margin_left"
      = Some (if bool_decide (says "right" ∨ says "center") then VStr "auto" else Inherit) ∧
    dest' !! "margin_right"
      = Some (if bool_decide (says "left" ∨ says "center") then VStr "auto" else Inherit).
Proof.
  intros jcs says. rewrite read_justification_fold. fold jcs. simpl.
  eexists. split; [reflexivity|]. unfold setattr.
  rewrite lookup_insert_ne, !lookup_insert_eq by done.
  rewrite (jc_fold_sticky _ fst jcs _ jc_step_fst).
  rewrite (jc_fold_sticky _ snd jcs _ jc_step_snd). simpl.
  split; f_equal.
  - apply (f_equal (fun b : bool => if b then VStr "auto" else Inherit)).
    apply bool_decide_ext. unfold says. rewrite !Exists_exists. naive_solver.
  - apply (f_equal (fun b : bool => if b then VStr "auto" else Inherit)).
    apply bool_decide_ext. unfold says. rewrite !Exists_exists. naive_solver.
Qed.

(** *** Row height *)

Lemma read_height_fold (nodes : list xnode) (acc : value) :
  let accepted := fun rh : xnode =>
    get_default rh "w:hRule" "auto" ∈ ["auto"; "atLeast"; "exact"] in
  let step := fun (ans : value) (rh : xnode) =>
    let rule := get_default rh "w:hRule" "auto" in
    if bool_decide (rule ∈ ["auto"; "atLeast"; "exact"])
    then VPair rule (get rh "w:val") else ans in
  (Forall (fun rh => ¬ accepted rh) nodes -> foldl step acc nodes = acc) ∧
  (∀ pre rh post, nodes = (pre ++ rh :: post)%list -> accepted rh ->
     Forall (fun rh => ¬ accepted rh) post ->
     foldl step acc nodes = VPair (get_default rh "w:hRule" "auto") (get rh "w:val")).
Proof.
  intros accepted step.
  assert (Hskip : ∀ l a, Forall (fun rh => ¬ accepted rh) l -> foldl step a l = a).
  { induction l as [|x l IH]; intros a Hl; simpl; [done|].
    apply Forall_cons in Hl as [Hx Hl]. rewrite IH by done.
    unfold step. by rewrite bool_decide_false. }
  split; [apply Hskip|].
  intros pre rh post -> Hrh Hpost. rewrite foldl_app. simpl.
  rewrite Hskip by done. unfold step. by rewrite bool_decide_true.
Qed.

(** [read_height] never raises and touches only [height]. The height
    is the pair (rule, value) of the last row-height node whose rule is
    [auto], [atLeast] or [exact] (a node without rule counts as [auto],
    a node without value gives the pair with no value); nodes with any
    other rule are skipped, and when every node is skipped the height is
    the inherited sentinel. *)
Theorem read_height_last_accepted (parent : xnode) (dest : obj) :
  let nodes := XPath (Child "w:trHeight") parent in
  let accepted := fun rh : xnode =>
    get_default rh "w:hRule" "auto" ∈ ["auto"; "atLeast"; "exact"] in
  ∃ dest', read_height parent dest = Ok dest' ∧
    (∀ p, p ≠ "height" -> dest' !! p = dest !! p) ∧
    (Forall (fun rh => ¬ accepted rh) nodes -> dest' !! "height" = Some Inherit) ∧
    (∀ pre rh post, nodes = (pre ++ rh :: post)%list -> accepted rh ->
       Forall (fun rh => ¬ accepted rh) post ->
       dest' !! "height"
       = Some (VPair (get_default rh "w:hRule" "auto") (get rh "w:val"))).
Proof.
  intros nodes accepted. unfold read_height. fold nodes.
  eexists. split; [reflexivity|]. unfold setattr.
  destruct (read_height_fold nodes Inherit) as [Hnone Hlast].
  split; [|split].
  - intros p Hp. by rewrite lookup_insert_ne.
  - intros Hall. rewrite lookup_insert_eq. f_equal. by apply Hnone.
  - intros pre rh post Hn Hrh Hpost. rewrite lookup_insert_eq. f_equal.
    by apply (Hlast pre rh post).
Qed.

(** *** Vertical alignment and merges *)

(** [read_vertical_align] never raises and touches only
    [vertical_align], whose value is inherited exactly when the
    container has no alignment node and is otherwise read off the last
    node: [top] and [bottom] stay, [center], a missing value and any
    other value give ["middle"]. *)
Theorem read_vertical_align_values (parent : xnode) (dest : obj) :
  let nodes := XPath (Child "w:vAlign") parent in
  ∃ dest' v, read_vertical_align parent dest = Ok dest' ∧
    dest' !! "vertical_align" = Some v ∧
    (∀ p, p ≠ "vertical_align" -> dest' !! p = dest !! p) ∧
    (v = Inherit ↔ nodes = []) ∧
    v ∈ [Inherit; VStr "middle"; VStr "top"; VStr "bottom"] ∧
    (∀ va, last nodes = Some va ->
       (get va "w:val" = Some "top" -> v = VStr "top") ∧
       (get va "w:val" = Some "bottom" -> v = VStr "bottom") ∧
       (get va "w:val" ≠ Some "top" -> get va "w:val" ≠ Some "bottom" ->
          v = VStr "middle")).
Proof.
  intros nodes. unfold read_vertical_align. fold nodes.
  set (g := fun va : xnode =>
         match get va "w:val" with
         | Some "center" => VStr "middle"
         | Some "top" => VStr "top"
         | Some "bottom" => VStr "bottom"
         | _ => VStr "middle"
         end).
  assert (Hg : ∀ va, (get va "w:val" = Some "top" -> g va = VStr "top") ∧
                     (get va "w:val" = Some "bottom" -> g va = VStr "bottom") ∧
                     (get va "w:val" ≠ Some "top" -> get va "w:val" ≠ Some "bottom" ->
                        g va = VStr "middle")).
  { intros va. unfold g. split; [by intros ->|]. split; [by intros ->|].
    intros Ht Hb. destruct (get va "w:val") as [s|]; [|done].
    destruct (String.eqb_spec s "center") as [->|Hc]; [done|].
    destruct (String.eqb_spec s "top") as [->|Ht']; [done|].
    destruct (String.eqb_spec s "bottom") as [->|Hb']; [done|].
    repeat (destruct s as [|[[] [] [] [] [] [] [] []] s]; try done). }
  assert (Hrange : ∀ va, g va ∈ [VStr "middle"; VStr "top"; VStr "bottom"]).
  { intros va. destruct (Hg va) as (Ht & Hb & Hm).
    destruct (decide (get va "w:val" = Some "top")) as [H1|H1];
      [rewrite Ht by done; set_solver|].
    destruct (decide (get va "w:val" = Some "bottom")) as [H2|H2];
      [rewrite Hb by done; set_solver|].
    rewrite Hm by done; set_solver. }
  change (foldl _ Inherit nodes) with (foldl (fun _ va => g va) Inherit nodes).
  eexists _, _. split; [reflexivity|]. unfold setattr.
  split; [by rewrite lookup_insert_eq|].
  split; [intros p Hp; by rewrite lookup_insert_ne|].
  destruct (nodes) as [|n0 ns] using rev_ind; simpl.
  - split; [done|]. split; [set_solver|]. intros va [=].
  - rewrite foldl_last_wins. split; [|split].
    + split; [|intros Hnil; by destruct ns].
      intros Hi. specialize (Hrange n0). rewrite Hi in Hrange. set_solver.
    + specialize (Hrange n0). set_solver.
    + intros va. rewrite last_snoc. intros [= <-]. apply Hg.
Qed.

(** [read_merge] never raises and sets [hMerge] and [vMerge], each
    from its own nodes: the value of the last node, ["continue"] when
    that node has no value, and the inherited sentinel when there is no
    such node. Nothing else is touched. *)
Theorem read_merge_values (parent : xnode) (dest : obj) :
  let val_of := fun nodes : list xnode =>
    match last nodes with
    | Some m => VStr (get_default m "w:val" "continue")
    | None => Inherit
    end in
  ∃ dest', read_merge parent dest = Ok dest' ∧
    dest' !! "hMerge" = Some (val_of (XPath (Child "w:hMerge") parent)) ∧
    dest' !! "vMerge" = Some (val_of (XPath (Child "w:vMerge") parent)) ∧
    (∀ p, p ≠ "hMerge" -> p ≠ "vMerge" -> dest' !! p = dest !! p).
Proof.
  intros val_of. unfold read_merge. cbn [for_each].
  change (percent_s "w:%s" "hMerge") with "w:hMerge".
  change (percent_s "w:%s" "vMerge") with "w:vMerge".
  simpl. eexists. split; [reflexivity|]. unfold setattr.
  assert (Hlast : ∀ nodes : list xnode,
            foldl (fun _ m => VStr (get_default m "w:val" "continue")) Inherit nodes
            = val_of nodes).
  { intros nodes. unfold val_of. destruct nodes as [|n0 ns] using rev_ind; [done|].
    by rewrite foldl_last_wins, last_snoc. }
  rewrite !Hlast. split; [|split].
  - by rewrite lookup_insert_ne, lookup_insert_eq.
  - by rewrite lookup_insert_eq.
  - intros p Hh Hv. by rewrite !lookup_insert_ne.
Qed.

(** *** Numeric attributes *)


End readers_more.

(** ** More on registration *)

Section registration_more.
Import Tables.

Lemma run_app (cs1 cs2 : list call) :
  run (cs1 ++ cs2) = run cs1 ≫= for_each cs2 step.
Proof. apply for_each_app. Qed.

(** What [register] and [add] do to the lists, in a reachable state. *)
Lemma register_blocks (cs : list call) (self : t) (tbl : xnode) :
  reachable_inv cs self ->
  blocks_of (register self tbl) tbl = Some [] ∧
  (∀ tbl', x_id tbl' ≠ x_id tbl ->
     blocks_of (register self tbl) tbl' = blocks_of self tbl').
Proof.
  intros [Hrefs Hheap Hcur Hreg].
  assert (Hfresh : ∀ r, r ∈ map snd (tables self) -> r ≠ fresh (dom (heap self))).
  { intros r Hin%Hheap%elem_of_dom ->. by apply is_fresh in Hin. }
  unfold blocks_of, register. simpl. split.
  - rewrite od_lookup_setitem_eq. simpl. by rewrite lookup_insert_eq.
  - intros tbl' Hne. rewrite od_lookup_setitem_ne by done.
    destruct (od_lookup (x_id tbl') (tables self)) as [r'|] eqn:Hr'; simpl; [|done].
    rewrite lookup_insert_ne; [done|].
    intros Heq. eapply Hfresh; [by eapply od_lookup_ref | done].
Qed.

Lemma add_blocks (cs : list call) (self self' : t) (tbl : xnode) (p : xnode) :
  reachable_inv cs self -> last_registered cs = Some tbl ->
  add self p = Ok self' ->
  ∃ bs, blocks_of self tbl = Some bs ∧
    blocks_of self' tbl = Some (bs ++ [p])%list ∧
    (∀ tbl', x_id tbl' ≠ x_id tbl -> blocks_of self' tbl' = blocks_of self tbl').
Proof.
  intros [Hrefs Hheap Hcur Hreg] Hlast.
  destruct (Hreg tbl Hlast) as [r Hr].
  rewrite Hlast in Hcur. simpl in Hcur. rewrite Hr in Hcur.
  destruct (Hheap r (od_lookup_ref _ _ _ Hr)) as [bs Hbs].
  unfold add. rewrite Hcur. intros [= <-]. exists bs.
  unfold blocks_of. simpl. rewrite Hr. simpl.
  split; [done|]. split.
  - by rewrite lookup_alter_eq, Hbs.
  - intros tbl' Hne. destruct (od_lookup (x_id tbl') (tables self)) as [r'|] eqn:Hr';
      simpl; [|done].
    rewrite lookup_alter_ne; [done|]. intros <-.
    apply Hne. by eapply od_lookup_inj.
Qed.

(** The only failure of the registration phase: a run of calls returns
    unless it starts with [add], which raises [AttributeError] (there is
    no current table yet). *)
Theorem run_returns_unless_add_first (cs : list call) :
  match cs with
  | Add _ :: _ => run cs = Raise AttributeError
  | _ => ∃ self, run cs = Ok self
  end.
Proof.
  destruct cs as [|[tbl|p] cs]; [by eexists | | done].
  unfold run. simpl.
  destruct (for_each_total (fun self => is_Some (current_table self)) cs step
              (register __init__ tbl)) as (self & Hrun & _).
  - by eexists.
  - intros s [tbl'|p] Hs _; simpl.
    + eexists. split; [done|]. by eexists.
    + destruct Hs as [r Hr]. unfold add. rewrite Hr. eexists. split; [done|].
      simpl. by eexists.
  - by exists self.
Qed.

(** The calls [cs] after a state in which the table registered last is
    not [tbl] leave the list of [tbl] alone, as long as they do not
    register [tbl] again. *)
Lemma blocks_kept (rest cs : list call) (s self : t) (tbl : xnode) :
  for_each rest step s = Ok self ->
  reachable_inv cs s ->
  (∃ t', last_registered cs = Some t' ∧ x_id t' ≠ x_id tbl) ->
  (∀ tbl', Register tbl' ∈ rest -> x_id tbl' ≠ x_id tbl) ->
  blocks_of self tbl = blocks_of s tbl.
Proof.
  revert cs s. induction rest as [|c rest IH]; intros cs s Hrun Hinv Hlast Hrest.
  - by injection Hrun as <-.
  - simpl in Hrun. apply bind_Ok in Hrun as (s1 & Hstep & Hrun).
    destruct c as [tbl'|p]; simpl in Hstep.
    + injection Hstep as <-.
      rewrite (IH (cs ++ [Register tbl'])%list _ Hrun).
      * apply (register_blocks cs); [done|].
        intros Heq. apply (Hrest tbl'); [set_solver | done].
      * by apply register_inv.
      * exists tbl'. rewrite last_registered_snoc. split; [done|].
        apply Hrest. set_solver.
      * intros t3 Hin. apply Hrest. set_solver.
    + destruct Hlast as (t' & Hlast & Hne).
      destruct (add_blocks cs s s1 t' p Hinv Hlast Hstep) as (bs & _ & _ & Hother).
      rewrite (IH (cs ++ [Add p])%list _ Hrun).
      * apply Hother. congruence.
      * by eapply add_inv.
      * exists t'. by rewrite last_registered_snoc.
      * intros t3 Hin. apply Hrest. set_solver.
Qed.

Lemma blocks_added (ps : list xnode) (cs : list call) (s self : t) (tbl : xnode)
    (bs : list xnode) :
  for_each (Add <$> ps) step s = Ok self ->
  reachable_inv cs s -> last_registered cs = Some tbl ->
  blocks_of s tbl = Some bs ->
  reachable_inv (cs ++ (Add <$> ps))%list self ∧
  last_registered (cs ++ (Add <$> ps))%list = Some tbl ∧
  blocks_of self tbl = Some (bs ++ ps)%list.
Proof.
  revert cs s bs. induction ps as [|p ps IH]; intros cs s bs Hrun Hinv Hlast Hbs.
  - injection Hrun as <-. simpl. by rewrite !app_nil_r.
  - simpl in Hrun. apply bind_Ok in Hrun as (s1 & Hstep & Hrun).
    destruct (add_blocks cs s s1 tbl p Hinv Hlast Hstep) as (bs' & Hbs' & Hbs1 & _).
    assert (bs' = bs) as -> by congruence.
    destruct (IH (cs ++ [Add p])%list s1 (bs ++ [p])%list Hrun) as (Hinv' & Hlast' & Hbs2).
    + by eapply add_inv.
    + by rewrite last_registered_snoc.
    + done.
    + rewrite fmap_cons, (cons_middle (Add p)), !app_assoc.
      rewrite <- app_assoc in Hbs2. done.
Qed.

(** The blocks of a table are the paragraphs added between its last
    registration and the next registration of any table: later
    paragraphs go to other tables, and the paragraphs added after an
    earlier registration of the same table are dropped. *)
Theorem blocks_between_registrations (pre rest : list call) (tbl : xnode)
    (ps : list xnode) (self : t) :
  run (pre ++ Register tbl :: (Add <$> ps) ++ rest)%list = Ok self ->
  (∀ tbl', Register tbl' ∈ rest -> x_id tbl' ≠ x_id tbl) ->
  (∀ p rest', rest ≠ Add p :: rest') ->
  blocks_of self tbl = Some ps.
Proof.
  intros Hrun Hrest Hhead.
  rewrite run_app in Hrun. apply bind_Ok in Hrun as (s0 & Hpre & Hrun).
  simpl in Hrun. rewrite for_each_app in Hrun.
  apply bind_Ok in Hrun as (s2 & Hadds & Hrun).
  pose proof (run_reachable _ _ Hpre) as Hinv0.
  pose proof (register_inv pre s0 tbl Hinv0) as Hinv1.
  destruct (register_blocks pre s0 tbl Hinv0) as [Hempty _].
  destruct (blocks_added ps _ _ _ tbl [] Hadds Hinv1) as (Hinv2 & Hlast2 & Hbs2);
    [by rewrite last_registered_snoc | done |].
  simpl in Hbs2.
  destruct rest as [|[t2|p] rest].
  - by injection Hrun as <-.
  - simpl in Hrun.
    rewrite (blocks_kept rest (((pre ++ [Register tbl]) ++ (Add <$> ps)) ++ [Register t2])%list
               (register s2 t2) self tbl Hrun).
    + rewrite <- Hbs2. apply (register_blocks _ _ _ Hinv2).
      intros Heq. apply (Hrest t2); [set_solver | done].
    + by apply register_inv.
    + exists t2. rewrite last_registered_snoc. split; [done|]. apply Hrest. set_solver.
    + intros t3 Hin. apply Hrest. set_solver.
  - by destruct (Hhead p rest).
Qed.

Lemma keys_register (self : t) (tbl : xnode) :
  keys (register self tbl)
  = if bool_decide (x_id tbl ∈ keys self) then keys self
    else (keys self ++ [x_id tbl])%list.
Proof.
  unfold keys, register. simpl.
  induction (tables self) as [|[k r] od IH]; simpl; [done|].
  destruct (decide (x_id k = x_id tbl)) as [Heq|Hne]; simpl.
  - rewrite bool_decide_true; [done|]. rewrite Heq. set_solver.
  - rewrite IH.
    assert (bool_decide (x_id tbl ∈ x_id k :: map (fun kr => x_id kr.1) od)
            = bool_decide (x_id tbl ∈ map (fun kr => x_id kr.1) od)) as ->.
    { apply bool_decide_ext. rewrite elem_of_cons. naive_solver. }
    by destruct (bool_decide _).
Qed.

Lemma keys_step (self self' : t) (c : call) :
  step self c = Ok self' ->
  keys self `prefix_of` keys self' ∧
  (NoDup (keys self) -> NoDup (keys self')) ∧
  (∀ id, id ∈ keys self' ↔
         id ∈ keys self ∨ ∃ tbl, c = Register tbl ∧ x_id tbl = id).
Proof.
  destruct c as [tbl|p]; simpl.
  - intros [= <-]. rewrite keys_register. case_bool_decide as Hin.
    + split; [done|]. split; [done|]. intros id. split; [by left|].
      intros [?|(tbl' & [= <-] & <-)]; done.
    + split; [by apply prefix_app_r|]. split.
      * intros Hnd. apply NoDup_app. split; [done|]. split; [|apply NoDup_singleton].
        intros x Hx ->%list_elem_of_singleton. done.
      * intros id. rewrite elem_of_app, list_elem_of_singleton. split.
        -- intros [?| ->]; [by left | right; by exists tbl].
        -- intros [?|(tbl' & [= <-] & <-)]; [by left | by right].
  - unfold add. destruct (current_table self); [|done]. intros [= <-].
    unfold keys. simpl. split; [done|]. split; [done|].
    intros id. split; [by left|]. by intros [?|(tbl' & [=] & _)].
Qed.

(** The tables [apply_markup] iterates over: each registered table
    once, whatever the number of times it was registered, and no other;
    and a table keeps the place it got when it was first registered,
    since later calls only add tables at the end. *)
Theorem keys_first_registration (cs1 cs2 : list call) (self : t) :
  run (cs1 ++ cs2) = Ok self ->
  NoDup (keys self) ∧
  (∀ id, id ∈ keys self ↔ ∃ tbl, Register tbl ∈ (cs1 ++ cs2)%list ∧ x_id tbl = id) ∧
  ∃ self1, run cs1 = Ok self1 ∧ keys self1 `prefix_of` keys self.
Proof.
  assert (Hall : ∀ cs s, run cs = Ok s ->
            NoDup (keys s) ∧
            ∀ id, id ∈ keys s ↔ ∃ tbl, Register tbl ∈ cs ∧ x_id tbl = id).
  { induction cs as [|c cs IH] using rev_ind; intros s.
    - intros [= <-]. split; [apply NoDup_nil_2|].
      intros id. split; [by intros ?%elem_of_nil|].
      by intros (tbl & ?%elem_of_nil & _).
    - rewrite run_snoc. intros (s0 & Hrun & Hstep)%bind_Ok.
      destruct (IH _ Hrun) as [Hnd Hmem].
      destruct (keys_step _ _ _ Hstep) as (_ & Hnd' & Hmem').
      split; [by apply Hnd'|]. intros id. rewrite Hmem', Hmem. split.
      + intros [(tbl & Hin & Hid)|(tbl & -> & Hid)]; exists tbl; set_solver.
      + intros (tbl & [Hin| <-%list_elem_of_singleton]%elem_of_app & Hid).
        * left. by exists tbl.
        * right. by exists tbl. }
  intros Hrun. destruct (Hall _ _ Hrun) as [Hnd Hmem].
  split; [done|]. split; [done|].
  rewrite run_app in Hrun. apply bind_Ok in Hrun as (s1 & Hrun1 & Hrun2).
  exists s1. split; [done|]. clear Hnd Hmem Hrun1 Hall.
  revert s1 Hrun2. induction cs2 as [|c cs2 IH]; intros s1 Hrun2.
  - by injection Hrun2 as <-.
  - simpl in Hrun2. apply bind_Ok in Hrun2 as (s2 & Hstep & Hrun2).
    destruct (keys_step _ _ _ Hstep) as (Hpre & _).
    etrans; [exact Hpre|]. by apply IH.
Qed.

(** [rmap]: every paragraph of the object map is found, under the key
    of the item that comes last for it; nothing else is found, and
    looking up any other element raises [KeyError]. *)
Theorem make_rmap_lookup (object_map : list (nat * xnode)) :
  let rmap := make_rmap object_map in
  (∀ pre k v post, object_map = (pre ++ (k, v) :: post)%list ->
     x_id v ∉ map (fun kv => x_id kv.2) post -> getitem rmap v = Ok k) ∧
  (∀ x k, getitem rmap x = Ok k -> ∃ v, (k, v) ∈ object_map ∧ x_id v = x_id x) ∧
  (∀ x, x_id x ∉ map (fun kv => x_id kv.2) object_map ->
     getitem rmap x = Raise KeyError).
Proof.
  intros rmap. unfold rmap, make_rmap, getitem.
  assert (Hfold : ∀ (om : list (nat * xnode)) (m0 : gmap nat nat) id,
            foldl (fun rmap '(k, v) => <[x_id v := k]> rmap) m0 om !! id
            = match last (filter (fun kv => x_id kv.2 = id) om) with
              | Some kv => Some kv.1
              | None => m0 !! id
              end).
  { induction om as [|[k v] om IH] using rev_ind; intros m0 id; [done|].
    rewrite foldl_app, filter_app. simpl.
    destruct (decide (x_id v = id)) as [<-|Hne].
    - rewrite filter_cons_True by done. rewrite filter_nil, last_snoc.
      by rewrite lookup_insert_eq.
    - rewrite filter_cons_False by done. rewrite filter_nil, app_nil_r.
      by rewrite lookup_insert_ne, IH. }
  split; [|split].
  - intros pre k v post -> Hpost. rewrite Hfold, filter_app.
    rewrite filter_cons_True by done.
    assert (filter (fun kv : nat * xnode => x_id kv.2 = x_id v) post = []) as ->.
    { clear -Hpost. induction post as [|[k' v'] post IH]; [done|].
      rewrite filter_cons_False; [apply IH; set_solver|]. simpl. set_solver. }
    by rewrite last_snoc.
  - intros x k. rewrite Hfold, lookup_empty.
    destruct (last _) as [[k' v]|] eqn:Hlast; [|done].
    intros [= <-]. apply last_Some_elem_of in Hlast.
    apply list_elem_of_filter in Hlast as [Hid Hin]. by exists v.
  - intros x Hx. rewrite Hfold, lookup_empty.
    destruct (last _) as [[k' v]|] eqn:Hlast; [|done].
    apply last_Some_elem_of in Hlast.
    apply list_elem_of_filter in Hlast as [Hid Hin].
    exfalso. apply Hx. apply list_elem_of_fmap. by exists (k', v).
Qed.

End registration_more.

(** ** The contents of the cells *)

Lemma Forall2_transfer {A B} (P Q : A -> B -> Prop) (l : list A) (k : list B) :
  Forall2 P l k ->
  (∀ x y, x ∈ l -> y ∈ k -> P x y -> Q x y) ->
  Forall2 Q l k.
Proof.
  induction 1 as [|x y l k Hxy Hlk IH]; intros Himpl; [done|].
  apply Forall2_cons. split.
  - apply Himpl; [set_solver.. | done].
  - apply IH. intros x' y' Hx' Hy'. apply Himpl; set_solver.
Qed.

Section contents.
Context {imports : Imports}.
Import Lxml Tables.
Implicit Types (d : tree) (n m q c : nat) (old : gset nat) (rmap : gmap nat nat).

Lemma listed_ext old d d' :
  (∀ m, getparent d' m = getparent d m) -> (∀ m, children d' m = children d m) ->
  listed_under_new old d -> listed_under_new old d'.
Proof. intros Hp Hc Hl n q Hq. rewrite Hp, Hc. by apply Hl. Qed.

Lemma keeps_cells_refl old bs d : keeps_cells old bs d d.
Proof. by intros x. Qed.

Lemma keeps_cells_trans old bs1 bs2 d1 d2 d3 :
  keeps_cells old bs1 d1 d2 -> keeps_cells old bs2 d2 d3 ->
  dom d1 ⊆ dom d2 -> (∀ x, x ∈ dom d1 -> tag d2 x = tag d1 x) ->
  keeps_cells old (bs1 ++ bs2) d1 d3.
Proof.
  intros H12 H23 Hdom Htag x Hx Hold Htd Hbs.
  assert (H1 : children d2 x = children d1 x).
  { apply H12; [done..|]. intros b Hb. apply Hbs. set_solver. }
  rewrite <- H1. apply H23; [set_solver | done | by rewrite Htag |].
  intros b Hb. rewrite H1. apply Hbs. set_solver.
Qed.

Lemma keeps_cells_weaken old bs bs' d d' :
  keeps_cells old bs d d' -> (∀ b, b ∈ bs -> b ∈ bs') -> keeps_cells old bs' d d'.
Proof. intros Hk Hsub x Hx Hold Htd Hbs. apply Hk; [done..|]. intros b Hb. by apply Hbs, Hsub. Qed.

(** Moving one block into a cell container. *)
Lemma move_block_listed old d td b d' :
  append d td b = Ok d' -> listed_under_new old d -> td ∈ dom d ->
  listed_under_new old d' ∧
  (td ∉ old -> b ∉ children d td -> children d' td = (children d td ++ [b])%list) ∧
  (∀ x, x ≠ td -> x ∉ old -> b ∉ children d x -> children d' x = children d x).
Proof.
  intros Happ Hl Htd.
  assert (Hdet : ∀ x, x ∉ old -> b ∉ children d x ->
                      children (detach d b) x = children d x).
  { intros x Hx Hb. rewrite detach_children. case_decide as Hp; [|done].
    exfalso. apply Hb. by apply Hl. }
  split; [|split].
  - intros n q Hq. rewrite (append_getparent _ _ _ _ n Happ),
      (append_children _ _ _ _ q Happ).
    assert (Hkeep : ∀ m, m ≠ b -> m ∈ children d q -> m ∈ children (detach d b) q).
    { intros m Hm Hin. rewrite detach_children. case_decide; [|done].
      apply list_elem_of_filter. by split. }
    destruct (decide (n = b)) as [->|Hn].
    + case_decide; [|done]. intros [= <-].
      rewrite decide_True by done. set_solver.
    + intros Hp. pose proof (Hl n q Hq Hp) as Hin.
      case_decide as Hc; [|by apply Hkeep]. destruct Hc as [-> _].
      apply elem_of_app. left. by apply Hkeep.
  - intros Hold Hb. rewrite (append_children _ _ _ _ td Happ).
    rewrite decide_True by done. by rewrite Hdet.
  - intros x Hx Hold Hb. rewrite (append_children _ _ _ _ x Happ).
    rewrite decide_False by naive_solver. by apply Hdet.
Qed.

(** An element made and appended to [q]. *)
Lemma new_child_listed old name text s d q d' :
  let n := (E name text d).1 in
  append (alter (set_tail s) n (E name text d).2) q n = Ok d' ->
  q ∈ dom d -> listed_under_new old d -> listed_under_new old d'.
Proof.
  intros n Happ Hq Hl.
  destruct (new_child name text s d q d' Happ Hq)
    as (Hfresh & Hdom & Htag & Hch & Hgp & Hchq & Hsame & Hchsame).
  fold n in Hfresh, Hch, Hgp, Hchq, Hsame, Hchsame.
  intros n0 q0 Hq0 Hp.
  destruct (decide (n0 = n)) as [->|Hn0].
  - rewrite Hgp in Hp. injection Hp as <-. rewrite Hchq. set_solver.
  - destruct (Hsame n0 Hn0) as [_ Hgp0]. rewrite Hgp0 in Hp.
    pose proof (Hl n0 q0 Hq0 Hp) as Hin.
    destruct (decide (q0 = n)) as [->|Hq0n].
    { rewrite (children_outside d n) in Hin by done. by apply elem_of_nil in Hin. }
    destruct (decide (q0 = q)) as [->|Hq0q].
    + rewrite Hchq. set_solver.
    + by rewrite Hchsame.
Qed.

(** The table element put in front of the first block. *)
Lemma insert_table_listed old rmap first d t d2 :
  insert_table rmap first d = Ok (t, d2) ->
  assembly_inv old d -> (∀ k b, rmap !! k = Some b -> b ∈ old) ->
  listed_under_new old d ->
  listed_under_new old d2 ∧
  keeps_cells old (option_list (rmap !! x_id first)) d d2.
Proof.
  intros Hins Hinv Hrmap Hl.
  destruct (insert_table_spec old rmap first d t d2 Hins Hinv Hrmap)
    as (b & parent & idx & Hb & Hp & Hidx & Hfresh & Hdom2 & Htag2 & Hch2 & Hgp2
        & Hchp & Hinv2 & Hext2 & Hgpsame & Hchsame).
  split.
  - intros n0 q0 Hq0 Hp0.
    destruct (decide (n0 = t)) as [->|Hn0].
    + rewrite Hgp2 in Hp0. injection Hp0 as <-. rewrite Hchp. set_solver.
    + rewrite Hgpsame in Hp0 by done.
      pose proof (Hl n0 q0 Hq0 Hp0) as Hin.
      destruct (decide (q0 = t)) as [->|Hq0t].
      { rewrite (children_outside d t) in Hin by done. by apply elem_of_nil in Hin. }
      destruct (decide (q0 = parent)) as [->|Hq0p].
      * rewrite Hchp. rewrite <- (take_drop idx (children d parent)) in Hin. set_solver.
      * by rewrite Hchsame.
  - intros x Hx Hold Htd Hbs. rewrite Hb in Hbs. simpl in Hbs.
    apply Hchsame; [set_solver|]. intros ->.
    apply (Hbs b); [set_solver|]. by apply Hl.
Qed.

(** The loop over the paragraphs of a cell. *)
Lemma move_blocks_contents old rmap td (ps : list xnode) d d' :
  for_each ps (fun d p => block ← getitem rmap p; append d td block) d = Ok d' ->
  listed_under_new old d -> td ∈ dom d -> td ∉ old ->
  NoDup (omap (fun p => rmap !! x_id p) ps) ->
  (∀ b, b ∈ omap (fun p => rmap !! x_id p) ps -> b ∉ children d td) ->
  listed_under_new old d' ∧
  children d' td = (children d td ++ omap (fun p => rmap !! x_id p) ps)%list ∧
  (∀ x, x ≠ td -> x ∉ old ->
        (∀ b, b ∈ omap (fun p => rmap !! x_id p) ps -> b ∉ children d x) ->
        children d' x = children d x).
Proof.
  revert d. induction ps as [|p ps IH]; intros d Hrun Hl Htd Hold Hnd Hnotin;
    simpl in Hrun.
  - injection Hrun as <-. simpl. by rewrite app_nil_r.
  - apply bind_Ok in Hrun as (d1 & Hstep & Hrun).
    apply bind_Ok in Hstep as (b & Hb & Happ).
    unfold getitem in Hb. destruct (rmap !! x_id p) as [b'|] eqn:Hp; [|done].
    injection Hb as ->. simpl in Hnd, Hnotin |- *. rewrite Hp in Hnd, Hnotin |- *.
    simpl in Hnd, Hnotin |- *.
    apply NoDup_cons in Hnd as [Hbps Hnd].
    destruct (move_block_listed old d td b d1 Happ Hl Htd) as (Hl1 & Hch1 & Hframe1).
    specialize (Hch1 Hold (Hnotin b ltac:(set_solver))).
    destruct (IH d1 Hrun Hl1) as (Hl' & Hch' & Hframe'); [| done | done | |].
    { by rewrite (append_dom _ _ _ _ Happ). }
    { intros b0 Hb0. rewrite Hch1. intros [Hin| ->%list_elem_of_singleton]%elem_of_app.
      - by apply (Hnotin b0); [set_solver|].
      - done. }
    split; [done|]. split.
    + by rewrite Hch', Hch1, <- app_assoc.
    + intros x Hx Hxold Hdisj.
      assert (H1 : children d1 x = children d x).
      { apply Hframe1; [done..|]. apply Hdisj. set_solver. }
      rewrite <- H1. apply Hframe'; [done..|].
      intros b0 Hb0. rewrite H1. apply Hdisj. set_solver.
Qed.

Lemma add_cell_contents old rmap tr d tc d' :
  add_cell rmap tr d tc = Ok d' ->
  assembly_inv old d -> (∀ k b, rmap !! k = Some b -> b ∈ old) ->
  tr ∈ dom d -> tr ∉ old -> tag d tr = Some "tr" ->
  listed_under_new old d -> NoDup (cell_blocks rmap tc) ->
  listed_under_new old d' ∧ keeps_cells old (cell_blocks rmap tc) d d' ∧
  ∀ td, children d' tr = (children d tr ++ [td])%list ->
        children d' td = cell_blocks rmap tc.
Proof.
  unfold add_cell. intros Hrun Hinv Hrmap Htr Htrold Htrtag Hl Hnd.
  pose proof (new_child "td" None (nl ++ tab ++ tab ++ tab) d tr) as Hnew.
  pose proof (new_child_extends old "td" None (nl ++ tab ++ tab ++ tab) d tr) as Hnewx.
  pose proof (new_child_listed old "td" None (nl ++ tab ++ tab ++ tab) d tr) as Hnewl.
  destruct (E "td" None d) as [td d0]. cbn [fst snd] in Hnew, Hnewx, Hnewl.
  apply bind_Ok in Hrun as (d1 & Happ & Hloop).
  destruct (Hnew d1 Happ Htr)
    as (Hfresh & Hdom & Htag & Hch & Hgp & Hchtr & Hsame & Hchsame).
  destruct (Hnewx d1 Happ Htr Hinv) as [Hinv1 Hext1].
  pose proof (Hnewl d1 Happ Htr Hl) as Hl1.
  destruct (move_blocks_extends old rmap td _ d1 d' Hloop Hinv1 Hrmap Htag)
    as (Hdom' & Hinv' & Hext').
  assert (Htd1 : td ∈ dom d1) by set_solver.
  assert (Htr1 : tr ∈ dom d1) by set_solver.
  assert (Htdold : td ∉ old) by (destruct Hinv; set_solver).
  destruct (move_blocks_contents old rmap td _ d1 d' Hloop Hl1 Htd1 Htdold Hnd)
    as (Hl' & Hch' & Hframe').
  { intros b _. rewrite Hch. apply not_elem_of_nil. }
  rewrite Hch in Hch'. simpl in Hch'.
  split; [done|]. split.
  - intros x Hx Hxold Hxtag Hdisj.
    assert (x ≠ td) by (intros ->; done).
    assert (x ≠ tr) by (intros ->; congruence).
    assert (H1 : children d1 x = children d x) by by apply Hchsame.
    rewrite <- H1. apply Hframe'; [done..|]. intros b Hb. rewrite H1. by apply Hdisj.
  - intros td' Htd'.
    assert (Hchtr' : children d' tr = children d1 tr).
    { apply (ext_children _ _ _ _ Hext'); [done..| |set_solver].
      destruct (Hsame tr) as [-> _]; [by intros -> | by rewrite Htrtag]. }
    rewrite Hchtr', Hchtr in Htd'. apply app_inv_head in Htd'.
    by injection Htd' as <-.
Qed.

(** The loop over the cells of a row. *)
Lemma add_cells_contents old rmap tr (tcs : list xnode) d d' :
  for_each tcs (add_cell rmap tr) d = Ok d' ->
  assembly_inv old d -> (∀ k b, rmap !! k = Some b -> b ∈ old) ->
  tr ∈ dom d -> tr ∉ old -> tag d tr = Some "tr" ->
  listed_under_new old d -> NoDup (tcs ≫= cell_blocks rmap) ->
  listed_under_new old d' ∧ keeps_cells old (tcs ≫= cell_blocks rmap) d d' ∧
  ∀ tds, children d' tr = (children d tr ++ tds)%list ->
         Forall2 (fun td tc => children d' td = cell_blocks rmap tc) tds tcs.
Proof.
  intros Hrun Hinv Hrmap. revert d Hrun Hinv.
  induction tcs as [|tc tcs IH]; intros d Hrun Hinv Htr Htrold Htrtag Hl Hnd;
    simpl in Hrun.
  - injection Hrun as <-. split; [done|]. split; [apply keeps_cells_refl|].
    intros tds Htds. rewrite <- (app_nil_r (children d tr)) in Htds at 1.
    apply app_inv_head in Htds as <-. constructor.
  - apply bind_Ok in Hrun as (d1 & Hstep & Hrun).
    rewrite bind_cons in Hnd. apply NoDup_app in Hnd as (Hnd1 & Hdisj & Hnd2).
    destruct (add_cell_spec old rmap tr d tc d1 Hstep Hinv Hrmap Htr Htrold Htrtag)
      as (td & Hfresh & Hdom1 & Htag1 & Hgp1 & Hch1 & Hinv1 & Hext1).
    destruct (add_cell_contents old rmap tr d tc d1 Hstep Hinv Hrmap Htr Htrold Htrtag
                Hl Hnd1) as (Hl1 & Hkeep1 & Hcont1).
    assert (Htr1 : tr ∈ dom d1) by set_solver.
    assert (Htrtag1 : tag d1 tr = Some "tr") by by rewrite (ext_tag _ _ _ _ Hext1).
    destruct (add_cells_spec old rmap tr tcs d1 d' Hrun Hinv1 Hrmap Htr1 Htrold Htrtag1)
      as (tds' & _ & _ & _ & _ & Hch' & _ & _ & _).
    destruct (IH d1 Hrun Hinv1 Htr1 Htrold Htrtag1 Hl1 Hnd2) as (Hl' & Hkeep' & Hcont').
    split; [done|]. split.
    + rewrite bind_cons. eapply keeps_cells_trans; [done..| |].
      * by destruct Hext1.
      * intros x Hx. by apply (ext_tag _ _ _ _ Hext1).
    + intros tds Htds. rewrite Hch', Hch1, <- app_assoc in Htds.
      apply app_inv_head in Htds as <-. simpl. apply Forall2_cons. split.
      * rewrite <- (Hcont1 td Hch1). apply Hkeep'; [set_solver | | done |].
        { destruct Hinv. set_solver. }
        intros b Hb. rewrite (Hcont1 td Hch1). intros Hin. by apply (Hdisj b).
      * apply Hcont'. by rewrite Hch'.
Qed.

Lemma add_row_contents old rmap table d row d' :
  add_row rmap table d row = Ok d' ->
  assembly_inv old d -> (∀ k b, rmap !! k = Some b -> b ∈ old) ->
  table ∈ dom d -> table ∉ old -> tag d table = Some "table" ->
  listed_under_new old d -> NoDup (row_blocks rmap row) ->
  listed_under_new old d' ∧ keeps_cells old (row_blocks rmap row) d d' ∧
  ∀ tr, children d' table = (children d table ++ [tr])%list ->
        Forall2 (fun td tc => children d' td = cell_blocks rmap tc)
                (children d' tr) (XPath (Child "w:tc") row).
Proof.
  unfold add_row. intros Hrun Hinv Hrmap Ht Htold Httag Hl Hnd.
  pose proof (new_child "tr" (Some (nl ++ tab ++ tab ++ tab)) (nl ++ tab ++ tab) d table)
    as Hnew.
  pose proof (new_child_extends old "tr" (Some (nl ++ tab ++ tab ++ tab))
                (nl ++ tab ++ tab) d table) as Hnewx.
  pose proof (new_child_listed old "tr" (Some (nl ++ tab ++ tab ++ tab))
                (nl ++ tab ++ tab) d table) as Hnewl.
  destruct (E "tr" (Some (nl ++ tab ++ tab ++ tab)) d) as [tr d0].
  cbn [fst snd] in Hnew, Hnewx, Hnewl.
  apply bind_Ok in Hrun as (d1 & Happ & Hrun).
  apply bind_Ok in Hrun as (d2 & Hcells & Hrun). injection Hrun as <-.
  destruct (Hnew d1 Happ Ht)
    as (Hfresh & Hdom & Htag & Hch & Hgp & Hcht & Hsame & Hchsame).
  destruct (Hnewx d1 Happ Ht Hinv) as [Hinv1 Hext1].
  pose proof (Hnewl d1 Happ Ht Hl) as Hl1.
  assert (Htr1 : tr ∈ dom d1) by set_solver.
  assert (Htrold : tr ∉ old) by (destruct Hinv; set_solver).
  destruct (add_cells_spec old rmap tr _ d1 d2 Hcells Hinv1 Hrmap Htr1 Htrold Htag)
    as (tds & _ & _ & _ & _ & Hch2 & _ & _ & Hext2).
  destruct (add_cells_contents old rmap tr _ d1 d2 Hcells Hinv1 Hrmap Htr1 Htrold Htag
              Hl1 Hnd) as (Hl2 & Hkeep2 & Hcont2).
  split; [|split].
  - eapply listed_ext; [| |exact Hl2].
    + intros m. apply set_last_tail_getparent.
    + intros m. apply set_last_tail_children.
  - intros x Hx Hxold Hxtag Hdisj. rewrite set_last_tail_children.
    assert (x ≠ tr) by (intros ->; done).
    assert (x ≠ table) by (intros ->; congruence).
    assert (H1 : children d1 x = children d x) by by apply Hchsame.
    rewrite <- H1. apply Hkeep2; [set_solver | done | |].
    + destruct (Hsame x) as [-> _]; done.
    + intros b Hb. rewrite H1. by apply Hdisj.
  - intros tr'. rewrite !set_last_tail_children. intros Htr'.
    assert (Hcht2 : children d2 table = children d1 table).
    { apply (ext_children _ _ _ _ Hext2); [set_solver | done | |].
      - destruct (Hsame table) as [-> _]; [by intros -> | by rewrite Httag].
      - intros ->%elem_of_singleton. done. }
    rewrite Hcht2, Hcht in Htr'. apply app_inv_head in Htr'. injection Htr' as <-.
    eapply Forall2_impl; [apply Hcont2; by rewrite Hch2, Hch|].
    intros td tc Htd. by rewrite set_last_tail_children.
Qed.

(** What is known of the elements of a finished table. *)
Lemma table_of_nodes d t trs tdss tr :
  table_of d t trs tdss -> tr ∈ children d t ->
  tr ∈ created trs tdss ∧ tag d tr = Some "tr" ∧
  ∀ td, td ∈ children d tr -> td ∈ created trs tdss ∧ tag d td = Some "td".
Proof.
  intros (_ & -> & Hrows). induction Hrows as [|tr0 tds trs tdss Hrow Hrows IH].
  - by intros ?%elem_of_nil.
  - rewrite created_cons. intros [->|Hin]%elem_of_cons.
    + destruct Hrow as (Htag & _ & Hch & Hall). split; [set_solver|]. split; [done|].
      intros td Htd. rewrite Hch in Htd. split; [set_solver|].
      rewrite Forall_forall in Hall. by apply Hall.
    + destruct (IH Hin) as (Hc & Htag & Htds). split; [set_solver|]. split; [done|].
      intros td Htd. destruct (Htds td Htd). split; [set_solver | done].
Qed.

(** The loop over the rows of a table. *)
Lemma add_rows_contents old rmap table (rows : list xnode) d d' :
  for_each rows (add_row rmap table) d = Ok d' ->
  assembly_inv old d -> (∀ k b, rmap !! k = Some b -> b ∈ old) ->
  table ∈ dom d -> table ∉ old -> tag d table = Some "table" ->
  listed_under_new old d -> NoDup (rows ≫= row_blocks rmap) ->
  listed_under_new old d' ∧ keeps_cells old (rows ≫= row_blocks rmap) d d' ∧
  ∀ trs, children d' table = (children d table ++ trs)%list ->
    Forall2 (fun tr row =>
      Forall2 (fun td tc => children d' td = cell_blocks rmap tc)
              (children d' tr) (XPath (Child "w:tc") row)) trs rows.
Proof.
  intros Hrun Hinv Hrmap. revert d Hrun Hinv.
  induction rows as [|row rows IH]; intros d Hrun Hinv Ht Htold Httag Hl Hnd;
    simpl in Hrun.
  - injection Hrun as <-. split; [done|]. split; [apply keeps_cells_refl|].
    intros trs Htrs. rewrite <- (app_nil_r (children d table)) in Htrs at 1.
    apply app_inv_head in Htrs as <-. constructor.
  - apply bind_Ok in Hrun as (d1 & Hstep & Hrun).
    rewrite bind_cons in Hnd. apply NoDup_app in Hnd as (Hnd1 & Hdisj & Hnd2).
    destruct (add_row_spec old rmap table d row d1 Hstep Hinv Hrmap Ht Htold Httag)
      as (tr & tds & _ & _ & Hnew1 & Hdom1 & Hch1 & Hrow1 & Hinv1 & Hext1).
    destruct (add_row_contents old rmap table d row d1 Hstep Hinv Hrmap Ht Htold Httag
                Hl Hnd1) as (Hl1 & Hkeep1 & Hcont1).
    assert (Ht1 : table ∈ dom d1) by set_solver.
    assert (Httag1 : tag d1 table = Some "table") by by rewrite (ext_tag _ _ _ _ Hext1).
    destruct (add_rows_spec old rmap table rows d1 d' Hrun Hinv1 Hrmap Ht1 Htold Httag1)
      as (trs' & _ & _ & _ & _ & _ & Hch' & _ & _ & Hext').
    destruct (IH d1 Hrun Hinv1 Ht1 Htold Httag1 Hl1 Hnd2) as (Hl' & Hkeep' & Hcont').
    assert (Hold : old ⊆ dom d) by by destruct Hinv.
    split; [done|]. split.
    + rewrite bind_cons. eapply keeps_cells_trans; [done..| |].
      * by destruct Hext1.
      * intros x Hx. by apply (ext_tag _ _ _ _ Hext1).
    + intros trs Htrs. rewrite Hch', Hch1, <- app_assoc in Htrs.
      apply app_inv_head in Htrs as <-. simpl. apply Forall2_cons. split.
      * destruct Hrow1 as (Htrtag & Hgp & Hchtr & Hall).
        assert (Htr1 : tr ∈ dom d1) by by eapply tag_dom.
        assert (Htrold : tr ∉ old).
        { intros Hin. apply (Hnew1 tr); set_solver. }
        assert (Hchtr' : children d' tr = children d1 tr).
        { apply (ext_children _ _ _ _ Hext'); [done | done | by rewrite Htrtag |].
          intros ->%elem_of_singleton. apply (Hnew1 table); set_solver. }
        rewrite Hchtr'.
        eapply Forall2_transfer; [exact (Hcont1 tr Hch1)|].
        intros td tc Htd Htc Hc. rewrite <- Hc.
        rewrite Hchtr in Htd. rewrite Forall_forall in Hall.
        destruct (Hall td Htd) as [Htdtag _].
        apply Hkeep'; [by eapply tag_dom | | done |].
        { intros Hin. apply (Hnew1 td); set_solver. }
        intros b Hb. rewrite Hc. intros Hin. apply (Hdisj b); [|done].
        unfold row_blocks. apply list_elem_of_bind. by exists tc.
      * apply Hcont'. by rewrite Hch'.
Qed.

(** The turn of a registered table that has blocks. *)
Lemma assemble_contents old rmap tbl first rest d d' :
  assemble rmap d (tbl, first :: rest) = Ok d' ->
  assembly_inv old d -> (∀ k b, rmap !! k = Some b -> b ∈ old) ->
  listed_under_new old d -> NoDup (table_blocks rmap tbl) ->
  listed_under_new old d' ∧
  keeps_cells old (footprint rmap (tbl, first :: rest)) d d' ∧
  ∀ t d2, insert_table rmap first d = Ok (t, d2) ->
    Forall2 (fun tr row =>
      Forall2 (fun td tc => children d' td = cell_blocks rmap tc)
              (children d' tr) (XPath (Child "w:tc") row))
      (children d' t) (XPath (Child "w:tr") tbl).
Proof.
  unfold assemble. intros Hrun Hinv Hrmap Hl Hnd.
  apply bind_Ok in Hrun as ([t d2] & Hins & Hrun).
  apply bind_Ok in Hrun as (d3 & Hrows & Hrun). injection Hrun as <-.
  destruct (insert_table_spec old rmap first d t d2 Hins Hinv Hrmap)
    as (b & parent & idx & Hb & Hp & Hidx & Hfresh & Hdom2 & Htag2 & Hch2 & Hgp2
        & Hchp & Hinv2 & Hext2 & _ & _).
  destruct (insert_table_listed old rmap first d t d2 Hins Hinv Hrmap Hl) as [Hl2 Hkeep2].
  assert (Hold : old ⊆ dom d) by by destruct Hinv.
  assert (Htold : t ∉ old) by set_solver.
  assert (Ht2 : t ∈ dom d2) by set_solver.
  destruct (add_rows_contents old rmap t _ d2 d3 Hrows Hinv2 Hrmap Ht2 Htold Htag2 Hl2 Hnd)
    as (Hl3 & Hkeep3 & Hcont3).
  split; [|split].
  - eapply listed_ext; [| |exact Hl3].
    + intros m. apply set_last_tail_getparent.
    + intros m. apply set_last_tail_children.
  - intros x Hx Hxold Hxtag Hdisj. rewrite set_last_tail_children.
    revert x Hx Hxold Hxtag Hdisj.
    change (keeps_cells old (footprint rmap (tbl, first :: rest)) d d3).
    unfold footprint, anchor, moved. simpl.
    eapply keeps_cells_trans; [done..| |].
    + by destruct Hext2.
    + intros x Hx. by apply (ext_tag _ _ _ _ Hext2).
  - intros t' d2' Heq.
    assert (t' = t ∧ d2' = d2) as [-> ->] by (split; congruence).
    rewrite set_last_tail_children.
    eapply Forall2_impl; [apply Hcont3; by rewrite Hch2|].
    intros tr row Hrow. rewrite set_last_tail_children.
    eapply Forall2_impl; [exact Hrow|].
    intros td tc Htd. by rewrite set_last_tail_children.
Qed.

(** The turns of several tables. *)
Lemma assemble_all_keeps old rmap (items : list (xnode * list xnode)) d d' :
  for_each items (assemble rmap) d = Ok d' ->
  assembly_inv old d -> (∀ k b, rmap !! k = Some b -> b ∈ old) ->
  listed_under_new old d -> Forall (fun item => NoDup (moved rmap item)) items ->
  listed_under_new old d' ∧ keeps_cells old (items ≫= footprint rmap) d d'.
Proof.
  intros Hrun Hinv Hrmap. revert d Hrun Hinv.
  induction items as [|[tbl blocks] items IH]; intros d Hrun Hinv Hl Hnd; simpl in Hrun.
  - injection Hrun as <-. split; [done | apply keeps_cells_refl].
  - apply bind_Ok in Hrun as (d1 & Hstep & Hrun).
    apply Forall_cons in Hnd as [Hnd1 Hnd].
    destruct blocks as [|first rest].
    + injection Hstep as ->. rewrite bind_cons. by apply IH.
    + destruct (assemble_spec old rmap tbl first rest d d1 Hstep Hinv Hrmap)
        as (b & parent & idx & t & d2 & trs & tdss
            & _ & _ & _ & _ & _ & _ & _ & _ & _ & _ & _ & Hinv1 & Hext1).
      destruct (assemble_contents old rmap tbl first rest d d1 Hstep Hinv Hrmap Hl Hnd1)
        as (Hl1 & Hkeep1 & _).
      destruct (IH d1 Hrun Hinv1 Hl1 Hnd) as [Hl' Hkeep'].
      split; [done|]. rewrite bind_cons.
      eapply keeps_cells_trans; [done..| |].
      * by destruct Hext1.
      * intros x Hx. by apply (ext_tag _ _ _ _ Hext1).
Qed.

(** When [apply_markup] returns, no block is looked up for two cells,
    and the first block of a table is not among the blocks moved for an
    earlier table, the table element made for a registered table
    mirrors the table node down to the blocks: its children correspond
    one to one, in order, to the [w:tr] children of the node, the
    children of each of them to the [w:tc] children of that row, and
    each cell container holds exactly the blocks of the [w:p] children
    of its cell, in document order. *)
Theorem apply_markup_cell_contents (self : Tables.t) (object_map : list (nat * xnode))
    (d d' : tree) :
  let rmap := make_rmap object_map in
  let items := iteritems self in
  (∀ k b, rmap !! k = Some b -> b ∈ dom d) ->
  (∀ n q, getparent d n = Some q -> q ∈ dom d) ->
  apply_markup self object_map d = Ok d' ->
  NoDup (items ≫= moved rmap) ->
  (∀ i j it1 it2 b, items !! i = Some it1 -> items !! j = Some it2 -> (i < j)%nat ->
     anchor rmap it2 = Some b -> b ∉ moved rmap it1) ->
  ∀ i tbl first rest d1 t d2,
    items !! i = Some (tbl, first :: rest) ->
    for_each (take i items) (assemble rmap) d = Ok d1 ->
    insert_table rmap first d1 = Ok (t, d2) ->
    Forall2 (fun tr row =>
      Forall2 (fun td tc => children d' td = cell_blocks rmap tc)
              (children d' tr) (XPath (Child "w:tc") row))
      (children d' t) (XPath (Child "w:tr") tbl).
Proof.
  intros rmap items Hrmap Hparents Hrun Hnd Hanchor.
  unfold apply_markup in Hrun. fold rmap items in Hrun.
  assert (Hinv : assembly_inv (dom d) d).
  { split; [done|]. intros n q _ Hq. left. by eapply Hparents. }
  assert (Hl : listed_under_new (dom d) d).
  { intros n q Hq Hp. exfalso. apply Hq. by eapply Hparents. }
  intros i tbl first rest d1 t d2 Hi Hpre Hins.
  assert (Hmoved : ∀ l, l ⊆ items -> Forall (fun item => NoDup (moved rmap item)) l).
  { intros l Hsub. apply Forall_forall. intros it Hit.
    apply Hsub in Hit. apply list_elem_of_split in Hit as (l1 & l2 & Heq).
    rewrite Heq, bind_app, bind_cons in Hnd.
    apply NoDup_app in Hnd as (_ & _ & Hnd). by apply NoDup_app in Hnd as (Hnd & _). }
  pose proof Hrun as Hrun'.
  rewrite <-(take_drop_middle _ _ _ Hi) in Hrun'.
  rewrite for_each_app, Hpre in Hrun'. cbn [for_each mbind result_bind] in Hrun'.
  apply bind_Ok in Hrun' as (d3 & Hstep & Hpost).
  destruct (assemble_all_extends (dom d) rmap _ d d1 Hpre Hinv Hrmap) as [Hinv1 Hext1].
  destruct (assemble_all_keeps (dom d) rmap _ d d1 Hpre Hinv Hrmap Hl) as [Hl1 _].
  { apply Hmoved. intros x (i0 & Hx & _)%elem_of_take. by eapply list_elem_of_lookup_2. }
  destruct (assemble_spec (dom d) rmap tbl first rest d1 d3 Hstep Hinv1 Hrmap)
    as (b & parent & idx & t' & d2' & trs & tdss & Hb & Hp & Hidx & Hins' & Hchp & Hlens
        & Hnd3 & Hnew & Hdom3 & Htable & Hgp & Hinv3 & Hext3).
  rewrite Hins in Hins'.
  assert (t' = t ∧ d2' = d2) as [-> ->] by (split; congruence).
  destruct (assemble_contents (dom d) rmap tbl first rest d1 d3 Hstep Hinv1 Hrmap Hl1)
    as (Hl3 & _ & Hcont3).
  { assert (Hin : (tbl, first :: rest) ∈ items) by by eapply list_elem_of_lookup_2.
    pose proof (Hmoved [(tbl, first :: rest)] ltac:(set_solver)) as Hm.
    apply Forall_cons in Hm as [Hm _]. exact Hm. }
  destruct (assemble_all_extends (dom d) rmap _ d3 d' Hpost Hinv3 Hrmap) as [Hinv' Hext'].
  destruct (assemble_all_keeps (dom d) rmap _ d3 d' Hpost Hinv3 Hrmap Hl3) as [_ Hkeep'].
  { apply Hmoved. intros x [i0 Hx]%list_elem_of_lookup. rewrite lookup_drop in Hx.
    by eapply list_elem_of_lookup_2. }
  assert (Hold : dom d ⊆ dom d1) by by destruct Hinv1.
  assert (Hnewold : ∀ n, n ∈ t :: created trs tdss -> n ∉ dom d).
  { intros n Hn Hin. apply (Hnew n); set_solver. }
  assert (Htable' : table_of d' t trs tdss).
  { eapply table_of_extends; [done..| |].
    - apply Hnewold. set_solver.
    - intros n Hn. apply Hnewold. set_solver. }
  assert (Hcht : children d' t = children d3 t).
  { destruct Htable as (_ & -> & _). by destruct Htable' as (_ & -> & _). }
  rewrite Hcht.
  eapply Forall2_transfer; [exact (Hcont3 t d2 Hins)|].
  intros tr row Htr Hrow Hcells.
  destruct (table_of_nodes d3 t trs tdss tr Htable Htr) as (Htrc & Htrtag & Htds).
  assert (Hchtr : children d' tr = children d3 tr).
  { apply (ext_children _ _ _ _ Hext'); [by eapply tag_dom | | by rewrite Htrtag | set_solver].
    apply Hnewold. set_solver. }
  rewrite Hchtr.
  eapply Forall2_transfer; [exact Hcells|].
  intros td tc Htd Htc Hc. rewrite <- Hc.
  destruct (Htds td Htd) as [Htdc Htdtag].
  apply Hkeep'; [by eapply tag_dom | apply Hnewold; set_solver | done |].
  intros b0 Hb0. rewrite Hc. intros Hin.
  assert (Hmv : b0 ∈ moved rmap (tbl, first :: rest)).
  { unfold moved, table_blocks. simpl. apply list_elem_of_bind. exists row.
    split; [|done]. unfold row_blocks. apply list_elem_of_bind. by exists tc. }
  apply list_elem_of_bind in Hb0 as (it & Hfoot & Hit).
  pose proof Hit as Hit'.
  apply list_elem_of_lookup in Hit as [j Hj]. rewrite lookup_drop in Hj.
  unfold footprint in Hfoot. apply elem_of_app in Hfoot as [Hanc|Hmv2].
  - apply (Hanchor i (S i + j)%nat (tbl, first :: rest) it b0); [done | done | lia | | done].
    destruct (anchor rmap it); simpl in Hanc; set_solver.
  - rewrite <-(take_drop_middle _ _ _ Hi) in Hnd.
    rewrite bind_app, bind_cons in Hnd.
    apply NoDup_app in Hnd as (_ & _ & Hnd). apply NoDup_app in Hnd as (_ & Hdisj & _).
    apply (Hdisj b0 Hmv). apply list_elem_of_bind. by exists it.
Qed.

End contents.

(** ** What assembly keeps and what it makes *)

Section kept.
Context {imports : Imports}.
Import Lxml Tables.
Implicit Types (d : tree) (n m q c : nat) (old : gset nat) (rmap : gmap nat nat).

Lemma undisturbed_refl rmap d : undisturbed rmap d d.
Proof. intros n e He. by exists e. Qed.

Lemma undisturbed_dom rmap d0 d : undisturbed rmap d0 d -> dom d0 ⊆ dom d.
Proof.
  intros Hu n [e He]%elem_of_dom. destruct (Hu n e He) as (e' & He' & _).
  apply elem_of_dom. by eexists.
Qed.

Lemma undisturbed_alter rmap d0 d (f : element -> element) k :
  undisturbed rmap d0 d ->
  (∀ e, e_tag (f e) = e_tag e ∧ e_text (f e) = e_text e) ->
  (k ∈ dom d0 -> ∀ e, e_tail (f e) = e_tail e) ->
  (k ∈ dom d0 -> (∀ j, rmap !! j ≠ Some k) -> ∀ e, e_parent (f e) = e_parent e) ->
  undisturbed rmap d0 (alter f k d).
Proof.
  intros Hu Hf Htail Hparent n e He.
  destruct (Hu n e He) as (e' & He' & Htag & Htext & Htl & Hpar).
  rewrite lookup_alter_fmap, He'. simpl.
  destruct (decide (k = n)) as [->|Hne]; [|by exists e'].
  assert (Hn : n ∈ dom d0) by (apply elem_of_dom; by eexists).
  exists (f e'). split; [done|]. destruct (Hf e') as [-> ->].
  rewrite (Htail Hn). do 3 (split; [done|]).
  intros Hnb. rewrite (Hparent Hn Hnb). by apply Hpar.
Qed.

Lemma undisturbed_E rmap d0 d name text :
  undisturbed rmap d0 d -> undisturbed rmap d0 (E name text d).2.
Proof.
  intros Hu n e He. destruct (Hu n e He) as (e' & He' & Hrest).
  exists e'. split; [|done]. unfold E. simpl. rewrite lookup_insert_ne; [done|].
  intros <-. apply (is_fresh (dom d)). apply elem_of_dom. by eexists.
Qed.

Lemma undisturbed_detach rmap d0 d c :
  undisturbed rmap d0 d -> (c ∈ dom d0 -> ∃ k, rmap !! k = Some c) ->
  undisturbed rmap d0 (detach d c).
Proof.
  intros Hu Hc. unfold detach. destruct (getparent d c) as [p|]; [|done].
  apply undisturbed_alter; [|done..].
  apply undisturbed_alter; [done | done | done |].
  intros Hin Hnb. destruct (Hc Hin) as [k Hk]. by destruct (Hnb k).
Qed.

Lemma undisturbed_append rmap d0 d d' q c :
  undisturbed rmap d0 d -> append d q c = Ok d' ->
  (c ∈ dom d0 -> ∃ k, rmap !! k = Some c) ->
  undisturbed rmap d0 d'.
Proof.
  intros Hu Happ Hc. unfold append in Happ.
  destruct (is_ancestor_or_same _ _ _ _); [done|]. injection Happ as <-.
  apply undisturbed_alter; [|done..].
  apply undisturbed_alter; [by apply undisturbed_detach | done | done |].
  intros Hin Hnb. destruct (Hc Hin) as [k Hk]. by destruct (Hnb k).
Qed.

Lemma undisturbed_insert rmap d0 d parent idx c :
  undisturbed rmap d0 d -> c ∉ dom d0 ->
  undisturbed rmap d0 (insert d parent idx c).
Proof.
  intros Hu Hc. unfold insert.
  apply undisturbed_alter; [|done..].
  apply undisturbed_alter; [apply undisturbed_detach | done | done |]; done.
Qed.

Lemma undisturbed_set_last_tail rmap d0 d n s :
  undisturbed rmap d0 d ->
  (∀ c, last (children d n) = Some c -> c ∉ dom d0) ->
  undisturbed rmap d0 (set_last_tail d n s).
Proof.
  intros Hu Hlast. unfold set_last_tail.
  destruct (last (children d n)) as [c|] eqn:Hc; [|done].
  apply undisturbed_alter; [done | done | |]; intros Hin; by destruct (Hlast c).
Qed.

(** An element made and appended. *)
Lemma new_child_undisturbed rmap d0 name text s d q d' :
  let n := (E name text d).1 in
  append (alter (set_tail s) n (E name text d).2) q n = Ok d' ->
  undisturbed rmap d0 d -> undisturbed rmap d0 d'.
Proof.
  intros n Happ Hu.
  assert (Hn : n ∉ dom d0).
  { intros Hin%(undisturbed_dom _ _ _ Hu). by apply (E_fresh name text d). }
  eapply undisturbed_append; [|exact Happ|done].
  apply undisturbed_alter; [by apply undisturbed_E | done | done | done].
Qed.

Lemma move_blocks_undisturbed rmap d0 td (ps : list xnode) d d' :
  for_each ps (fun d p => block ← getitem rmap p; append d td block) d = Ok d' ->
  undisturbed rmap d0 d -> undisturbed rmap d0 d'.
Proof.
  intros Hrun Hu. revert Hrun. apply for_each_inv; [done|].
  intros d1 p d2 Hu1 (b & Hb & Happ)%bind_Ok.
  eapply undisturbed_append; [done..|]. intros _.
  unfold getitem in Hb. destruct (rmap !! x_id p) as [b'|] eqn:Hp; [|done].
  injection Hb as ->. by eexists.
Qed.

Lemma add_cell_undisturbed rmap d0 tr d tc d' :
  add_cell rmap tr d tc = Ok d' ->
  undisturbed rmap d0 d -> undisturbed rmap d0 d'.
Proof.
  unfold add_cell. intros Hrun Hu.
  pose proof (new_child_undisturbed rmap d0 "td" None (nl ++ tab ++ tab ++ tab) d tr)
    as Hnew.
  destruct (E "td" None d) as [td d1]. cbn [fst snd] in Hnew.
  apply bind_Ok in Hrun as (d2 & Happ & Hloop).
  eapply move_blocks_undisturbed; [exact Hloop|]. by apply Hnew.
Qed.

Lemma add_row_undisturbed rmap d0 table d row d' :
  add_row rmap table d row = Ok d' ->
  assembly_inv (dom d0) d -> (∀ k b, rmap !! k = Some b -> b ∈ dom d0) ->
  table ∈ dom d -> table ∉ dom d0 -> tag d table = Some "table" ->
  undisturbed rmap d0 d -> undisturbed rmap d0 d'.
Proof.
  unfold add_row. intros Hrun Hinv Hrmap Ht Htold Httag Hu.
  pose proof (new_child "tr" (Some (nl ++ tab ++ tab ++ tab)) (nl ++ tab ++ tab) d table)
    as Hnew.
  pose proof (new_child_extends (dom d0) "tr" (Some (nl ++ tab ++ tab ++ tab))
                (nl ++ tab ++ tab) d table) as Hnewx.
  pose proof (new_child_undisturbed rmap d0 "tr" (Some (nl ++ tab ++ tab ++ tab))
                (nl ++ tab ++ tab) d table) as Hnewu.
  destruct (E "tr" (Some (nl ++ tab ++ tab ++ tab)) d) as [tr d1].
  cbn [fst snd] in Hnew, Hnewx, Hnewu.
  apply bind_Ok in Hrun as (d2 & Happ & Hrun).
  apply bind_Ok in Hrun as (d3 & Hcells & Hrun). injection Hrun as <-.
  destruct (Hnew d2 Happ Ht)
    as (Hfresh & Hdom & Htag & Hch & Hgp & Hcht & Hsame & Hchsame).
  destruct (Hnewx d2 Happ Ht Hinv) as [Hinv2 Hext2].
  pose proof (Hnewu d2 Happ Hu) as Hu2.
  assert (Htr2 : tr ∈ dom d2) by set_solver.
  assert (Htrold : tr ∉ dom d0) by (destruct Hinv; set_solver).
  destruct (add_cells_spec (dom d0) rmap tr _ d2 d3 Hcells Hinv2 Hrmap Htr2 Htrold Htag)
    as (tds & _ & _ & Hnewtds & _ & Hch3 & _ & Hinv3 & _).
  apply undisturbed_set_last_tail.
  - revert Hcells. apply for_each_inv; [done|].
    intros d4 tc d5 Hu4 Hstep. by eapply add_cell_undisturbed.
  - intros c Hc. rewrite Hch3, Hch in Hc. simpl in Hc.
    apply last_Some_elem_of in Hc. intros Hin.
    apply (Hnewtds c Hc). destruct Hinv2. set_solver.
Qed.

Lemma add_rows_undisturbed rmap d0 table (rows : list xnode) d d' :
  for_each rows (add_row rmap table) d = Ok d' ->
  assembly_inv (dom d0) d -> (∀ k b, rmap !! k = Some b -> b ∈ dom d0) ->
  table ∈ dom d -> table ∉ dom d0 -> tag d table = Some "table" ->
  undisturbed rmap d0 d -> undisturbed rmap d0 d'.
Proof.
  intros Hrun Hinv Hrmap. revert d Hrun Hinv.
  induction rows as [|row rows IH]; intros d Hrun Hinv Ht Htold Httag Hu;
    simpl in Hrun.
  - by injection Hrun as <-.
  - apply bind_Ok in Hrun as (d1 & Hstep & Hrun).
    destruct (add_row_spec (dom d0) rmap table d row d1 Hstep Hinv Hrmap Ht Htold Httag)
      as (tr & tds & _ & _ & _ & Hdom1 & _ & _ & Hinv1 & Hext1).
    apply (IH d1 Hrun Hinv1); [set_solver | done | by rewrite (ext_tag _ _ _ _ Hext1) |].
    by eapply add_row_undisturbed.
Qed.

Lemma assemble_undisturbed rmap d0 d item d' :
  assemble rmap d item = Ok d' ->
  assembly_inv (dom d0) d -> (∀ k b, rmap !! k = Some b -> b ∈ dom d0) ->
  undisturbed rmap d0 d -> undisturbed rmap d0 d'.
Proof.
  destruct item as [tbl [|first rest]]; intros Hrun Hinv Hrmap Hu.
  { by injection Hrun as <-. }
  unfold assemble in Hrun.
  apply bind_Ok in Hrun as ([t d2] & Hins & Hrun).
  apply bind_Ok in Hrun as (d3 & Hrows & Hrun). injection Hrun as <-.
  destruct (insert_table_spec (dom d0) rmap first d t d2 Hins Hinv Hrmap)
    as (b & parent & idx & Hb & Hp & Hidx & Hfresh & Hdom2 & Htag2 & Hch2 & Hgp2
        & Hchp & Hinv2 & Hext2 & _ & _).
  assert (Hold : dom d0 ⊆ dom d) by by destruct Hinv.
  assert (Htold : t ∉ dom d0) by set_solver.
  assert (Ht2 : t ∈ dom d2) by set_solver.
  assert (Hu2 : undisturbed rmap d0 d2).
  { clear -Hins Hu Htold. unfold insert_table in Hins.
    apply bind_Ok in Hins as (b & _ & Hins).
    pose proof (undisturbed_E rmap d0 d "table" (Some (nl ++ tab ++ tab)) Hu) as HuE.
    pose proof (E_fresh "table" (Some (nl ++ tab ++ tab)) d) as Hfresh.
    destruct (E "table" (Some (nl ++ tab ++ tab)) d) as [t0 d1].
    cbn [fst snd] in HuE, Hfresh.
    destruct (getparent d b) as [parent|]; [|done].
    apply bind_Ok in Hins as (b' & _ & Hins).
    apply bind_Ok in Hins as (idx & _ & Hins).
    assert (t = t0 ∧ d2 = insert d1 parent idx t0) as [-> ->] by (split; congruence).
    by apply undisturbed_insert. }
  destruct (add_rows_spec (dom d0) rmap t _ d2 d3 Hrows Hinv2 Hrmap Ht2 Htold Htag2)
    as (trs & tdss & _ & _ & Hnew & _ & Hch3 & Hrows3 & _ & _).
  apply undisturbed_set_last_tail.
  - by eapply add_rows_undisturbed.
  - intros c Hc. rewrite Hch3, Hch2 in Hc. simpl in Hc.
    apply last_Some_elem_of in Hc. intros Hin.
    apply (Hnew c); [|set_solver].
    clear -Hrows3 Hc. induction Hrows3 as [|tr tds trs tdss _ _ IH].
    + by apply elem_of_nil in Hc.
    + rewrite created_cons. apply elem_of_cons in Hc as [->|Hc]; set_solver.
Qed.

(** [apply_markup] leaves the document as it is, but for the places of
    the blocks: when it returns, every element of the tree it was given
    is still there with its tag, its text and its tail, and every
    element that is not a block of the object map still has the parent
    it had. *)
Theorem apply_markup_keeps_document (self : Tables.t) (object_map : list (nat * xnode))
    (d d' : tree) :
  let rmap := make_rmap object_map in
  (∀ k b, rmap !! k = Some b -> b ∈ dom d) ->
  (∀ n q, getparent d n = Some q -> q ∈ dom d) ->
  apply_markup self object_map d = Ok d' ->
  ∀ n e, d !! n = Some e ->
    ∃ e', d' !! n = Some e' ∧ e_tag e' = e_tag e ∧ e_text e' = e_text e ∧
          e_tail e' = e_tail e ∧
          ((∀ k, rmap !! k ≠ Some n) -> e_parent e' = e_parent e).
Proof.
  intros rmap Hrmap Hparents Hrun. unfold apply_markup in Hrun. fold rmap in Hrun.
  assert (Hinv : assembly_inv (dom d) d).
  { split; [done|]. intros n q _ Hq. left. by eapply Hparents. }
  change (undisturbed rmap d d').
  assert (Hgen : ∀ items dc, for_each items (assemble rmap) dc = Ok d' ->
            assembly_inv (dom d) dc -> undisturbed rmap d dc -> undisturbed rmap d d').
  { induction items as [|item items IH]; intros dc Hloop Hinvc Hu; simpl in Hloop.
    - by injection Hloop as <-.
    - apply bind_Ok in Hloop as (d1 & Hstep & Hloop).
      apply (IH d1 Hloop).
      + destruct (assemble_all_extends (dom d) rmap [item] dc d1) as [Hinv1 _]; try done.
        simpl. by rewrite Hstep.
      + by eapply assemble_undisturbed. }
  apply (Hgen _ d Hrun Hinv). apply undisturbed_refl.
Qed.

Lemma created_length (trs : list nat) (tdss : list (list nat)) (rows : list xnode) :
  length trs = length tdss ->
  Forall2 (fun tds row => length tds = length (XPath (Child "w:tc") row)) tdss rows ->
  length (created trs tdss)
  = sum_list_with (fun row => S (length (XPath (Child "w:tc") row))) rows.
Proof.
  intros Hlen Hlens. revert trs Hlen.
  induction Hlens as [|tds row tdss rows Hl _ IH]; intros [|tr trs] Hlen;
    simpl in Hlen; try done.
  rewrite created_cons. simpl. rewrite length_app, Hl, IH by lia. done.
Qed.

Lemma table_of_tags d t trs tdss n :
  table_of d t trs tdss -> n ∈ t :: created trs tdss ->
  tag d n ∈ [Some "table"; Some "tr"; Some "td"].
Proof.
  intros (Htag & _ & Hrows) [->|Hn]%elem_of_cons; [rewrite Htag; set_solver|].
  induction Hrows as [|tr tds trs tdss Hrow _ IH]; [by apply elem_of_nil in Hn|].
  rewrite created_cons in Hn. destruct Hrow as (Htr & _ & _ & Hall).
  apply elem_of_cons in Hn as [->|Hn]; [rewrite Htr; set_solver|].
  apply elem_of_app in Hn as [Hn|Hn]; [|by apply IH].
  rewrite Forall_forall in Hall. destruct (Hall n Hn) as [-> _]. set_solver.
Qed.

(** What [apply_markup] makes: nothing is deleted and no tag changes;
    every element that was not in the tree before is a [table], [tr] or
    [td]; and their number is, for each registered table that has
    blocks, one plus the number of its rows plus the number of its
    cells. *)
Theorem apply_markup_makes_containers (self : Tables.t)
    (object_map : list (nat * xnode)) (d d' : tree) :
  let rmap := make_rmap object_map in
  (∀ k b, rmap !! k = Some b -> b ∈ dom d) ->
  (∀ n q, getparent d n = Some q -> q ∈ dom d) ->
  apply_markup self object_map d = Ok d' ->
  dom d ⊆ dom d' ∧
  (∀ n, n ∈ dom d -> tag d' n = tag d n) ∧
  (∀ n, n ∈ dom d' -> n ∉ dom d -> tag d' n ∈ [Some "table"; Some "tr"; Some "td"]) ∧
  size (dom d') = (size (dom d) + sum_list_with containers (iteritems self))%nat.
Proof.
  intros rmap Hrmap Hparents Hrun. unfold apply_markup in Hrun. fold rmap in Hrun.
  assert (Hinv : assembly_inv (dom d) d).
  { split; [done|]. intros n q _ Hq. left. by eapply Hparents. }
  destruct (assemble_all_extends (dom d) rmap _ d d' Hrun Hinv Hrmap) as [_ Hext].
  split; [by destruct Hext|]. split; [by destruct Hext|].
  assert (Hgen : ∀ items dc, for_each items (assemble rmap) dc = Ok d' ->
            assembly_inv (dom d) dc ->
            (∀ n, n ∈ dom d' -> n ∉ dom dc ->
                  tag d' n ∈ [Some "table"; Some "tr"; Some "td"]) ∧
            size (dom d') = (size (dom dc) + sum_list_with containers items)%nat).
  { induction items as [|[tbl blocks] items IH]; intros dc Hloop Hinvc; simpl in Hloop.
    - injection Hloop as <-. split; [done|]. simpl. lia.
    - apply bind_Ok in Hloop as (d1 & Hstep & Hloop).
      destruct blocks as [|first rest].
      { injection Hstep as ->. destruct (IH _ Hloop Hinvc) as [Htags Hsize].
        split; [done|]. by rewrite Hsize. }
      destruct (assemble_spec (dom d) rmap tbl first rest dc d1 Hstep Hinvc Hrmap)
        as (b & parent & idx & t & d2 & trs & tdss & _ & _ & _ & _ & _ & Hlens
            & Hnd & Hnew & Hdom1 & Htable & _ & Hinv1 & Hext1).
      destruct (IH _ Hloop Hinv1) as [Htags Hsize].
      destruct (assemble_all_extends (dom d) rmap _ d1 d' Hloop Hinv1 Hrmap) as [_ Hext'].
      assert (Hold : dom d ⊆ dom dc) by by destruct Hinvc.
      split.
      + intros n Hn Hndc. destruct (decide (n ∈ dom d1)) as [Hn1|Hn1]; [|by apply Htags].
        assert (Hc : n ∈ t :: created trs tdss).
        { rewrite Hdom1 in Hn1. apply elem_of_union in Hn1 as [Hn1|Hn1]; [|done].
          by apply elem_of_list_to_set in Hn1. }
        rewrite (ext_tag _ _ _ _ Hext' n Hn1). by eapply table_of_tags.
      + rewrite Hsize, Hdom1. rewrite size_union.
        2:{ intros n Hn1%elem_of_list_to_set Hn2. by apply (Hnew n). }
        rewrite size_list_to_set by done. simpl.
        rewrite (created_length trs tdss (XPath (Child "w:tr") tbl)); [lia | | done].
        destruct Htable as (_ & _ & Hrows). by eapply Forall2_length. }
  apply (Hgen _ d Hrun Hinv).
Qed.

(** [apply_markup] fails at the first registered table that has blocks
    when the first block cannot be placed: with [KeyError] when the
    object map has no element for it, with [AttributeError] when that
    element is a root (it has no parent to put the table in). *)
Theorem apply_markup_first_block_errors (self : Tables.t)
    (object_map : list (nat * xnode)) (d : tree)
    (pre post : list (xnode * list xnode)) (tbl first : xnode) (rest : list xnode) :
  let rmap := make_rmap object_map in
  iteritems self = (pre ++ (tbl, first :: rest) :: post)%list ->
  Forall (fun item => item.2 = []) pre ->
  (rmap !! x_id first = None -> apply_markup self object_map d = Raise KeyError) ∧
  (∀ b, rmap !! x_id first = Some b -> getparent d b = None ->
        apply_markup self object_map d = Raise AttributeError).
Proof.
  intros rmap Hitems Hpre. unfold apply_markup. fold rmap. rewrite Hitems, for_each_app.
  assert (for_each pre (assemble rmap) d = Ok d) as ->.
  { clear Hitems. induction Hpre as [|[tbl' blocks] pre Hnil _ IH]; [done|].
    simpl in Hnil. subst blocks. simpl. exact IH. }
  cbn [mbind result_bind for_each]. unfold assemble, insert_table, getitem.
  split.
  - by intros ->.
  - intros b -> Hb. simpl. rewrite Hb.
    by destruct (E "table" (Some (nl ++ tab ++ tab)) d).
Qed.

End kept.

(** ** The further properties on concrete data *)

(** A row style built from a node cannot take part in the cascade. *)
Lemma cascade_attribute_error_witness :
  TableStyle.update style_base row_style_from_node = Raise AttributeError ∧
  TableStyle.resolve_based_on row_style_from_node style_base = Raise AttributeError.
Proof.
  apply (cascade_attribute_error style_base row_style_from_node "width").
  - by_compute.
  - reflexivity.
Defined.

(** Resolved defaults, then the base level, then the later level. *)
Lemma update_assoc_witness :
  ∃ ab bc abc,
    TableStyle.update style_resolved style_base = Ok ab ∧
    TableStyle.update style_base style_later = Ok bc ∧
    TableStyle.update ab style_later = Ok abc ∧
    TableStyle.update style_resolved bc = Ok abc.
Proof.
  apply (update_assoc style_resolved style_base style_later);
    apply Forall_forall; by_compute.
Defined.

Lemma update_identity_witness :
  TableStyle.update style_base TableStyle.__init__none = Ok style_base ∧
  TableStyle.update TableStyle.__init__none style_base = Ok style_base.
Proof.
  apply (update_identity style_base). intros p. split.
  - revert p. apply Forall_forall. by_compute.
  - assert (Hdom : map_Forall (fun p _ => p ∈ TableStyle.all_properties) style_base)
      by by_compute.
    intros [v Hv]. exact (Hdom p v Hv).
Defined.

Lemma update_idempotent_witness :
  TableStyle.update style_merged style_later = Ok style_merged.
Proof.
  apply (update_idempotent style_base style_later). vm_compute. reflexivity.
Defined.

(** The later level gives the left margin, the base level the width and
    the resolved parent the indent. *)
Lemma update_then_resolve_witness :
  ∃ s1 s2, TableStyle.update style_base style_later = Ok s1 ∧
    TableStyle.resolve_based_on s1 style_resolved = Ok s2 ∧
    s2 !! "margin_left" = Some (VStr "auto") ∧
    s2 !! "width" = Some (VStr "50%") ∧
    s2 !! "indent" = Some (VStr "0").
Proof.
  destruct (update_then_resolve style_base style_later style_resolved)
    as (s1 & s2 & H1 & H2 & Hval); [apply Forall_forall; by_compute..|].
  exists s1, s2. split; [exact H1|]. split; [exact H2|].
  split; [|split]; (rewrite Hval; [vm_compute; reflexivity | by_compute]).
Defined.

(** Of a width of 100% followed by a width of 100 twentieths of a point
    the second stays. *)
Lemma width_readers_last_node_witness :
  read_width two_widths_tblPr ∅ = Ok (setattr ∅ "width" (VStr "5pt")).
Proof.
  destruct (width_readers_last_node (Child "w:tblW") "width" two_widths_tblPr ∅
              [width_full] (w_elem 2 "tblW" [("w", "100"); ("type", "dxa")] []))
    as [Hlast _].
  - repeat constructor. exists (VStr "100%"). vm_compute. reflexivity.
  - unfold read_width. rewrite Hlast; vm_compute; reflexivity.
Defined.


(** An exact height followed by a height with an unknown rule. *)
Lemma read_height_last_accepted_witness :
  ∃ dest', read_height two_heights_trPr ∅ = Ok dest' ∧
    dest' !! "height" = Some (VPair "exact" (Some "240")).
Proof.
  destruct (read_height_last_accepted two_heights_trPr ∅)
    as (dest' & Hrun & _ & _ & Hlast).
  exists dest'. split; [exact Hrun|].
  rewrite (Hlast [] (w_elem 2 "trHeight" [("val", "240"); ("hRule", "exact")] [])
                 [w_elem 3 "trHeight" [("val", "480"); ("hRule", "sometimes")] []]).
  - vm_compute. reflexivity.
  - vm_compute. reflexivity.
  - by_compute.
  - repeat constructor. by_compute.
Defined.

(** In [repeated_calls] the second table has the paragraph added after
    it, and the first table, registered again at the end, has lost
    its paragraph. *)
Lemma blocks_between_registrations_witness :
  Tables.blocks_of (state_after repeated_calls) tbl_b = Some [par 11] ∧
  Tables.blocks_of (state_after repeated_calls) tbl_a = Some [].
Proof.
  split.
  - apply (blocks_between_registrations
             [Tables.Register tbl_a; Tables.Add (par 10)] [Tables.Register tbl_a]
             tbl_b [par 11]).
    + vm_compute. reflexivity.
    + intros tbl' Hin. apply list_elem_of_singleton in Hin. injection Hin as ->.
      vm_compute. discriminate.
    + discriminate.
  - apply (blocks_between_registrations
             [Tables.Register tbl_a; Tables.Add (par 10); Tables.Register tbl_b;
              Tables.Add (par 11)] [] tbl_a []).
    + vm_compute. reflexivity.
    + intros tbl' Hin. by apply elem_of_nil in Hin.
    + discriminate.
Defined.

Lemma keys_first_registration_witness :
  NoDup (Tables.keys (state_after repeated_calls)) ∧
  ∃ self1,
    Tables.run [Tables.Register tbl_a; Tables.Add (par 10); Tables.Register tbl_b]
      = Ok self1 ∧
    Tables.keys self1 `prefix_of` Tables.keys (state_after repeated_calls).
Proof.
  destruct (keys_first_registration
              [Tables.Register tbl_a; Tables.Add (par 10); Tables.Register tbl_b]
              [Tables.Add (par 11); Tables.Register tbl_a]
              (state_after repeated_calls)) as (Hnd & _ & Hpre).
  - vm_compute. reflexivity.
  - split; [exact Hnd | exact Hpre].
Defined.

(** The object map of the example, and a paragraph it does not hold. *)
Lemma make_rmap_lookup_witness :
  Tables.getitem (Tables.make_rmap example_object_map) (par 11) = Ok 111%nat ∧
  Tables.getitem (Tables.make_rmap example_object_map) (par 14) = Raise KeyError.
Proof.
  destruct (make_rmap_lookup example_object_map) as (Hfound & _ & Hmissing).
  split.
  - apply (Hfound [(110, par 10)]%nat 111%nat (par 11)
                  [(112, par 12); (113, par 13)]%nat); [reflexivity|].
    by_compute.
  - apply Hmissing. by_compute.
Defined.

Lemma example_result_run :
  Tables.apply_markup (state_after example_calls) example_object_map body_tree
  = Ok example_result.
Proof. vm_compute. reflexivity. Qed.

(** In the assembled example the cells hold the blocks 110, 111 and
    112 with 113. *)
Lemma apply_markup_cell_contents_witness :
  ∃ d' t tr1 tr2 td1 td2 td3,
    Tables.apply_markup (state_after example_calls) example_object_map body_tree = Ok d' ∧
    Lxml.children d' t = [tr1; tr2] ∧
    Lxml.children d' tr1 = [td1; td2] ∧ Lxml.children d' tr2 = [td3] ∧
    Lxml.children d' td1 = [110]%nat ∧ Lxml.children d' td2 = [111]%nat ∧
    Lxml.children d' td3 = [112; 113]%nat.
Proof.
  pose proof example_result_run as Hrun.
  set (d' := example_result) in Hrun. clearbody d'.
  pose proof (apply_markup_cell_contents (state_after example_calls) example_object_map
                body_tree d') as Hall.
  destruct (Tables.insert_table (Tables.make_rmap example_object_map) (par 10) body_tree)
    as [[t d2]|e] eqn:Hins; [|vm_compute in Hins; discriminate].
  specialize (Hall ltac:(intros k b Hkb;
    assert (Hblocks : map_Forall (fun _ b => b ∈ dom body_tree)
                        (Tables.make_rmap example_object_map)) by by_compute;
    exact (Hblocks k b Hkb))).
  specialize (Hall ltac:(intros n q Hq; rewrite (body_tree_flat n q Hq); by_compute)).
  specialize (Hall Hrun ltac:(by_compute)).
  specialize (Hall ltac:(intros i j it1 it2 b Hi Hj Hlt Hanc;
    destruct j as [|[|j]]; [lia | | vm_compute in Hj; discriminate];
    vm_compute in Hj; injection Hj as <-; discriminate)).
  specialize (Hall 0%nat tbl_a (par 10) [par 11; par 12; par 13] body_tree t d2
                   eq_refl eq_refl Hins).
  vm_compute in Hall.
  apply Forall2_cons_inv_r in Hall as (tr1 & trs & Hrow1 & Hall & Ht).
  apply Forall2_cons_inv_r in Hall as (tr2 & trs' & Hrow2 & Hall & ->).
  apply Forall2_nil_inv_r in Hall as ->.
  apply Forall2_cons_inv_r in Hrow1 as (td1 & tds1 & Hc1 & Hrow1 & Htr1).
  apply Forall2_cons_inv_r in Hrow1 as (td2 & tds1' & Hc2 & Hrow1 & ->).
  apply Forall2_nil_inv_r in Hrow1 as ->.
  apply Forall2_cons_inv_r in Hrow2 as (td3 & tds2 & Hc3 & Hrow2 & Htr2).
  apply Forall2_nil_inv_r in Hrow2 as ->.
  exists d', t, tr1, tr2, td1, td2, td3. split; [exact Hrun|].
  repeat split; assumption.
Defined.

(** The block 100 is outside the table: it keeps its place under the
    body. *)
Lemma apply_markup_keeps_document_witness :
  ∃ e', example_result !! 100%nat = Some e' ∧ Lxml.e_tag e' = "p" ∧
        Lxml.e_parent e' = Some 0%nat.
Proof.
  destruct (apply_markup_keeps_document (state_after example_calls) example_object_map
              body_tree example_result) with (n := 100%nat) (e := html_block 0)
    as (e' & He' & Htag & _ & _ & Hpar).
  - intros k b Hkb.
    assert (Hblocks : map_Forall (fun _ b => b ∈ dom body_tree)
                        (Tables.make_rmap example_object_map)) by by_compute.
    exact (Hblocks k b Hkb).
  - intros n q Hq. rewrite (body_tree_flat n q Hq). by_compute.
  - apply example_result_run.
  - reflexivity.
  - exists e'. split; [exact He'|]. split; [exact Htag|]. apply Hpar.
    assert (Hnot : map_Forall (fun _ b => b ≠ 100%nat)
                     (Tables.make_rmap example_object_map)) by by_compute.
    intros k Hk. exact (Hnot k _ Hk eq_refl).
Defined.

(** One table, two rows and three cells are made. *)
Lemma apply_markup_makes_containers_witness :
  size (dom example_result) = 13%nat ∧
  (∀ n, n ∈ dom example_result -> n ∉ dom body_tree ->
        Lxml.tag example_result n ∈ [Some "table"; Some "tr"; Some "td"]).
Proof.
  destruct (apply_markup_makes_containers (state_after example_calls) example_object_map
              body_tree example_result) as (_ & _ & Htags & Hsize).
  - intros k b Hkb.
    assert (Hblocks : map_Forall (fun _ b => b ∈ dom body_tree)
                        (Tables.make_rmap example_object_map)) by by_compute.
    exact (Hblocks k b Hkb).
  - intros n q Hq. rewrite (body_tree_flat n q Hq). by_compute.
  - apply example_result_run.
  - split; [|exact Htags]. rewrite Hsize. vm_compute. reflexivity.
Defined.

(** Without object map the first block is not found; an object map that
    gives the body for it has no parent to offer. *)
Lemma apply_markup_first_block_errors_witness :
  Tables.apply_markup (state_after example_calls) [] body_tree = Raise KeyError ∧
  Tables.apply_markup (state_after example_calls) [(0%nat, par 10)] body_tree
    = Raise AttributeError.
Proof.
  split.
  - apply (apply_markup_first_block_errors (state_after example_calls) [] body_tree
             [] [(tbl_b, [])] tbl_a (par 10) [par 11; par 12; par 13]);
      [vm_compute; reflexivity | constructor | reflexivity].
  - apply (apply_markup_first_block_errors (state_after example_calls) [(0%nat, par 10)]
             body_tree [] [(tbl_b, [])] tbl_a (par 10) [par 11; par 12; par 13])
      with (b := 0%nat);
      [vm_compute; reflexivity | constructor | reflexivity | reflexivity].
Defined.

(** ** Styles built from nodes *)

Lemma setattr_union (d : obj) (k : string) (v : value) :
  setattr d k v = {[ k := v ]} ∪ d.
Proof. unfold setattr. by rewrite insert_union_singleton_l. Qed.

Section readers_independent.
Context {imports : Imports}.

Lemma read_width_as_independent e prop : independent (read_width_as e prop).
Proof.
  intros parent dest. unfold read_width_as.
  destruct (for_each _ _ _) as [ans|err]; simpl; [|done].
  by rewrite !setattr_union, map_union_empty.
Qed.

Lemma read_padding_independent : independent read_padding.
Proof.
  intros parent dest. unfold read_padding.
  destruct (for_each (XPath _ parent) _ _) as [fr|err] eqn:Hloop;
    cbn [mbind result_bind]; [|done].
  assert (Hfast : f_fast fr = fast0).
  { revert Hloop. apply (for_each_inv (fun fr => f_fast fr = fast0)); [done|].
    intros fr1 mar fr2 H1. apply (for_each_inv (fun fr => f_fast fr = fast0)); [done|].
    intros fr3 x fr4 H3. apply (for_each_inv (fun fr => f_fast fr = fast0)); [done|].
    intros fr5 edge fr6 H5 (v & _ & [= <-])%bind_Ok. done. }
  destruct (set_padding_loop edges fr dest Hfast) as [fr1 H1]; [done|].
  destruct (set_padding_loop edges fr ∅ Hfast) as [fr2 H2]; [done|].
  rewrite H1, H2. unfold edges. simpl. f_equal.
  rewrite !setattr_union, map_union_empty. by rewrite !(assoc_L (∪)).
Qed.

Lemma read_vertical_align_independent : independent read_vertical_align.
Proof.
  intros parent dest. unfold read_vertical_align. simpl.
  by rewrite !setattr_union, map_union_empty.
Qed.

Lemma read_col_span_independent : independent read_col_span.
Proof.
  intros parent dest. unfold read_col_span.
  destruct (for_each _ _ _) as [ans|err]; simpl; [|done].
  by rewrite !setattr_union, map_union_empty.
Qed.

Lemma read_merge_independent : independent read_merge.
Proof.
  intros parent dest. unfold read_merge. cbn [for_each mbind result_bind fmap result_fmap].
  f_equal. rewrite !setattr_union, map_union_empty. by rewrite !(assoc_L (∪)).
Qed.

End readers_independent.

Lemma chain_independent (fs : list (xnode -> obj -> result obj))
    (parent : xnode) (dest : obj) :
  Forall independent fs ->
  for_each fs (fun s f => f parent s) dest
  = (fun out => out ∪ dest) <$> for_each fs (fun s f => f parent s) ∅.
Proof.
  intros Hfs. revert dest. induction Hfs as [|f fs Hf Hfs IH]; intros dest; simpl.
  - by rewrite map_empty_union.
  - rewrite (Hf parent dest). destruct (f parent ∅) as [o|err]; simpl; [|done].
    rewrite (IH (o ∪ dest)), (IH o).
    destruct (for_each fs _ ∅) as [out|err]; simpl; [|done].
    by rewrite (assoc_L (∪)).
Qed.

Section cell_style.
Context {imports : Imports} {externals : Externals}.

(** [CellStyle()] has every declared property, each inherited. A
    [CellStyle] built from a node is what the readers of this file
    (padding, cell width, vertical alignment, column span, merge) give
    on an empty record, completed by what the imported readers of
    borders and shading, which run first, have set: the nine attributes
    of the own readers do not depend on the imported ones, and the four
    paddings are always inherited. *)
Theorem CellStyle_init (trPr : xnode) (self : obj) :
  CellStyle.__init__ (Some trPr) = Ok self ->
  (∃ s0, CellStyle.__init__ None = Ok s0 ∧
         ∀ p, s0 !! p = if bool_decide (p ∈ CellStyle.all_properties)
                        then Some Inherit else None) ∧
  ∃ ext own,
    (read_borders trPr ∅ ≫= read_shd trPr) = Ok ext ∧
    for_each [read_padding; read_cell_width; read_vertical_align; read_col_span;
              read_merge] (fun s f => f trPr s) ∅ = Ok own ∧
    self = own ∪ ext ∧
    dom own = list_to_set ["cell_padding_left"; "cell_padding_top"; "cell_padding_right";
                           "cell_padding_bottom"; "width"; "vertical_align"; "col_span";
                           "hMerge"; "vMerge"] ∧
    (∀ x, x ∈ edges -> own !! percent_s "cell_padding_%s" x = Some Inherit).
Proof.
  intros Hrun. split.
  { eexists. split; [reflexivity|]. intros p.
    by rewrite init_loop_lookup, lookup_empty. }
  unfold CellStyle.__init__, CellStyle.readers in Hrun.
  change (for_each (read_borders :: read_shd :: ?fs) ?body ∅)
    with (read_borders trPr ∅ ≫= fun s => read_shd trPr s ≫= for_each fs body) in Hrun.
  apply bind_Ok in Hrun as (e1 & He1 & Hrun).
  apply bind_Ok in Hrun as (ext & He2 & Hrun).
  rewrite chain_independent in Hrun.
  2:{ repeat constructor.
      - apply read_padding_independent.
      - apply read_width_as_independent.
      - apply read_vertical_align_independent.
      - apply read_col_span_independent.
      - apply read_merge_independent. }
  destruct (for_each _ _ ∅) as [own|] eqn:Hown; [|done].
  injection Hrun as <-. exists ext, own.
  split; [by rewrite He1|]. split; [done|]. split; [done|].
  cbn [for_each] in Hown.
  apply bind_Ok in Hown as (o1 & H1 & Hown).
  apply read_padding_all_inherited in H1 as ->.
  apply bind_Ok in Hown as (o2 & H2 & Hown).
  apply bind_Ok in H2 as (w & _ & [= <-]).
  apply bind_Ok in Hown as (o3 & H3 & Hown). injection H3 as <-.
  apply bind_Ok in Hown as (o4 & H4 & Hown).
  apply bind_Ok in H4 as (g & _ & [= <-]).
  apply bind_Ok in Hown as (o5 & H5 & Hown). injection Hown as <-.
  unfold read_merge in H5. cbn [for_each mbind result_bind] in H5. injection H5 as <-.
  unfold setattr. split.
  - rewrite !dom_insert_L, dom_empty_L. set_solver.
  - intros x Hx. unfold edges in Hx.
    repeat (apply elem_of_cons in Hx as [->|Hx];
            [by repeat (rewrite lookup_insert_ne by done); rewrite lookup_insert_eq|]).
    by apply elem_of_nil in Hx.
Qed.

End cell_style.

(** Induction on a node, with the property known for its children. *)
Lemma xnode_ind_children (P : xnode -> Prop) :
  (∀ x, Forall P (x_children x) -> P x) -> ∀ x, P x.
Proof.
  intros H. fix IH 1. intros [id tg attrs cs]. apply H. simpl.
  induction cs as [|c cs IHcs]; constructor; [apply IH | apply IHcs].
Qed.

Section table_style_node.
Context {imports : Imports} {externals : Externals}.
Import TableStyleNode.

(** [__init__node] in the shape of the source: the readers, then for a
    node of a named style the loop over the conditional regions. *)
Lemma __init__node_eq (parent tblPr : xnode) (h : store) :
  __init__node parent tblPr h =
    self ← for_each readers (fun self f => f tblPr self) (setattr ∅ "overrides" Inherit);
    if is_tag parent "w:style" then
      let r := fresh (dom h) in
      h' ← for_each (XPath (ChildWithAttr "w:tblStylePr" "w:type") parent)
              (fun h c => read_region (__init__node c) r h c) (<[r := ∅]> h);
      Ok (setattr self "overrides" (VRef r), h')
    else Ok (self, h).
Proof.
  destruct parent as [id tg attrs cs]. unfold XPath. cbn [x_children].
  set (parent := {| x_id := id; x_tag := tg; x_attrib := attrs; x_children := cs |}).
  unfold parent at 1. cbn [__init__node]. fold parent.
  destruct (for_each readers _ _) as [self|err]; cbn [mbind result_bind]; [|done].
  destruct (is_tag parent "w:style"); [|done]. cbn zeta.
  generalize (<[fresh (dom h) := ∅]> h). generalize (fresh (dom h)). intros r g.
  f_equal. unfold parent. cbn [x_children]. clear parent. revert g.
  induction cs as [|c cs IH]; intros g; [done|].
  destruct (decide (x_tag c = expand "w:tblStylePr" ∧ is_Some (get c "w:type")))
    as [Hc|Hc].
  - rewrite filter_cons_True by done. cbn [for_each].
    destruct (read_region _ r g c) as [g'|err]; cbn [mbind result_bind]; [|done].
    apply IH.
  - rewrite filter_cons_False by done. apply IH.
Qed.

Lemma for_each_ext {A S} (f g : S -> A -> result S) (xs : list A) (s : S) :
  (∀ s x, f s x = g s x) -> for_each xs f s = for_each xs g s.
Proof.
  intros Hfg. revert s. induction xs as [|x xs IH]; intros s; simpl; [done|].
  rewrite Hfg. destruct (g s x); simpl; [apply IH | done].
Qed.

(** A loop that stores under one key of [orides]: the key ends up with
    what the last element gives, the other keys and the other
    dictionaries of the store stay. *)
Lemma setitem_loop {A} (G : A -> store -> result (ovalue * store)) (xs : list A)
    (r : nat) (otype : option string) (key : string) (g g' : store)
    (ov : overrides) (o : gmap string ovalue) :
  (∀ x hx v hy, G x hx = Ok (v, hy) -> store_kept hx hy) ->
  for_each xs (fun h x => '(v, h1) ← G x h; Ok (orides_setitem r otype key v h1)) g
    = Ok g' ->
  g !! r = Some (<[otype := o]> ov) ->
  (∀ r0, r0 ∈ dom g -> r0 ≠ r -> g' !! r0 = g !! r0) ∧
  ∃ o', g' !! r = Some (<[otype := o']> ov) ∧
    (∀ k, k ≠ key -> o' !! k = o !! k) ∧
    match last xs with
    | None => o' !! key = o !! key
    | Some x => ∃ v hx hy, G x hx = Ok (v, hy) ∧ o' !! key = Some v
    end.
Proof.
  intros HG. revert g o. induction xs as [|x xs IH]; intros g o Hrun Hr.
  - injection Hrun as <-. split; [done|]. by exists o.
  - cbn [for_each] in Hrun. apply bind_Ok in Hrun as (g2 & Hstep & Hrun).
    apply bind_Ok in Hstep as ([v h1] & HGx & Hstep). injection Hstep as <-.
    pose proof (HG _ _ _ _ HGx) as Hkept.
    assert (Hrg : r ∈ dom g) by (apply elem_of_dom; by eexists).
    assert (Hr2 : orides_setitem r otype key v h1 !! r
                  = Some (<[otype := <[key := v]> o]> ov)).
    { unfold orides_setitem. rewrite lookup_alter_eq, (Hkept r Hrg), Hr. simpl.
      by rewrite alter_insert_eq. }
    assert (Hother : ∀ r0, r0 ∈ dom g -> r0 ≠ r ->
                           orides_setitem r otype key v h1 !! r0 = g !! r0).
    { intros r0 Hr0 Hne. unfold orides_setitem.
      rewrite lookup_alter_ne by done. by apply Hkept. }
    destruct (IH _ _ Hrun Hr2) as (Hframe & o' & Hr' & Hkeys & Hlast).
    split.
    { intros r0 Hr0 Hne. rewrite Hframe; [by apply Hother | | done].
      apply elem_of_dom. rewrite Hother by done. by apply elem_of_dom. }
    exists o'. split; [done|]. split.
    { intros k Hk. rewrite Hkeys by done. by rewrite lookup_insert_ne. }
    destruct xs as [|y xs].
    + simpl in Hlast |- *. exists v, g, h1. split; [done|].
      by rewrite Hlast, lookup_insert_eq.
    + rewrite last_cons_cons.
      destruct (last (y :: xs)) as [z|] eqn:Hz; [exact Hlast|].
      by apply last_None in Hz.
Qed.

(** Lines 190-201 for one conditional region. *)
Lemma read_region_spec (r : nat) (g g' : store) (c : xnode) (ov : overrides) :
  (∀ tblPr hx s hy, __init__node c tblPr hx = Ok (s, hy) -> store_kept hx hy) ->
  read_region (__init__node c) r g c = Ok g' ->
  g !! r = Some ov ->
  (∀ r0, r0 ∈ dom g -> r0 ≠ r -> g' !! r0 = g !! r0) ∧
  ∃ o, g' !! r = Some (<[get c "w:type" := o]> ov) ∧ region_entry c o.
Proof.
  intros Hnested Hrun Hr. unfold read_region in Hrun. cbn zeta in Hrun.
  set (otype := get c "w:type") in *.
  set (g0 := alter (insert otype ∅) r g) in *.
  assert (Hr0 : g0 !! r = Some (<[otype := ∅]> ov)).
  { unfold g0. by rewrite lookup_alter_eq, Hr. }
  assert (Hdom0 : dom g0 = dom g) by apply dom_alter_L.
  assert (Hf0 : ∀ r0, r0 ≠ r -> g0 !! r0 = g !! r0).
  { intros r0 Hne. unfold g0. by rewrite lookup_alter_ne. }
  apply bind_Ok in Hrun as (g1 & H1 & Hrun).
  apply bind_Ok in Hrun as (g2 & H2 & Hrun).
  apply bind_Ok in Hrun as (g3 & H3 & Hrun).
  apply bind_Ok in Hrun as (g4 & H4 & H5).
  rewrite (for_each_ext _ (fun h x =>
             '(v, h1) ← (fun tblPr h => '(s, h1) ← __init__node c tblPr h; Ok (OTable s, h1)) x h;
             Ok (orides_setitem r otype "table" v h1))) in H1.
  2:{ intros h x. by destruct (__init__node c x h) as [[s h1]|]. }
  rewrite (for_each_ext _ (fun h x =>
             '(v, h1) ← (fun trPr h => Ok (ORow (RowStyle.__init__ (Some trPr)), h)) x h;
             Ok (orides_setitem r otype "row" v h1))) in H2 by done.
  rewrite (for_each_ext _ (fun h x =>
             '(v, h1) ← (fun tcPr h => Ok (OCell tcPr, h)) x h;
             Ok (orides_setitem r otype "cell" v h1))) in H3 by done.
  rewrite (for_each_ext _ (fun h x =>
             '(v, h1) ← (fun pPr h => s ← ParagraphStyle pPr; Ok (OBlock s, h)) x h;
             Ok (orides_setitem r otype "block" v h1))) in H4.
  2:{ intros h x. by destruct (ParagraphStyle x). }
  rewrite (for_each_ext _ (fun h x =>
             '(v, h1) ← (fun rPr h => s ← RunStyle rPr; Ok (OChar s, h)) x h;
             Ok (orides_setitem r otype "char" v h1))) in H5.
  2:{ intros h x. by destruct (RunStyle x). }
  apply setitem_loop with (ov := ov) (o := ∅) in H1 as (Hf1 & o1 & Hr1 & Hk1 & Hl1);
    [| | done].
  2:{ intros x hx v hy Hx. apply bind_Ok in Hx as ([s h1] & Hn & Heq).
      injection Heq as <- <-. by eapply Hnested. }
  apply setitem_loop with (ov := ov) (o := o1) in H2 as (Hf2 & o2 & Hr2 & Hk2 & Hl2);
    [| | done].
  2:{ intros x hx v hy Heq. injection Heq as <- <-. by intros ?. }
  apply setitem_loop with (ov := ov) (o := o2) in H3 as (Hf3 & o3 & Hr3 & Hk3 & Hl3);
    [| | done].
  2:{ intros x hx v hy Heq. injection Heq as <- <-. by intros ?. }
  apply setitem_loop with (ov := ov) (o := o3) in H4 as (Hf4 & o4 & Hr4 & Hk4 & Hl4);
    [| | done].
  2:{ intros x hx v hy Hx. apply bind_Ok in Hx as (s & _ & Heq).
      injection Heq as <- <-. by intros ?. }
  apply setitem_loop with (ov := ov) (o := o4) in H5 as (Hf5 & o5 & Hr5 & Hk5 & Hl5);
    [| | done].
  2:{ intros x hx v hy Hx. apply bind_Ok in Hx as (s & _ & Heq).
      injection Heq as <- <-. by intros ?. }
  assert (Hin : ∀ (ga gb : store) r0,
            (∀ r1, r1 ∈ dom ga -> r1 ≠ r -> gb !! r1 = ga !! r1) ->
            r0 ∈ dom ga -> r0 ≠ r -> r0 ∈ dom gb).
  { intros ga gb r0 Hf Hra Hne. apply elem_of_dom. rewrite Hf by done.
    by apply elem_of_dom. }
  split.
  { intros r0 Hr0' Hne.
    assert (r0 ∈ dom g0) by by rewrite Hdom0.
    assert (r0 ∈ dom g1) by by eapply Hin.
    assert (r0 ∈ dom g2) by by eapply Hin.
    assert (r0 ∈ dom g3) by by eapply Hin.
    assert (r0 ∈ dom g4) by by eapply Hin.
    rewrite Hf5, Hf4, Hf3, Hf2, Hf1, Hf0 by done. done. }
  exists o5. split; [done|]. unfold region_entry.
  split; [|split; [|split; [|split; [|split]]]].
  - rewrite Hk5, Hk4, Hk3, Hk2 by done.
    destruct (last (XPath (Child "w:tblPr") c)) as [tp|].
    + destruct Hl1 as (v & hx & hy & Hx & Hv).
      apply bind_Ok in Hx as ([s h1] & Hn & Heq). injection Heq as <- <-.
      by exists s, hx, h1.
    + by rewrite Hl1, lookup_empty.
  - rewrite Hk5, Hk4, Hk3 by done.
    destruct (last (XPath (Child "w:trPr") c)) as [tp|]; simpl.
    + destruct Hl2 as (v & hx & hy & Heq & Hv). by injection Heq as <- <-.
    + by rewrite Hl2, Hk1, lookup_empty.
  - rewrite Hk5, Hk4 by done.
    destruct (last (XPath (Child "w:tcPr") c)) as [tp|]; simpl.
    + destruct Hl3 as (v & hx & hy & Heq & Hv). by injection Heq as <- <-.
    + by rewrite Hl3, Hk2, Hk1, lookup_empty.
  - rewrite Hk5 by done.
    destruct (last (XPath (Child "w:pPr") c)) as [tp|].
    + destruct Hl4 as (v & hx & hy & Hx & Hv).
      apply bind_Ok in Hx as (s & Hs & Heq). injection Heq as <- <-. by exists s.
    + by rewrite Hl4, Hk3, Hk2, Hk1, lookup_empty.
  - destruct (last (XPath (Child "w:rPr") c)) as [tp|].
    + destruct Hl5 as (v & hx & hy & Hx & Hv).
      apply bind_Ok in Hx as (s & Hs & Heq). injection Heq as <- <-. by exists s.
    + by rewrite Hl5, Hk4, Hk3, Hk2, Hk1, lookup_empty.
  - intros k Hk.
    rewrite Hk5, Hk4, Hk3, Hk2, Hk1, lookup_empty; [done|..]; intros ->; set_solver.
Qed.

(** The loop over the conditional regions: the entry of a region type
    is that of the last region of the type. *)
Lemma regions_loop (cs : list xnode) (r : nat) (g g' : store) (ov : overrides) :
  (∀ c, c ∈ cs -> ∀ tblPr hx s hy,
        __init__node c tblPr hx = Ok (s, hy) -> store_kept hx hy) ->
  for_each cs (fun h c => read_region (__init__node c) r h c) g = Ok g' ->
  g !! r = Some ov ->
  (∀ r0, r0 ∈ dom g -> r0 ≠ r -> g' !! r0 = g !! r0) ∧
  ∃ ov', g' !! r = Some ov' ∧
    ∀ k, match last (filter (fun c => get c "w:type" = k) cs) with
         | None => ov' !! k = ov !! k
         | Some c => ∃ o, ov' !! k = Some o ∧ region_entry c o
         end.
Proof.
  revert g'. induction cs as [|c cs IH] using rev_ind; intros g' Hnested Hrun Hr.
  - injection Hrun as <-. split; [done|]. by exists ov.
  - rewrite for_each_app in Hrun. apply bind_Ok in Hrun as (g1 & Hrun & Hstep).
    cbn [for_each] in Hstep. apply bind_Ok in Hstep as (g2 & Hstep & Heq).
    injection Heq as <-.
    destruct (IH g1) as (Hf1 & ov1 & Hr1 & Hent1); [|done..|].
    { intros c' Hc'. apply Hnested. set_solver. }
    destruct (read_region_spec r g1 g2 c ov1) as (Hf2 & o & Hr2 & Hent2); [|done..|].
    { apply Hnested. set_solver. }
    split.
    { intros r0 Hr0 Hne. rewrite Hf2; [by apply Hf1| |done].
      apply elem_of_dom. rewrite Hf1 by done. by apply elem_of_dom. }
    exists (<[get c "w:type" := o]> ov1). split; [done|]. intros k.
    rewrite filter_app. destruct (decide (get c "w:type" = k)) as [<-|Hne].
    + rewrite filter_cons_True by done. rewrite filter_nil, last_snoc.
      exists o. by rewrite lookup_insert_eq.
    + rewrite filter_cons_False by done. rewrite filter_nil, app_nil_r.
      rewrite lookup_insert_ne by done. apply Hent1.
Qed.

(** Building a table style leaves the dictionaries of the store alone. *)
Lemma init_store_kept (parent tblPr : xnode) (h h' : store) (self : obj) :
  __init__node parent tblPr h = Ok (self, h') -> store_kept h h'.
Proof.
  revert tblPr h h' self. induction parent as [parent IH] using xnode_ind_children.
  intros tblPr h h' self. rewrite __init__node_eq.
  intros (s1 & _ & Hrun)%bind_Ok.
  destruct (is_tag parent "w:style"); [|injection Hrun as _ <-; by intros ?].
  cbn zeta in Hrun. apply bind_Ok in Hrun as (g' & Hloop & Heq).
  injection Heq as _ <-.
  assert (Hnested : ∀ c, c ∈ XPath (ChildWithAttr "w:tblStylePr" "w:type") parent ->
            ∀ tblPr hx s hy, __init__node c tblPr hx = Ok (s, hy) -> store_kept hx hy).
  { intros c Hc tblPr' hx s hy. rewrite Forall_forall in IH. apply IH.
    unfold XPath in Hc. by apply list_elem_of_filter in Hc as [_ Hc]. }
  destruct (regions_loop _ _ _ _ ∅ Hnested Hloop) as (Hframe & _).
  - by rewrite lookup_insert_eq.
  - intros r0 Hr0.
    assert (Hne : r0 ≠ fresh (dom h)) by (intros ->; by apply (is_fresh (dom h))).
    rewrite Hframe; [by rewrite lookup_insert_ne | | done].
    rewrite dom_insert_L. set_solver.
Qed.

(** [TableStyle(tblPr)] for a node. The constructor leaves the
    dictionaries that exist alone. When the parent of the node is not a
    named style it makes no dictionary. When it is, [overrides] is a new
    dictionary whose keys are the types of the conditional regions of
    the style; a type that occurs several times has the entry of its
    last region (the earlier entry is replaced, not completed); and an
    entry has the key ['table'], ['row'], ['cell'], ['block'] or
    ['char'] exactly when the region has a child of the kind, with what
    the last such child gives: in particular the row style is the empty
    record that [RowStyle] makes of a node, and the cell properties are
    the node itself. *)
Theorem TableStyle_node_overrides (parent tblPr : xnode) (h h' : store) (self : obj) :
  __init__node parent tblPr h = Ok (self, h') ->
  (∀ r0, r0 ∈ dom h -> h' !! r0 = h !! r0) ∧
  (is_tag parent "w:style" = false -> h' = h) ∧
  (is_tag parent "w:style" = true ->
     let r := fresh (dom h) in
     let regions := XPath (ChildWithAttr "w:tblStylePr" "w:type") parent in
     (r ∉ dom h) ∧ self !! "overrides" = Some (VRef r) ∧
     ∃ ov, h' !! r = Some ov ∧
       (∀ k, is_Some (ov !! k) ↔ ∃ c, c ∈ regions ∧ get c "w:type" = k) ∧
       (∀ k c, last (filter (fun c => get c "w:type" = k) regions) = Some c ->
               ∃ o, ov !! k = Some o ∧ region_entry c o)).
Proof.
  intros Hrun. split; [by eapply init_store_kept|].
  rewrite __init__node_eq in Hrun. apply bind_Ok in Hrun as (s1 & _ & Hrun).
  destruct (is_tag parent "w:style").
  2:{ split; [|done]. intros _. by injection Hrun as _ <-. }
  split; [done|]. intros _ r regions. cbn zeta in Hrun. fold r regions in Hrun.
  apply bind_Ok in Hrun as (g' & Hloop & Heq). injection Heq as <- <-.
  split; [apply is_fresh|]. split; [unfold setattr; by rewrite lookup_insert_eq|].
  assert (Hnested : ∀ c, c ∈ regions ->
            ∀ tblPr hx s hy, __init__node c tblPr hx = Ok (s, hy) -> store_kept hx hy).
  { intros c _ tblPr' hx s hy. apply init_store_kept. }
  destruct (regions_loop _ _ _ _ ∅ Hnested Hloop) as (_ & ov & Hr & Hent).
  - by rewrite lookup_insert_eq.
  - exists ov. split; [done|]. split.
    + intros k. specialize (Hent k).
      destruct (last (filter _ regions)) as [c|] eqn:Hlast.
      * destruct Hent as (o & -> & _). split; [|by eexists].
        intros _. apply last_Some_elem_of, list_elem_of_filter in Hlast as [Hk Hc].
        by exists c.
      * rewrite Hent, lookup_empty. split; [by intros [? ?]|].
        intros (c & Hc & Hk). apply last_None in Hlast.
        assert (Hin : c ∈ filter (fun c => get c "w:type" = k) regions)
          by by apply list_elem_of_filter.
        rewrite Hlast in Hin. by apply elem_of_nil in Hin.
    + intros k c Hlast. specialize (Hent k). by rewrite Hlast in Hent.
Qed.

End table_style_node.

(** The cell style of [two_spans_tcPr]. *)
Lemma CellStyle_init_witness :
  ∃ ext own,
    (read_borders two_spans_tcPr ∅ ≫= read_shd two_spans_tcPr) = Ok ext ∧
    for_each [read_padding; read_cell_width; read_vertical_align; read_col_span;
              read_merge] (fun s f => f two_spans_tcPr s) ∅ = Ok own ∧
    example_cell_style = own ∪ ext ∧
    own !! "cell_padding_left" = Some Inherit.
Proof.
  destruct (CellStyle_init two_spans_tcPr example_cell_style)
    as (_ & ext & own & Hext & Hown & Hself & _ & Hpad).
  - vm_compute. reflexivity.
  - exists ext, own. do 3 (split; [assumption|]). apply (Hpad "left"). by_compute.
Defined.

(** In [style_node] the type [firstRow] occurs twice: its entry is that
    of the second region, with the cell properties and without row
    style. *)
Lemma TableStyle_node_overrides_witness :
  ∃ ov o, example_table_style.2 !! 0%nat = Some ov ∧
    example_table_style.1 !! "overrides" = Some (VRef 0) ∧
    ov !! Some "firstRow" = Some o ∧
    o !! "row" = None ∧
    o !! "cell" = Some (OCell (w_elem 7 "tcPr" [] [])).
Proof.
  destruct (TableStyle_node_overrides style_node style_tblPr ∅
              example_table_style.2 example_table_style.1) as (_ & _ & Hstyle).
  - vm_compute. reflexivity.
  - destruct Hstyle as (_ & Hattr & ov & Hr & _ & Hent); [vm_compute; reflexivity|].
    destruct (Hent (Some "firstRow") first_row_again) as (o & Ho & Hentry);
      [vm_compute; reflexivity|].
    destruct Hentry as (_ & Hrow & Hcell & _).
    exists ov, o. split; [exact Hr|]. split; [exact Hattr|]. split; [exact Ho|].
    split; [exact Hrow | exact Hcell].
Defined.

(** ** The white space of the table *)

Section tails.
Context {imports : Imports}.
Import Lxml Tables.
Implicit Types (d : tree) (n m q c : nat) (old K : gset nat) (rmap : gmap nat nat).

Lemma settled_refl K d : settled K d d.
Proof. by intros n. Qed.

Lemma settled_trans K d1 d2 d3 : settled K d1 d2 -> settled K d2 d3 -> settled K d1 d3.
Proof.
  intros H12 H23 n Hn. destruct (H12 n Hn) as [<- <-]. by apply H23.
Qed.

Lemma settled_mono K K' d d' : settled K' d d' -> K ⊆ K' -> settled K d d'.
Proof. intros Hs Hsub n Hn. apply Hs. set_solver. Qed.

Lemma settled_alter K d (f : element -> element) k :
  (∀ e, e_text (f e) = e_text e) ->
  (k ∈ K -> ∀ e, e_tail (f e) = e_tail e) ->
  settled K d (alter f k d).
Proof.
  intros Htext Htail n Hn. unfold text_of, tail_of. rewrite lookup_alter_fmap.
  destruct (d !! n) as [e|]; simpl; [|done].
  destruct (decide (k = n)) as [->|]; simpl; [|done].
  by rewrite Htext, Htail.
Qed.

Lemma settled_detach K d c : settled K d (detach d c).
Proof.
  unfold detach. destruct (getparent d c); [|apply settled_refl].
  eapply settled_trans; apply settled_alter; done.
Qed.

Lemma settled_append K d d' q c : append d q c = Ok d' -> settled K d d'.
Proof.
  unfold append. destruct (is_ancestor_or_same _ _ _ _); [done|]. intros [= <-].
  eapply settled_trans; [apply settled_detach|].
  eapply settled_trans; apply settled_alter; done.
Qed.

Lemma settled_insert K d parent idx c : settled K d (insert d parent idx c).
Proof.
  unfold insert. eapply settled_trans; [apply settled_detach|].
  eapply settled_trans; apply settled_alter; done.
Qed.

Lemma settled_E K d name text : K ⊆ dom d -> settled K d (E name text d).2.
Proof.
  intros HK n Hn. unfold text_of, tail_of, E. simpl.
  rewrite lookup_insert_ne; [done|]. intros <-.
  apply (is_fresh (dom d)). by apply HK.
Qed.

Lemma settled_set_last_tail K d n s :
  (∀ c, last (children d n) = Some c -> c ∉ K) ->
  settled K d (set_last_tail d n s).
Proof.
  intros Hlast. unfold set_last_tail.
  destruct (last (children d n)) as [c|]; [|apply settled_refl].
  apply settled_alter; [done|]. intros Hc. by destruct (Hlast c).
Qed.

(** The element maker gives the text, and the assignment the tail. *)
Lemma new_child_spaced K name text s d q d' :
  let n := (E name text d).1 in
  append (alter (set_tail s) n (E name text d).2) q n = Ok d' ->
  K ⊆ dom d ->
  settled K d d' ∧ text_of d' n = text ∧ tail_of d' n = Some s.
Proof.
  intros n Happ HK.
  assert (Hn : n ∉ K).
  { intros Hin%HK. by apply (E_fresh name text d). }
  split.
  - eapply settled_trans; [by apply settled_E|].
    eapply settled_trans; [|by eapply settled_append].
    apply settled_alter; done.
  - destruct (settled_append {[ n ]} _ _ _ _ Happ n) as [-> ->]; [set_solver|].
    unfold text_of, tail_of, n, E. simpl.
    by rewrite !lookup_alter_eq, !lookup_insert_eq.
Qed.

Lemma move_blocks_settled K rmap td (ps : list xnode) d d' :
  for_each ps (fun d p => block ← getitem rmap p; append d td block) d = Ok d' ->
  settled K d d'.
Proof.
  apply (for_each_inv (fun dc => settled K d dc)); [apply settled_refl|].
  intros d1 p d2 Hs (b & _ & Happ)%bind_Ok.
  eapply settled_trans; [done | by eapply settled_append].
Qed.

Lemma add_cell_spaced old K rmap tr d tc d' :
  add_cell rmap tr d tc = Ok d' ->
  assembly_inv old d -> (∀ k b, rmap !! k = Some b -> b ∈ old) ->
  tr ∈ dom d -> tr ∉ old -> tag d tr = Some "tr" -> K ⊆ dom d ->
  settled K d d' ∧
  ∀ td, children d' tr = (children d tr ++ [td])%list ->
        text_of d' td = None ∧ tail_of d' td = Some (nl ++ tab ++ tab ++ tab).
Proof.
  unfold add_cell. intros Hrun Hinv Hrmap Htr Htrold Htrtag HK.
  pose proof (new_child "td" None (nl ++ tab ++ tab ++ tab) d tr) as Hnew.
  pose proof (new_child_extends old "td" None (nl ++ tab ++ tab ++ tab) d tr) as Hnewx.
  pose proof (new_child_spaced K "td" None (nl ++ tab ++ tab ++ tab) d tr) as Hnews.
  destruct (E "td" None d) as [td d0]. cbn [fst snd] in Hnew, Hnewx, Hnews.
  apply bind_Ok in Hrun as (d1 & Happ & Hloop).
  destruct (Hnew d1 Happ Htr)
    as (Hfresh & Hdom & Htag & Hch & Hgp & Hchtr & Hsame & Hchsame).
  destruct (Hnewx d1 Happ Htr Hinv) as [Hinv1 Hext1].
  destruct (Hnews d1 Happ HK) as (Hs1 & Htext1 & Htail1).
  destruct (move_blocks_extends old rmap td _ d1 d' Hloop Hinv1 Hrmap Htag)
    as (Hdom' & Hinv' & Hext').
  split.
  - eapply settled_trans; [done | by eapply move_blocks_settled].
  - intros td' Htd'.
    assert (Hchtr' : children d' tr = children d1 tr).
    { apply (ext_children _ _ _ _ Hext'); [set_solver | done | | set_solver].
      destruct (Hsame tr) as [-> _]; [by intros -> | by rewrite Htrtag]. }
    rewrite Hchtr', Hchtr in Htd'. apply app_inv_head in Htd'. injection Htd' as <-.
    destruct (move_blocks_settled {[ td ]} rmap td _ d1 d' Hloop td) as [-> ->];
      [set_solver | done].
Qed.

Lemma add_cells_spaced old rmap tr (tcs : list xnode) K d d' :
  for_each tcs (add_cell rmap tr) d = Ok d' ->
  assembly_inv old d -> (∀ k b, rmap !! k = Some b -> b ∈ old) ->
  tr ∈ dom d -> tr ∉ old -> tag d tr = Some "tr" -> K ⊆ dom d ->
  settled K d d' ∧
  ∀ tds, children d' tr = (children d tr ++ tds)%list ->
    Forall (fun td => text_of d' td = None ∧
                      tail_of d' td = Some (nl ++ tab ++ tab ++ tab)) tds.
Proof.
  intros Hrun Hinv Hrmap. revert K d Hrun Hinv.
  induction tcs as [|tc tcs IH]; intros K d Hrun Hinv Htr Htrold Htrtag HK;
    simpl in Hrun.
  - injection Hrun as <-. split; [apply settled_refl|].
    intros tds Htds. rewrite <- (app_nil_r (children d tr)) in Htds at 1.
    apply app_inv_head in Htds as <-. constructor.
  - apply bind_Ok in Hrun as (d1 & Hstep & Hrun).
    destruct (add_cell_spec old rmap tr d tc d1 Hstep Hinv Hrmap Htr Htrold Htrtag)
      as (td & Hfresh & Hdom1 & Htag1 & Hgp1 & Hch1 & Hinv1 & Hext1).
    destruct (add_cell_spaced old K rmap tr d tc d1 Hstep Hinv Hrmap Htr Htrold Htrtag HK)
      as (Hs1 & Hsp1).
    assert (Htr1 : tr ∈ dom d1) by set_solver.
    assert (Htrtag1 : tag d1 tr = Some "tr") by by rewrite (ext_tag _ _ _ _ Hext1).
    destruct (add_cells_spec old rmap tr tcs d1 d' Hrun Hinv1 Hrmap Htr1 Htrold Htrtag1)
      as (tds' & _ & _ & _ & _ & Hch' & _ & _ & _).
    destruct (IH (K ∪ {[ td ]}) d1 Hrun Hinv1 Htr1 Htrold Htrtag1) as (Hs' & Hsp');
      [set_solver|].
    split.
    + eapply settled_trans; [done|]. eapply settled_mono; [done | set_solver].
    + intros tds Htds. rewrite Hch', Hch1, <- app_assoc in Htds.
      apply app_inv_head in Htds as <-. simpl. apply Forall_cons. split.
      * destruct (Hs' td) as [-> ->]; [set_solver|]. by apply Hsp1.
      * apply Hsp'. by rewrite Hch'.
Qed.

(** [if len(n): n[-1].tail = final], when the children of [n] have the
    tail [inner]. *)
Lemma set_last_tail_tails d n (ns : list nat) (inner final : string) :
  children d n = ns -> NoDup ns ->
  Forall (fun m => tail_of d m = Some inner) ns ->
  tails_of (set_last_tail d n final) ns inner final.
Proof.
  intros Hch Hnd Hall. unfold set_last_tail. rewrite Hch.
  destruct ns as [|c l _] using rev_ind; [by intros i m ?|].
  rewrite last_snoc. apply NoDup_app in Hnd as (_ & Hdisj & _).
  apply Forall_app in Hall as [Hl Hc]. apply Forall_cons in Hc as [Hc _].
  intros i m Hi. rewrite length_app. simpl.
  destruct (decide (i = length l)) as [->|Hne].
  - rewrite list_lookup_middle in Hi by done. injection Hi as <-.
    rewrite decide_True by lia.
    unfold tail_of in Hc |- *. rewrite lookup_alter_eq.
    destruct (d !! c); simpl in *; [done|discriminate].
  - rewrite decide_False by lia.
    assert (Hlt : (i < length l)%nat).
    { apply lookup_lt_Some in Hi. rewrite length_app in Hi. simpl in Hi. lia. }
    rewrite lookup_app_l in Hi by done.
    assert (Hm : m ∈ l) by by eapply list_elem_of_lookup_2.
    assert (m ≠ c). { intros ->. apply (Hdisj c Hm). set_solver. }
    unfold tail_of. rewrite lookup_alter_ne by done.
    rewrite Forall_forall in Hl. by apply Hl.
Qed.

Lemma set_last_tail_other d n s m :
  m ∉ children d n ->
  text_of (set_last_tail d n s) m = text_of d m ∧
  tail_of (set_last_tail d n s) m = tail_of d m.
Proof.
  intros Hm. apply (settled_set_last_tail {[ m ]}); [|set_solver].
  intros c Hc%last_Some_elem_of ->%elem_of_singleton. done.
Qed.

Lemma set_last_tail_text d n s m :
  text_of (set_last_tail d n s) m = text_of d m.
Proof.
  unfold set_last_tail. destruct (last (children d n)) as [c|]; [|done].
  unfold text_of. rewrite lookup_alter_fmap. destruct (d !! m); simpl; [|done].
  by destruct (decide (c = m)).
Qed.

(** A finished row stays as it is. *)
Lemma row_spaced_settled K d d' tr :
  row_spaced d tr -> settled K d d' -> children d' tr = children d tr ->
  tr ∈ K -> (∀ td, td ∈ children d tr -> td ∈ K) ->
  row_spaced d' tr.
Proof.
  intros (Htext & Htails & Hnone) Hs Hch Htr Htds. unfold row_spaced. rewrite Hch.
  split; [|split].
  - destruct (Hs tr Htr) as [-> _]. done.
  - intros i td Hi. destruct (Hs td) as [_ ->]; [|by apply Htails].
    apply Htds. by eapply list_elem_of_lookup_2.
  - apply Forall_forall. intros td Htd. destruct (Hs td (Htds td Htd)) as [-> _].
    rewrite Forall_forall in Hnone. by apply Hnone.
Qed.

Lemma add_row_spaced old K rmap table d row d' :
  add_row rmap table d row = Ok d' ->
  assembly_inv old d -> (∀ k b, rmap !! k = Some b -> b ∈ old) ->
  table ∈ dom d -> table ∉ old -> tag d table = Some "table" -> K ⊆ dom d ->
  settled K d d' ∧
  ∀ tr, children d' table = (children d table ++ [tr])%list ->
        row_spaced d' tr ∧ tail_of d' tr = Some (nl ++ tab ++ tab).
Proof.
  unfold add_row. intros Hrun Hinv Hrmap Ht Htold Httag HK.
  pose proof (new_child "tr" (Some (nl ++ tab ++ tab ++ tab)) (nl ++ tab ++ tab) d table)
    as Hnew.
  pose proof (new_child_extends old "tr" (Some (nl ++ tab ++ tab ++ tab))
                (nl ++ tab ++ tab) d table) as Hnewx.
  pose proof (new_child_spaced K "tr" (Some (nl ++ tab ++ tab ++ tab))
                (nl ++ tab ++ tab) d table) as Hnews.
  destruct (E "tr" (Some (nl ++ tab ++ tab ++ tab)) d) as [tr d0].
  cbn [fst snd] in Hnew, Hnewx, Hnews.
  apply bind_Ok in Hrun as (d1 & Happ & Hrun).
  apply bind_Ok in Hrun as (d2 & Hcells & Hrun). injection Hrun as <-.
  destruct (Hnew d1 Happ Ht)
    as (Hfresh & Hdom & Htag & Hch & Hgp & Hcht & Hsame & Hchsame).
  destruct (Hnewx d1 Happ Ht Hinv) as [Hinv1 Hext1].
  destruct (Hnews d1 Happ HK) as (Hs1 & Htext1 & Htail1).
  assert (Htr1 : tr ∈ dom d1) by set_solver.
  assert (Htrold : tr ∉ old) by (destruct Hinv; set_solver).
  destruct (add_cells_spec old rmap tr _ d1 d2 Hcells Hinv1 Hrmap Htr1 Htrold Htag)
    as (tds & _ & Hnd & Hnewtds & _ & Hch2 & _ & _ & Hext2).
  destruct (add_cells_spaced old rmap tr _ (K ∪ {[ tr ]}) d1 d2 Hcells Hinv1 Hrmap
              Htr1 Htrold Htag) as (Hs2 & Hsp2); [set_solver|].
  rewrite Hch in Hch2. simpl in Hch2.
  specialize (Hsp2 tds). rewrite Hch in Hsp2. specialize (Hsp2 Hch2).
  assert (Htrtds : tr ∉ tds) by (intros Hin; by apply (Hnewtds tr)).
  split.
  - eapply settled_trans; [done|]. eapply settled_trans.
    + eapply settled_mono; [done | set_solver].
    + apply settled_set_last_tail. intros c Hc%last_Some_elem_of Hin.
      rewrite Hch2 in Hc. apply (Hnewtds c Hc). set_solver.
  - intros tr'. rewrite set_last_tail_children. intros Htr'.
    assert (Hcht2 : children d2 table = children d1 table).
    { apply (ext_children _ _ _ _ Hext2); [set_solver | done | |].
      - destruct (Hsame table) as [-> _]; [by intros -> | by rewrite Httag].
      - intros ->%elem_of_singleton. done. }
    rewrite Hcht2, Hcht in Htr'. apply app_inv_head in Htr'. injection Htr' as <-.
    destruct (Hs2 tr) as [Htext2 Htail2]; [set_solver|].
    destruct (set_last_tail_other d2 tr (nl ++ tab ++ tab) tr) as [Htext' Htail'];
      [by rewrite Hch2|].
    split; [|by rewrite Htail', Htail2].
    unfold row_spaced. rewrite set_last_tail_children, Hch2.
    split; [by rewrite Htext', Htext2|]. split.
    + apply set_last_tail_tails; [done | done |].
      eapply Forall_impl; [exact Hsp2|]. by intros td [_ ?].
    + eapply Forall_impl; [exact Hsp2|]. intros td [Htd _].
      by rewrite set_last_tail_text.
Qed.

Lemma add_rows_spaced old rmap table (rows : list xnode) K d d' :
  for_each rows (add_row rmap table) d = Ok d' ->
  assembly_inv old d -> (∀ k b, rmap !! k = Some b -> b ∈ old) ->
  table ∈ dom d -> table ∉ old -> tag d table = Some "table" -> K ⊆ dom d ->
  settled K d d' ∧
  ∀ trs, children d' table = (children d table ++ trs)%list ->
    Forall (fun tr => row_spaced d' tr ∧ tail_of d' tr = Some (nl ++ tab ++ tab)) trs.
Proof.
  intros Hrun Hinv Hrmap. revert K d Hrun Hinv.
  induction rows as [|row rows IH]; intros K d Hrun Hinv Ht Htold Httag HK;
    simpl in Hrun.
  - injection Hrun as <-. split; [apply settled_refl|].
    intros trs Htrs. rewrite <- (app_nil_r (children d table)) in Htrs at 1.
    apply app_inv_head in Htrs as <-. constructor.
  - apply bind_Ok in Hrun as (d1 & Hstep & Hrun).
    destruct (add_row_spec old rmap table d row d1 Hstep Hinv Hrmap Ht Htold Httag)
      as (tr & tds & _ & _ & Hnew1 & Hdom1 & Hch1 & Hrow1 & Hinv1 & Hext1).
    destruct (add_row_spaced old K rmap table d row d1 Hstep Hinv Hrmap Ht Htold Httag HK)
      as (Hs1 & Hsp1).
    assert (Ht1 : table ∈ dom d1) by set_solver.
    assert (Httag1 : tag d1 table = Some "table") by by rewrite (ext_tag _ _ _ _ Hext1).
    destruct (add_rows_spec old rmap table rows d1 d' Hrun Hinv1 Hrmap Ht1 Htold Httag1)
      as (trs' & tdss' & _ & _ & _ & _ & Hch' & _ & _ & Hext').
    destruct (IH (K ∪ list_to_set (tr :: tds)) d1 Hrun Hinv1 Ht1 Htold Httag1)
      as (Hs' & Hsp'); [set_solver|].
    assert (Hold : old ⊆ dom d) by by destruct Hinv.
    split.
    + eapply settled_trans; [done|]. eapply settled_mono; [done | set_solver].
    + intros trs Htrs. rewrite Hch', Hch1, <- app_assoc in Htrs.
      apply app_inv_head in Htrs as <-. simpl. apply Forall_cons. split.
      * destruct (Hsp1 tr Hch1) as [Hrs Htl].
        destruct Hrow1 as (Htrtag & Hgp & Hchtr & Hall).
        assert (Htr1 : tr ∈ dom d1) by by eapply tag_dom.
        assert (Htrold : tr ∉ old).
        { intros Hin. apply (Hnew1 tr); set_solver. }
        assert (Hchtr' : children d' tr = children d1 tr).
        { apply (ext_children _ _ _ _ Hext'); [done | done | by rewrite Htrtag |].
          intros ->%elem_of_singleton. apply (Hnew1 table); set_solver. }
        split.
        -- eapply row_spaced_settled; [done..| |].
           ++ set_solver.
           ++ intros td Htd. rewrite Hchtr in Htd. set_solver.
        -- destruct (Hs' tr) as [_ ->]; [set_solver | done].
      * apply Hsp'. by rewrite Hch'.
Qed.

Lemma created_trs (trs : list nat) (tdss : list (list nat)) (tr : nat) :
  length trs = length tdss -> tr ∈ trs -> tr ∈ created trs tdss.
Proof.
  revert tdss. induction trs as [|tr0 trs IH]; intros tdss Hlen Hin.
  { by apply elem_of_nil in Hin. }
  destruct tdss as [|tds tdss]; [done|]. simpl in Hlen.
  rewrite created_cons. apply elem_of_cons in Hin as [->|Hin]; [set_solver|].
  assert (tr ∈ created trs tdss) by (apply IH; [lia | done]). set_solver.
Qed.

Lemma created_NoDup_trs (trs : list nat) (tdss : list (list nat)) :
  length trs = length tdss -> NoDup (created trs tdss) -> NoDup trs.
Proof.
  revert tdss. induction trs as [|tr trs IH]; intros tdss Hlen Hnd.
  { apply NoDup_nil_2. }
  destruct tdss as [|tds tdss]; [done|]. simpl in Hlen.
  rewrite created_cons in Hnd. apply NoDup_cons in Hnd as [Htr Hnd].
  apply NoDup_app in Hnd as (_ & _ & Hnd). apply NoDup_cons. split.
  - intros Hin. apply Htr. apply elem_of_app. right. apply created_trs; [lia | done].
  - apply (IH tdss); [lia | done].
Qed.

(** The table element as the element maker gives it. *)
Lemma insert_table_spaced K rmap first d t d2 :
  insert_table rmap first d = Ok (t, d2) -> K ⊆ dom d ->
  settled K d d2 ∧ text_of d2 t = Some (nl ++ tab ++ tab) ∧ tail_of d2 t = None.
Proof.
  unfold insert_table. intros Hins HK.
  apply bind_Ok in Hins as (b & _ & Hins).
  pose proof (settled_E K d "table" (Some (nl ++ tab ++ tab)) HK) as HsE.
  assert (HE : text_of (E "table" (Some (nl ++ tab ++ tab)) d).2
                       (E "table" (Some (nl ++ tab ++ tab)) d).1
               = Some (nl ++ tab ++ tab) ∧
               tail_of (E "table" (Some (nl ++ tab ++ tab)) d).2
                       (E "table" (Some (nl ++ tab ++ tab)) d).1 = None).
  { unfold text_of, tail_of, E. simpl. by rewrite !lookup_insert_eq. }
  destruct (E "table" (Some (nl ++ tab ++ tab)) d) as [t0 d1].
  cbn [fst snd] in HsE, HE.
  destruct (getparent d b) as [parent|]; [|done].
  apply bind_Ok in Hins as (b' & _ & Hins).
  apply bind_Ok in Hins as (idx & _ & Hins).
  assert (t = t0 ∧ d2 = insert d1 parent idx t0) as [-> ->] by (split; congruence).
  split.
  - eapply settled_trans; [done | apply settled_insert].
  - destruct (settled_insert {[ t0 ]} d1 parent idx t0 t0) as [-> ->]; [set_solver|].
    done.
Qed.

(** The turn of a registered table that has blocks. *)
Lemma assemble_spaced old K rmap tbl first rest d d' :
  assemble rmap d (tbl, first :: rest) = Ok d' ->
  assembly_inv old d -> (∀ k b, rmap !! k = Some b -> b ∈ old) -> K ⊆ dom d ->
  settled K d d' ∧
  ∀ t d2, insert_table rmap first d = Ok (t, d2) ->
    text_of d' t = Some (nl ++ tab ++ tab) ∧ tail_of d' t = None ∧
    tails_of d' (children d' t) (nl ++ tab ++ tab) (nl ++ tab) ∧
    Forall (row_spaced d') (children d' t).
Proof.
  unfold assemble. intros Hrun Hinv Hrmap HK.
  apply bind_Ok in Hrun as ([t d2] & Hins & Hrun).
  apply bind_Ok in Hrun as (d3 & Hrows & Hrun). injection Hrun as <-.
  destruct (insert_table_spec old rmap first d t d2 Hins Hinv Hrmap)
    as (b & parent & idx & Hb & Hp & Hidx & Hfresh & Hdom2 & Htag2 & Hch2 & Hgp2
        & Hchp & Hinv2 & Hext2 & _ & _).
  assert (Hold : old ⊆ dom d) by by destruct Hinv.
  assert (Htold : t ∉ old) by set_solver.
  assert (Ht2 : t ∈ dom d2) by set_solver.
  destruct (insert_table_spaced K rmap first d t d2 Hins HK) as (Hs2 & Htext2 & Htail2).
  destruct (add_rows_spec old rmap t _ d2 d3 Hrows Hinv2 Hrmap Ht2 Htold Htag2)
    as (trs & tdss & _ & Hnd & Hnew & _ & Hch3 & Hrows3 & _ & _).
  destruct (add_rows_spaced old rmap t _ (K ∪ {[ t ]}) d2 d3 Hrows Hinv2 Hrmap
              Ht2 Htold Htag2) as (Hs3 & Hsp3); [set_solver|].
  rewrite Hch2 in Hch3. simpl in Hch3.
  specialize (Hsp3 trs). rewrite Hch2 in Hsp3. specialize (Hsp3 Hch3).
  assert (Hlen : length trs = length tdss) by by eapply Forall2_length.
  assert (Httrs : t ∉ trs).
  { intros Hin. apply (Hnew t); [by apply created_trs | done]. }
  split.
  - eapply settled_trans; [done|]. eapply settled_trans.
    + eapply settled_mono; [done | set_solver].
    + apply settled_set_last_tail. intros c Hc%last_Some_elem_of Hin.
      rewrite Hch3 in Hc. apply (Hnew c); [by apply created_trs | set_solver].
  - intros t' d2' Heq.
    assert (t' = t ∧ d2' = d2) as [-> ->] by (split; congruence).
    destruct (Hs3 t) as [Htext3 Htail3]; [set_solver|].
    destruct (set_last_tail_other d3 t (nl ++ tab) t) as [Htext' Htail'];
      [by rewrite Hch3|].
    rewrite set_last_tail_children, Hch3.
    split; [by rewrite Htext', Htext3|]. split; [by rewrite Htail', Htail3|]. split.
    + apply set_last_tail_tails; [done | by eapply created_NoDup_trs |].
      eapply Forall_impl; [exact Hsp3|]. by intros tr [_ ?].
    + apply Forall_forall. intros tr Htr.
      rewrite Forall_forall in Hsp3. destruct (Hsp3 tr Htr) as [Hrs _].
      assert (Hrow : ∃ tds, row_of d3 t tr tds).
      { clear -Hrows3 Htr. induction Hrows3 as [|tr0 tds trs tdss Hrow _ IH];
          [by apply elem_of_nil in Htr|].
        apply elem_of_cons in Htr as [->|Htr]; [by exists tds | by apply IH]. }
      destruct Hrow as (tds & Htrtag & _ & Hchtr & Hall).
      destruct Hrs as (Hrtext & Hrtails & Hrnone).
      unfold row_spaced. rewrite set_last_tail_children, set_last_tail_text.
      split; [done|]. split.
      * intros i td Hi. rewrite <- (Hrtails i td Hi).
        apply set_last_tail_other. rewrite Hch3. intros Hin.
        assert (Htd : td ∈ tds).
        { rewrite <- Hchtr. by eapply list_elem_of_lookup_2. }
        rewrite Forall_forall in Hall. destruct (Hall td Htd) as [Htdtag _].
        assert (Htdtr : tag d3 td = Some "tr").
        { clear -Hrows3 Hin. induction Hrows3 as [|tr0 tds0 trs tdss Hrow _ IH];
            [by apply elem_of_nil in Hin|].
          apply elem_of_cons in Hin as [->|Hin]; [by destruct Hrow | by apply IH]. }
        congruence.
      * eapply Forall_impl; [exact Hrnone|]. intros td Htd.
        by rewrite set_last_tail_text.
Qed.

(** The turns of several tables. *)
Lemma assemble_all_settled old K rmap (items : list (xnode * list xnode)) d d' :
  for_each items (assemble rmap) d = Ok d' ->
  assembly_inv old d -> (∀ k b, rmap !! k = Some b -> b ∈ old) -> K ⊆ dom d ->
  settled K d d'.
Proof.
  intros Hrun Hinv Hrmap. revert d Hrun Hinv.
  induction items as [|[tbl blocks] items IH]; intros d Hrun Hinv HK; simpl in Hrun.
  - injection Hrun as <-. apply settled_refl.
  - apply bind_Ok in Hrun as (d1 & Hstep & Hrun).
    destruct blocks as [|first rest].
    + injection Hstep as ->. by apply IH.
    + destruct (assemble_spec old rmap tbl first rest d d1 Hstep Hinv Hrmap)
        as (b & parent & idx & t & d2 & trs & tdss
            & _ & _ & _ & _ & _ & _ & _ & _ & Hdom1 & _ & _ & Hinv1 & _).
      destruct (assemble_spaced old K rmap tbl first rest d d1 Hstep Hinv Hrmap HK)
        as [Hs1 _].
      eapply settled_trans; [done|]. apply IH; [done | done | set_solver].
Qed.

(** The white space [apply_markup] gives a table it makes: when it
    returns, the table element has the text [\n\t\t] and no tail; each
    of its rows has the text [\n\t\t\t] and the tail [\n\t\t], but the
    last row, whose tail is [\n\t]; each cell container has no text and
    the tail [\n\t\t\t], but the last of its row, whose tail is
    [\n\t\t]. Later tables do not change it. *)
Theorem apply_markup_white_space (self : Tables.t) (object_map : list (nat * xnode))
    (d d' : tree) :
  let rmap := make_rmap object_map in
  let items := iteritems self in
  (∀ k b, rmap !! k = Some b -> b ∈ dom d) ->
  (∀ n q, getparent d n = Some q -> q ∈ dom d) ->
  apply_markup self object_map d = Ok d' ->
  ∀ i tbl first rest d1 t d2,
    items !! i = Some (tbl, first :: rest) ->
    for_each (take i items) (assemble rmap) d = Ok d1 ->
    insert_table rmap first d1 = Ok (t, d2) ->
    text_of d' t = Some (nl ++ tab ++ tab) ∧ tail_of d' t = None ∧
    tails_of d' (children d' t) (nl ++ tab ++ tab) (nl ++ tab) ∧
    Forall (row_spaced d') (children d' t).
Proof.
  intros rmap items Hrmap Hparents Hrun i tbl first rest d1 t d2 Hi Hpre Hins.
  unfold apply_markup in Hrun. fold rmap items in Hrun.
  assert (Hinv : assembly_inv (dom d) d).
  { split; [done|]. intros n q _ Hq. left. by eapply Hparents. }
  rewrite <-(take_drop_middle _ _ _ Hi) in Hrun.
  rewrite for_each_app, Hpre in Hrun. cbn [for_each mbind result_bind] in Hrun.
  apply bind_Ok in Hrun as (d3 & Hstep & Hpost).
  destruct (assemble_all_extends (dom d) rmap _ d d1 Hpre Hinv Hrmap) as [Hinv1 Hext1].
  destruct (assemble_spec (dom d) rmap tbl first rest d1 d3 Hstep Hinv1 Hrmap)
    as (b & parent & idx & t' & d2' & trs & tdss & _ & _ & _ & Hins' & _ & _
        & _ & Hnew & Hdom3 & Htable & _ & Hinv3 & _).
  rewrite Hins in Hins'.
  assert (t' = t ∧ d2' = d2) as [-> ->] by (split; congruence).
  destruct (assemble_spaced (dom d) ∅ rmap tbl first rest d1 d3 Hstep Hinv1 Hrmap)
    as [_ Hsp]; [set_solver|].
  destruct (Hsp t d2 Hins) as (Htext & Htail & Htails & Hrows).
  destruct (assemble_all_extends (dom d) rmap _ d3 d' Hpost Hinv3 Hrmap) as [_ Hext'].
  pose proof (assemble_all_settled (dom d) (list_to_set (t :: created trs tdss)) rmap
                _ d3 d' Hpost Hinv3 Hrmap) as Hs.
  assert (Hold : dom d ⊆ dom d1) by by destruct Hinv1.
  assert (Hnewold : ∀ n, n ∈ t :: created trs tdss -> n ∉ dom d).
  { intros n Hn Hin. apply (Hnew n); set_solver. }
  assert (Htable' : table_of d' t trs tdss).
  { eapply table_of_extends; [done..| |].
    - apply Hnewold. set_solver.
    - intros n Hn. apply Hnewold. set_solver. }
  assert (Hcht : children d' t = children d3 t).
  { destruct Htable as (_ & -> & _). by destruct Htable' as (_ & -> & _). }
  specialize (Hs ltac:(set_solver)).
  assert (Hin : ∀ n, n ∈ t :: created trs tdss ->
                     text_of d' n = text_of d3 n ∧ tail_of d' n = tail_of d3 n).
  { intros n Hn. apply Hs. by apply elem_of_list_to_set. }
  rewrite Hcht.
  destruct (Hin t) as [-> ->]; [set_solver|].
  split; [done|]. split; [done|]. split.
  - intros j tr Hj.
    assert (Htr : tr ∈ children d3 t) by by eapply list_elem_of_lookup_2.
    destruct (table_of_nodes d3 t trs tdss tr Htable Htr) as (Htrc & _ & _).
    destruct (Hin tr) as [_ ->]; [set_solver | by apply Htails].
  - apply Forall_forall. intros tr Htr.
    rewrite Forall_forall in Hrows. specialize (Hrows tr Htr).
    destruct (table_of_nodes d3 t trs tdss tr Htable Htr) as (Htrc & Htrtag & Htds).
    eapply (row_spaced_settled (list_to_set (t :: created trs tdss))); [done | done | | |].
    + apply (ext_children _ _ _ _ Hext');
        [by eapply tag_dom | | by rewrite Htrtag | set_solver].
      apply Hnewold. set_solver.
    + apply elem_of_list_to_set. set_solver.
    + intros td Htd. apply elem_of_list_to_set. destruct (Htds td Htd). set_solver.
Qed.

End tails.

(** In the assembled example the first row ends with [\n\t\t] and the
    second, the last one, with [\n\t]. *)
Lemma apply_markup_white_space_witness :
  ∃ t tr1 tr2,
    Lxml.children example_result t = [tr1; tr2] ∧
    text_of example_result t = Some (nl ++ tab ++ tab) ∧
    tail_of example_result tr1 = Some (nl ++ tab ++ tab) ∧
    tail_of example_result tr2 = Some (nl ++ tab) ∧
    row_spaced example_result tr1 ∧ row_spaced example_result tr2.
Proof.
  destruct (Tables.insert_table (Tables.make_rmap example_object_map) (par 10) body_tree)
    as [[t d2]|e] eqn:Hins; [|vm_compute in Hins; discriminate].
  destruct (apply_markup_white_space (state_after example_calls) example_object_map
              body_tree example_result) with (i := 0%nat) (tbl := tbl_a)
              (first := par 10) (rest := [par 11; par 12; par 13]) (d1 := body_tree)
              (t := t) (d2 := d2)
    as (Htext & _ & Htails & Hrows).
  - intros k b Hkb.
    assert (Hblocks : map_Forall (fun _ b => b ∈ dom body_tree)
                        (Tables.make_rmap example_object_map)) by by_compute.
    exact (Hblocks k b Hkb).
  - intros n q Hq. rewrite (body_tree_flat n q Hq). by_compute.
  - apply example_result_run.
  - reflexivity.
  - reflexivity.
  - exact Hins.
  - vm_compute in Hins. injection Hins as Ht _. subst t.
    remember (Lxml.children example_result 121) as trs eqn:Htrs.
    vm_compute in Htrs. subst trs.
    apply Forall_cons in Hrows as [Hrow1 Hrows].
    apply Forall_cons in Hrows as [Hrow2 _].
    exists 121%nat, 122%nat, 125%nat.
    split; [vm_compute; reflexivity|]. split; [exact Htext|].
    split; [exact (Htails 0%nat _ eq_refl)|].
    split; [exact (Htails 1%nat _ eq_refl)|].
    split; [exact Hrow1 | exact Hrow2].
Defined.
